(** * KFifoCache.h: a FIFO cache over a doubly linked queue, and its sharded wrapper

    Shallow embedding of [src/KFifoCache.h].  The queue is modelled the way
    the header builds it: heap-allocated [FifoNode]s that point at each
    other ([next_] is an owning [shared_ptr], [prev_] a [weak_ptr]), two
    sentinel nodes, and an index [nodeMap_] from keys to node pointers.
    A pointer dereference that C++ leaves undefined (null, or a node that
    is gone) makes the embedded operation return [None].  Every public
    member function holds the mutex of its object from start to end, so
    the calls on one object happen one after the other; the embedding is
    of these calls, each taking the object before to the object after. *)

From Stdlib Require Import ZArith Floats.SpecFloat.
From stdpp Require Import numbers option list gmap.

Local Open Scope Z_scope.

(** ** Machine integers *)

(** [size_t] is 64 bits wide and [int] 32 bits wide on the targets of the
    header; conversions between them wrap. *)
Definition size_t_modulus : Z := 2 ^ 64.
Definition INT_MAX : Z := 2 ^ 31 - 1.
Definition INT_MIN : Z := - 2 ^ 31.

(** Conversion of an integer value to [size_t] (modular). *)
Definition to_size_t (z : Z) : Z := z mod size_t_modulus.

(** Conversion of an integer value to [int] (two's complement wrap). *)
Definition to_int (z : Z) : Z := (z + 2 ^ 31) mod 2 ^ 32 - 2 ^ 31.

Definition in_int (z : Z) : Prop := INT_MIN ≤ z ≤ INT_MAX.

(** ** Nodes and the node store *)

(** A [NodePtr] is the address of a live or dead [FifoNode]; [nullptr] and
    the empty [weak_ptr] are [None]. *)
Definition NodePtr := positive.

(** [T()]: the value-initialised object of a type. *)
Class ValueInit (A : Type) := value_init : A.
#[global] Instance Z_value_init : ValueInit Z := 0.
#[global] Instance nat_value_init : ValueInit nat := O.

Section Fifo.
Context {Key Value : Type} {Key_eq : EqDecision Key} {Key_countable : Countable Key}.
(** [Key()] and [Value()], the value-initialised key and value. *)
Context {Key_init : ValueInit Key} {Value_init : ValueInit Value}.

Record FifoNode := mkFifoNode {
  key_ : Key;
  value_ : Value;
  prev_ : option NodePtr;
  next_ : option NodePtr
}.

Definition setValue (value : Value) (n : FifoNode) : FifoNode :=
  mkFifoNode (key_ n) value (prev_ n) (next_ n).
Definition set_prev (p : option NodePtr) (n : FifoNode) : FifoNode :=
  mkFifoNode (key_ n) (value_ n) p (next_ n).
Definition set_next (p : option NodePtr) (n : FifoNode) : FifoNode :=
  mkFifoNode (key_ n) (value_ n) (prev_ n) p.

(** The cache object together with the nodes it owns.  [cells_] holds the
    nodes that are alive, [brk_] is the next address [make_shared] hands
    out (addresses are not reused, so a [weak_ptr] is expired exactly when
    its address is no longer in [cells_]). *)
Record KFifoCache := mkKFifoCache {
  capacity_ : Z;
  nodeMap_ : gmap Key NodePtr;
  dummyHead_ : NodePtr;
  dummyTail_ : NodePtr;
  cells_ : gmap NodePtr FifoNode;
  brk_ : NodePtr
}.

Definition with_cells (σ : gmap NodePtr FifoNode) (s : KFifoCache) : KFifoCache :=
  mkKFifoCache (capacity_ s) (nodeMap_ s) (dummyHead_ s) (dummyTail_ s) σ (brk_ s).
Definition with_nodeMap (m : gmap Key NodePtr) (s : KFifoCache) : KFifoCache :=
  mkKFifoCache (capacity_ s) m (dummyHead_ s) (dummyTail_ s) (cells_ s) (brk_ s).

(** [std::make_shared<FifoNodeType>(key, value)]: a new node with empty
    links at an unused address. *)
Definition make_shared (key : Key) (value : Value) (s : KFifoCache)
  : NodePtr * KFifoCache :=
  let p := brk_ s in
  (p, mkKFifoCache (capacity_ s) (nodeMap_ s) (dummyHead_ s) (dummyTail_ s)
        (<[p := mkFifoNode key value None None]> (cells_ s)) (Pos.succ p)).

(** [w.lock()]: the pointee when it is still alive, else null. *)
Definition lock (σ : gmap NodePtr FifoNode) (w : option NodePtr) : option NodePtr :=
  match w with
  | Some p => if decide (is_Some (σ !! p)) then Some p else None
  | None => None
  end.

(** [w.expired()]. *)
Definition expired (σ : gmap NodePtr FifoNode) (w : option NodePtr) : bool :=
  match lock σ w with Some _ => false | None => true end.

(** Does some [shared_ptr] of the object still hold [p]?  The holders are
    the two sentinel members, the values of [nodeMap_] and the [next_]
    fields of the live nodes. *)
Definition has_owner (p : NodePtr) (s : KFifoCache) : bool :=
  bool_decide (p = dummyHead_ s) || bool_decide (p = dummyTail_ s)
  || bool_decide (map_Exists (λ _ q, q = p) (nodeMap_ s))
  || bool_decide (map_Exists (λ _ n, next_ n = Some p) (cells_ s)).

(** The end of the last local [shared_ptr] to [p]: when no other holder is
    left the node is destroyed, and so is what its own [next_] held alone.
    The recursion is bounded by the number of live nodes. *)
Fixpoint release_fuel (fuel : nat) (p : NodePtr) (s : KFifoCache) : KFifoCache :=
  match fuel with
  | O => s
  | S fuel' =>
      if has_owner p s then s
      else match cells_ s !! p with
           | None => s
           | Some n =>
               let s' := with_cells (delete p (cells_ s)) s in
               match next_ n with
               | Some q => release_fuel fuel' q s'
               | None => s'
               end
           end
  end.

Definition release (p : NodePtr) (s : KFifoCache) : KFifoCache :=
  release_fuel (size (cells_ s)) p s.

(** ** The private member functions *)

(** [initializeQueue], run by the constructor on the object with only
    [capacity_] set: the two sentinels are the first two nodes allocated,
    then linked to each other. *)
Definition initializeQueue (capacity : Z) : KFifoCache :=
  let s0 := mkKFifoCache capacity ∅ 1%positive 1%positive ∅ 1%positive in
  let '(h, s1) := make_shared value_init value_init s0 in
  let '(t, s2) := make_shared value_init value_init s1 in
  let s3 := mkKFifoCache capacity ∅ h t (cells_ s2) (brk_ s2) in
  let σ1 := alter (set_next (Some t)) h (cells_ s3) in
  let σ2 := alter (set_prev (Some h)) t σ1 in
  with_cells σ2 s3.

(** [KFifoCache(int capacity)]. *)
Definition KFifoCache_new (capacity : Z) : KFifoCache := initializeQueue capacity.

(** [node->setValue(value)]. *)
Definition updateExistingNode (node : NodePtr) (value : Value) (s : KFifoCache)
  : option KFifoCache :=
  n ← cells_ s !! node;
  Some (with_cells (<[node := setValue value n]> (cells_ s)) s).

(** [enqueueNode]: four assignments, each reading the store the previous
    one left. *)
Definition enqueueNode (node : NodePtr) (s : KFifoCache) : option KFifoCache :=
  let σ0 := cells_ s in
  (* node->prev_ = dummyTail_->prev_; *)
  t0 ← σ0 !! dummyTail_ s;
  n0 ← σ0 !! node;
  let σ1 := <[node := set_prev (prev_ t0) n0]> σ0 in
  (* node->next_ = dummyTail_; *)
  n1 ← σ1 !! node;
  let σ2 := <[node := set_next (Some (dummyTail_ s)) n1]> σ1 in
  (* dummyTail_->prev_.lock()->next_ = node; *)
  t2 ← σ2 !! dummyTail_ s;
  last ← lock σ2 (prev_ t2);
  l2 ← σ2 !! last;
  let σ3 := <[last := set_next (Some node) l2]> σ2 in
  (* dummyTail_->prev_ = node; *)
  t3 ← σ3 !! dummyTail_ s;
  let σ4 := <[dummyTail_ s := set_prev (Some node) t3]> σ3 in
  Some (with_cells σ4 s).

(** [removeNode]: unlink [node] when both of its neighbours exist.  The
    caller's [node] keeps the unlinked node alive until the caller lets go
    of it ([release]). *)
Definition removeNode (node : NodePtr) (s : KFifoCache) : option KFifoCache :=
  let σ0 := cells_ s in
  n0 ← σ0 !! node;
  if negb (expired σ0 (prev_ n0)) && bool_decide (is_Some (next_ n0)) then
    (* auto prev = node->prev_.lock(); *)
    prev ← lock σ0 (prev_ n0);
    (* prev->next_ = node->next_; *)
    p0 ← σ0 !! prev;
    let σ1 := <[prev := set_next (next_ n0) p0]> σ0 in
    (* node->next_->prev_ = prev; *)
    n1 ← σ1 !! node;
    nx ← next_ n1;
    x1 ← σ1 !! nx;
    let σ2 := <[nx := set_prev (Some prev) x1]> σ1 in
    (* node->next_ = nullptr; *)
    n2 ← σ2 !! node;
    let σ3 := <[node := set_next None n2]> σ2 in
    Some (with_cells σ3 s)
  else Some s.

(** [evictOldest]: drop the node after the head sentinel from the queue
    and its key from the index; [oldestNode] goes out of scope at the end. *)
Definition evictOldest (s : KFifoCache) : option KFifoCache :=
  h ← cells_ s !! dummyHead_ s;
  oldestNode ← next_ h;
  s1 ← removeNode oldestNode s;
  o ← cells_ s1 !! oldestNode;
  let s2 := with_nodeMap (delete (key_ o) (nodeMap_ s1)) s1 in
  Some (release oldestNode s2).

(** [addNewNode]: the comparison [nodeMap_.size() >= capacity_] is made in
    [size_t]. *)
Definition addNewNode (key : Key) (value : Value) (s : KFifoCache)
  : option KFifoCache :=
  s1 ← (if decide (to_size_t (capacity_ s) ≤ Z.of_nat (size (nodeMap_ s)))
        then evictOldest s else Some s);
  let '(newNode, s2) := make_shared key value s1 in
  s3 ← enqueueNode newNode s2;
  Some (with_nodeMap (<[key := newNode]> (nodeMap_ s3)) s3).

(** ** The public member functions *)

Definition put (key : Key) (value : Value) (s : KFifoCache) : option KFifoCache :=
  if decide (capacity_ s ≤ 0) then Some s
  else match nodeMap_ s !! key with
       | Some node => updateExistingNode node value s
       | None => addNewNode key value s
       end.

(** [bool get(Key key, Value& value)]: the result, the caller's [value]
    after the call, and the object after the call. *)
Definition get (key : Key) (value : Value) (s : KFifoCache)
  : option (bool * Value * KFifoCache) :=
  match nodeMap_ s !! key with
  | Some node => n ← cells_ s !! node; Some (true, value_ n, s)
  | None => Some (false, value, s)
  end.

(** [Value get(Key key)]. *)
Definition get_value (key : Key) (s : KFifoCache) : option (Value * KFifoCache) :=
  '(_, value, s') ← get key value_init s;
  Some (value, s').

Definition remove (key : Key) (s : KFifoCache) : option KFifoCache :=
  match nodeMap_ s !! key with
  | Some node =>
      s1 ← removeNode node s;
      Some (release node (with_nodeMap (delete key (nodeMap_ s1)) s1))
  | None => Some s
  end.

(** ** Observations *)

(** The nodes met when following [next_] from [p] up to the tail
    sentinel. *)
Fixpoint walk (fuel : nat) (σ : gmap NodePtr FifoNode) (tl : NodePtr)
    (p : option NodePtr) : list NodePtr :=
  match fuel with
  | O => []
  | S fuel' =>
      match p with
      | None => []
      | Some q =>
          if decide (q = tl) then []
          else match σ !! q with
               | None => []
               | Some n => q :: walk fuel' σ tl (next_ n)
               end
      end
  end.

(** The nodes linked between the two sentinels, oldest first. *)
Definition queue_nodes (s : KFifoCache) : list NodePtr :=
  walk (size (cells_ s)) (cells_ s) (dummyTail_ s)
       (cells_ s !! dummyHead_ s ≫= next_).

Definition entry_at (σ : gmap NodePtr FifoNode) (p : NodePtr) : option (Key * Value) :=
  (λ n, (key_ n, value_ n)) <$> σ !! p.

Definition entry_of (s : KFifoCache) (p : NodePtr) : option (Key * Value) :=
  entry_at (cells_ s) p.

(** The queue as a list of entries, oldest first. *)
Definition queue (s : KFifoCache) : list (Key * Value) :=
  omap (entry_of s) (queue_nodes s).

(** The number of entries, [nodeMap_.size()]. *)
Definition entry_count (s : KFifoCache) : nat := size (nodeMap_ s).

(** Whether [key] is in the index. *)
Definition contains (key : Key) (s : KFifoCache) : bool :=
  bool_decide (is_Some (nodeMap_ s !! key)).

(** ** Runs of operations *)

Inductive Op :=
| OpPut (key : Key) (value : Value)
| OpGet (key : Key) (value : Value)
| OpGetValue (key : Key)
| OpRemove (key : Key).

Definition step (o : Op) (s : KFifoCache) : option KFifoCache :=
  match o with
  | OpPut k v => put k v s
  | OpGet k v => snd <$> get k v s
  | OpGetValue k => snd <$> get_value k s
  | OpRemove k => remove k s
  end.

Fixpoint run (ops : list Op) (s : KFifoCache) : option KFifoCache :=
  match ops with
  | [] => Some s
  | o :: ops' => s' ← step o s; run ops' s'
  end.

(** Insert the entries of [kvs] one after the other. *)
Definition put_all (kvs : list (Key * Value)) (s : KFifoCache) : option KFifoCache :=
  run (map (λ kv, OpPut kv.1 kv.2) kvs) s.

(** ** The shape of a well-formed object *)

(** [linked σ prev c]: the nodes of [c] are alive and doubly linked in this
    order; the first one has [prev] behind it and the last one nothing
    after it. *)
Fixpoint linked (σ : gmap NodePtr FifoNode) (prev : option NodePtr)
    (c : list NodePtr) : Prop :=
  match c with
  | [] => True
  | p :: c' =>
      ∃ n, σ !! p = Some n ∧ prev_ n = prev ∧ next_ n = head c'
           ∧ linked σ (Some p) c'
  end.

(** The chain of all nodes of an object whose queue holds the nodes [l]. *)
Definition chain (s : KFifoCache) (l : list NodePtr) : list NodePtr :=
  dummyHead_ s :: l ++ [dummyTail_ s].

Record cache_inv (s : KFifoCache) (l : list NodePtr) : Prop := {
  inv_nodup : NoDup (chain s l);
  inv_linked : linked (cells_ s) None (chain s l);
  inv_dom : dom (cells_ s) = list_to_set (chain s l);
  inv_brk : ∀ p, is_Some (cells_ s !! p) → (p < brk_ s)%positive;
  inv_index : ∀ k p,
    nodeMap_ s !! k = Some p ↔ p ∈ l ∧ key_ <$> cells_ s !! p = Some k;
  inv_size : size (nodeMap_ s) = length l;
  inv_bound : Z.of_nat (length l) ≤ Z.max 0 (capacity_ s);
  inv_cap : in_int (capacity_ s)
}.

(** [abs s q]: the object is well formed and its queue holds the entries
    [q], oldest first. *)
Definition abs (s : KFifoCache) (q : list (Key * Value)) : Prop :=
  ∃ l, cache_inv s l ∧ Forall2 (λ p kv, entry_of s p = Some kv) l q.

(** ** The queue as a plain list *)

Definition aupdate (k : Key) (v : Value) (q : list (Key * Value))
  : list (Key * Value) :=
  (λ kv, if decide (kv.1 = k) then (k, v) else kv) <$> q.

Definition aremove (k : Key) (q : list (Key * Value)) : list (Key * Value) :=
  filter (λ kv, kv.1 ≠ k) q.

Definition aput (C : Z) (k : Key) (v : Value) (q : list (Key * Value))
  : list (Key * Value) :=
  if decide (C ≤ 0) then q
  else if decide (k ∈ q.*1) then aupdate k v q
  else (if decide (C ≤ Z.of_nat (length q)) then tail q else q) ++ [(k, v)].

(** Runs of operations on the list view. *)
Definition astep (C : Z) (o : Op) (q : list (Key * Value)) : list (Key * Value) :=
  match o with
  | OpPut k v => aput C k v q
  | OpGet _ _ | OpGetValue _ => q
  | OpRemove k => aremove k q
  end.

Definition arun (C : Z) (ops : list Op) (q : list (Key * Value))
  : list (Key * Value) :=
  foldl (λ q o, astep C o q) q ops.

(** The index and the queue hold the same nodes under the same keys. *)
Definition index_agrees (s : KFifoCache) : Prop :=
  ∀ k p, nodeMap_ s !! k = Some p
         ↔ p ∈ queue_nodes s ∧ key_ <$> cells_ s !! p = Some k.

End Fifo.

(** ** Double-precision arithmetic of the sharded constructor *)

(** Binary64 values, on the Standard Library's specification of IEEE 754
    arithmetic ([prec = 53], [emax = 1024], rounding to nearest even). *)
Definition double_of_Z (z : Z) : spec_float := binary_normalize 53 1024 z 0 false.

Definition double_div (x y : spec_float) : spec_float := SFdiv 53 1024 x y.

(** [std::ceil]: the least integral value not below [x], which is again a
    binary64 value. *)
Definition double_ceil (x : spec_float) : spec_float :=
  match x with
  | S754_finite s m e =>
      if decide (0 ≤ e) then x
      else
        let n := if s then Z.neg m else Z.pos m in
        binary_normalize 53 1024 (- ((- n) `div` 2 ^ (- e))) 0 s
  | _ => x
  end.

(** Conversion of a [double] to [size_t]: the value truncated toward zero;
    undefined when that is not a [size_t] value. *)
Definition size_t_of_double (x : spec_float) : option Z :=
  match x with
  | S754_zero _ => Some 0
  | S754_finite s m e =>
      let a := if decide (0 ≤ e) then Z.pos m * 2 ^ e else Z.pos m `div` 2 ^ (- e) in
      let t := if s then - a else a in
      if decide (0 ≤ t < size_t_modulus) then Some t else None
  | _ => None
  end.

(** Conversion of an integer value to [unsigned int]. *)
Definition to_unsigned (z : Z) : Z := z mod 2 ^ 32.

(** Where the remainder [r] of a division by [my] lies against one half. *)
Definition loc_ok (l : location) (r my : Z) : Prop :=
  match l with
  | loc_Exact => r = 0
  | loc_Inexact Lt => 0 < r ∧ 2 * r < my
  | loc_Inexact Eq => 2 * r = my
  | loc_Inexact Gt => my < 2 * r
  end.

(** The last step of rounding: renormalise a rounded mantissa. *)
Definition finish (s : bool) (m e : Z) : spec_float :=
  let '(mrs, e') := shr_fexp 53 1024 m e loc_Exact in
  match shr_m mrs with
  | 0 => S754_zero s
  | Z.pos m' => if e' <=? 1024 - 53 then S754_finite s m' e' else S754_infinity s
  | Z.neg _ => S754_nan
  end.

Section Sharded.
Context {Key Value : Type} {Key_eq : EqDecision Key} {Key_countable : Countable Key}.
Context {Key_init : ValueInit Key} {Value_init : ValueInit Value}.
(** [std::hash<Key>]. *)
Context (hashFunc : Key → Z).

(** The sharded cache; [hash_capacity_] is its member [capacity_]. *)
Record KHashFifoCache := mkKHashFifoCache {
  hash_capacity_ : Z;
  sliceNum_ : Z;
  fifoSliceCaches_ : list (@KFifoCache Key Value _ _)
}.

(** [KHashFifoCache(size_t capacity, int sliceNum)];
    [hardware_concurrency] is what [std::thread::hardware_concurrency()]
    returns on the host, an [unsigned int]. *)
Definition KHashFifoCache_new (capacity sliceNum hardware_concurrency : Z)
  : option KHashFifoCache :=
  let n := to_int (if decide (0 < sliceNum) then to_unsigned sliceNum
                   else hardware_concurrency) in
  sliceSize ← size_t_of_double
                (double_ceil (double_div (double_of_Z capacity) (double_of_Z n)));
  Some (mkKHashFifoCache capacity n
          (replicate (Z.to_nat n) (KFifoCache_new (to_int sliceSize)))).

(** [Hash]: the hash of the key as a [size_t]. *)
Definition Hash (key : Key) : Z := to_size_t (hashFunc key).

(** [Hash(key) % sliceNum_], computed in [size_t]; undefined for a zero
    divisor. *)
Definition sliceIndex (key : Key) (c : KHashFifoCache) : option nat :=
  let n := to_size_t (sliceNum_ c) in
  if decide (n = 0) then None else Some (Z.to_nat (Hash key `mod` n)).

Definition with_slice (i : nat) (shard : KFifoCache) (c : KHashFifoCache)
  : KHashFifoCache :=
  mkKHashFifoCache (hash_capacity_ c) (sliceNum_ c)
    (<[i := shard]> (fifoSliceCaches_ c)).

(** [KHashFifoCache::put]. *)
Definition hash_put (key : Key) (value : Value) (c : KHashFifoCache)
  : option KHashFifoCache :=
  i ← sliceIndex key c;
  shard ← fifoSliceCaches_ c !! i;
  shard' ← put key value shard;
  Some (with_slice i shard' c).

(** [KHashFifoCache::get(Key, Value&)]. *)
Definition hash_get (key : Key) (value : Value) (c : KHashFifoCache)
  : option (bool * Value * KHashFifoCache) :=
  i ← sliceIndex key c;
  shard ← fifoSliceCaches_ c !! i;
  '(found, value', shard') ← get key value shard;
  Some (found, value', with_slice i shard' c).

(** [KHashFifoCache::get(Key)]. *)
Definition hash_get_value (key : Key) (c : KHashFifoCache)
  : option (Value * KHashFifoCache) :=
  '(_, value, c') ← hash_get key value_init c;
  Some (value, c').

Inductive HashOp :=
| HashPut (key : Key) (value : Value)
| HashGet (key : Key) (value : Value)
| HashGetValue (key : Key).

Definition hash_step (o : HashOp) (c : KHashFifoCache) : option KHashFifoCache :=
  match o with
  | HashPut k v => hash_put k v c
  | HashGet k v => snd <$> hash_get k v c
  | HashGetValue k => snd <$> hash_get_value k c
  end.

Fixpoint hash_run (ops : list HashOp) (c : KHashFifoCache) : option KHashFifoCache :=
  match ops with
  | [] => Some c
  | o :: ops' => c' ← hash_step o c; hash_run ops' c'
  end.

End Sharded.

(** ** More observations *)

Section FifoMore.
Context {Key Value : Type} {Key_eq : EqDecision Key} {Key_countable : Countable Key}.

(** The nodes met when following [prev_.lock()] from [p] back to the head
    sentinel. *)
Fixpoint walk_back (fuel : nat) (σ : gmap NodePtr (@FifoNode Key Value))
    (hd : NodePtr) (p : option NodePtr) : list NodePtr :=
  match fuel with
  | O => []
  | S fuel' =>
      match lock σ p with
      | None => []
      | Some q =>
          if decide (q = hd) then []
          else match σ !! q with
               | None => []
               | Some n => q :: walk_back fuel' σ hd (prev_ n)
               end
      end
  end.

(** The nodes linked between the two sentinels, newest first, read off the
    back links. *)
Definition queue_nodes_back (s : @KFifoCache Key Value _ _) : list NodePtr :=
  walk_back (size (cells_ s)) (cells_ s) (dummyHead_ s)
            (cells_ s !! dummyTail_ s ≫= prev_).

(** The members an operation leaves alone. *)
Definition same_frame (s s' : @KFifoCache Key Value _ _) : Prop :=
  dummyHead_ s' = dummyHead_ s ∧ dummyTail_ s' = dummyTail_ s
  ∧ capacity_ s' = capacity_ s.

(** The keys a run puts. *)
Definition put_keys (ops : list (@Op Key Value)) : list Key :=
  omap (λ o, match o with OpPut k _ => Some k | _ => None end) ops.

End FifoMore.

(** ** More on the sharded cache *)

Section ShardedMore.
Context {Key Value : Type} {Key_eq : EqDecision Key} {Key_countable : Countable Key}.
Context (hashFunc : Key → Z).

(** The entries of all shards together. *)
Definition hash_entry_count (c : @KHashFifoCache Key Value _ _) : nat :=
  sum_list (entry_count <$> fifoSliceCaches_ c).

(** Shard [i] of [n] is well formed, has capacity [cap] and holds only keys
    that hash to it. *)
Definition shard_wf (n cap : Z) (i : nat) (sh : @KFifoCache Key Value _ _) : Prop :=
  ∃ q, abs sh q ∧ capacity_ sh = cap
       ∧ ∀ k, k ∈ q.*1 → Z.to_nat (Hash hashFunc k `mod` n) = i.

Definition hash_wf (cap : Z) (c : @KHashFifoCache Key Value _ _) : Prop :=
  0 < sliceNum_ c ≤ INT_MAX
  ∧ length (fifoSliceCaches_ c) = Z.to_nat (sliceNum_ c)
  ∧ ∀ i sh, fifoSliceCaches_ c !! i = Some sh → shard_wf (sliceNum_ c) cap i sh.

End ShardedMore.

(** ** Concrete runs: [KFifoCache<nat, Z>] and [KHashFifoCache<nat, Z>] *)

Module Examples.

Definition cache : Type := @KFifoCache nat Z _ _.
Definition op : Type := @Op nat Z.

(** The state a run from construction ends in. *)
Definition after (C : Z) (ops : list op) : cache :=
  default (KFifoCache_new C) (run ops (KFifoCache_new C)).

(** Capacity 2, holding keys 1 and 2. *)
Definition fill2 : list op := [OpPut 1%nat 10; OpPut 2%nat 20].
Definition full2 : cache := after 2 fill2.

Definition sharded : Type := @KHashFifoCache nat Z _ _.
Definition hash_nat (k : nat) : Z := Z.of_nat k.

(** Total capacity 10 over 3 shards. *)
Definition sharded_10_3 : sharded :=
  default (mkKHashFifoCache 0 0 []) (KHashFifoCache_new 10 3 8).

(** Three pairs with distinct keys. *)
Definition three_pairs : list (nat * Z) := [(1%nat, 10); (2%nat, 20); (3%nat, 30)].

(** A run of the sharded cache, and where it ends. *)
Definition hash_ops : list (@HashOp nat Z) :=
  [HashPut 4%nat 40; HashPut 7%nat 70; HashGet 5%nat 0; HashPut 3%nat 30].
Definition sharded_after : sharded :=
  default sharded_10_3 (hash_run hash_nat hash_ops sharded_10_3).

(** Total capacity 0 over 3 shards. *)
Definition sharded_0_3 : sharded :=
  default (mkKHashFifoCache 0 0 []) (KHashFifoCache_new 0 3 8).

(** Five keys that all hash to shard 1 of 3. *)
Definition colliding : list (nat * Z) :=
  [(1%nat, 10); (4%nat, 40); (7%nat, 70); (10%nat, 100); (13%nat, 130)].

End Examples.

(** * Properties of the single cache *)

Section FifoFacts.
Context {Key Value : Type} {Key_eq : EqDecision Key} {Key_countable : Countable Key}.
Context {Key_init : ValueInit Key} {Value_init : ValueInit Value}.

#[local] Set Warnings "-clear-no-such-hyp".

Local Abbreviation FifoNode := (@FifoNode Key Value) (only parsing).
Local Abbreviation KFifoCache := (@KFifoCache Key Value Key_eq Key_countable)
  (only parsing).
Local Abbreviation Op := (@Op Key Value) (only parsing).
Local Abbreviation KFifoCache_new :=
  (@KFifoCache_new Key Value Key_eq Key_countable Key_init Value_init)
  (only parsing).

Implicit Types (s : KFifoCache) (σ : gmap NodePtr FifoNode).
Implicit Types (k : Key) (v : Value) (ops : list Op) (o : Op).

(** ** Lemmas on linked chains *)

Lemma head_app_cons (c : list NodePtr) a x y :
  head (c ++ a :: x) = head (c ++ a :: y).
Proof. by destruct c. Qed.

Lemma linked_insert_notin σ prev c p n :
  p ∉ c → linked σ prev c → linked (<[p := n]> σ) prev c.
Proof.
  revert prev. induction c as [|a c IH]; intros prev Hp; [done|].
  intros (m & Hm & Hprev & Hnext & Hl). simpl.
  exists m. rewrite lookup_insert_ne; [|set_solver].
  split_and!; [done..|]. apply IH; [set_solver|done].
Qed.

Lemma linked_delete_notin σ prev c p :
  p ∉ c → linked σ prev c → linked (delete p σ) prev c.
Proof.
  revert prev. induction c as [|a c IH]; intros prev Hp; [done|].
  intros (m & Hm & Hprev & Hnext & Hl). simpl.
  exists m. rewrite lookup_delete_ne; [|set_solver].
  split_and!; [done..|]. apply IH; [set_solver|done].
Qed.

Lemma linked_alive σ prev c p :
  linked σ prev c → p ∈ c → is_Some (σ !! p).
Proof.
  revert prev. induction c as [|a c IH]; intros prev; [set_solver|].
  intros (m & Hm & _ & _ & Hl) [->|Hin]%elem_of_cons; [by eexists|eauto].
Qed.

(** The [next_] of a chain node stays inside the chain. *)
Lemma linked_next_in σ prev c p n r :
  linked σ prev c → NoDup c → p ∈ c → σ !! p = Some n →
  next_ n = Some r → r ∈ c.
Proof.
  revert prev. induction c as [|a c IH]; intros prev; [set_solver|].
  intros (m & Hm & _ & Hnext & Hl) Hnd [->|Hin]%elem_of_cons Hp Hr.
  - rewrite Hm in Hp. injection Hp as <-. rewrite Hnext in Hr.
    destruct c as [|b c]; [done|]. injection Hr as <-.
    apply elem_of_cons; right. apply elem_of_cons; by left.
  - apply list.NoDup_cons in Hnd as [_ Hnd]. apply elem_of_cons. right. eauto.
Qed.

(** The last two nodes of a chain. *)
Lemma linked_last σ prev c a t :
  linked σ prev (c ++ [a; t]) →
  ∃ an tn, σ !! a = Some an ∧ σ !! t = Some tn ∧ next_ an = Some t
           ∧ prev_ tn = Some a ∧ next_ tn = None.
Proof.
  revert prev. induction c as [|b c IH]; intros prev.
  - intros (an & Ha & _ & Hn & tn & Ht & Hp & Hnt & _). by exists an, tn.
  - intros (_ & _ & _ & _ & Hl). eauto.
Qed.

(** Linking a new node in front of the last node of a chain. *)
Lemma linked_enqueue σ prev c a t node an tn k v :
  linked σ prev (c ++ [a; t]) → NoDup (c ++ [a; t]) → node ∉ c ++ [a; t] →
  σ !! a = Some an → σ !! t = Some tn →
  linked (<[t := set_prev (Some node) tn]>
            (<[a := set_next (Some node) an]>
               (<[node := mkFifoNode k v (Some a) (Some t)]> σ)))
         prev (c ++ [a; node; t]).
Proof.
  revert prev. induction c as [|b c IH]; intros prev Hl Hnd Hnode Ha Ht.
  - destruct Hl as (an' & Ha' & Hp & Hn & tn' & Ht' & Hpt & Hnt & _).
    simpl in *. rewrite Ha in Ha'. rewrite Ht in Ht'.
    injection Ha' as <-. injection Ht' as <-.
    apply list.NoDup_cons in Hnd as [Hat _].
    assert (a ≠ t) by set_solver. assert (node ≠ a) by set_solver.
    assert (node ≠ t) by set_solver.
    exists (set_next (Some node) an). simplify_map_eq. split_and!; [done..|].
    eexists. split; [done|]. split_and!; [done..|].
    exists (set_prev (Some node) tn). by simplify_map_eq.
  - destruct Hl as (bn & Hb & Hp & Hn & Hl). simpl in *.
    apply list.NoDup_cons in Hnd as [Hb' Hnd].
    exists bn. rewrite !lookup_insert_ne by set_solver.
    split_and!; [done..| |].
    + rewrite Hn. apply head_app_cons.
    + apply IH; [done..|set_solver|done|done].
Qed.

(** Taking a node out of the middle of a chain. *)
Lemma linked_unlink σ prev c1 a p b c2 an bn :
  linked σ prev (c1 ++ a :: p :: b :: c2) → NoDup (c1 ++ a :: p :: b :: c2) →
  σ !! a = Some an → σ !! b = Some bn →
  linked (delete p (<[b := set_prev (Some a) bn]>
                      (<[a := set_next (Some b) an]> σ)))
         prev (c1 ++ a :: b :: c2).
Proof.
  revert prev. induction c1 as [|x c1 IH]; intros prev Hl Hnd Ha Hb.
  - destruct Hl as (an' & Ha' & Hp & Hn & pn & Hpn & _ & _ & bn' & Hb' & _ & Hnb & Hl).
    simpl in *. rewrite Ha in Ha'. rewrite Hb in Hb'.
    injection Ha' as <-. injection Hb' as <-.
    apply list.NoDup_cons in Hnd as [Ha1 Hnd]. apply list.NoDup_cons in Hnd as [Hp1 Hnd].
    apply list.NoDup_cons in Hnd as [Hb1 Hnd].
    assert (a ≠ p ∧ a ≠ b ∧ p ≠ b) as (?&?&?) by set_solver.
    exists (set_next (Some b) an). simplify_map_eq. split_and!; [done..|].
    exists (set_prev (Some a) bn). simplify_map_eq. split_and!; [done..|].
    apply linked_delete_notin; [set_solver|].
    apply linked_insert_notin; [done|].
    apply linked_insert_notin; [set_solver|done].
  - destruct Hl as (xn & Hx & Hp & Hn & Hl). simpl in *.
    apply list.NoDup_cons in Hnd as [Hx' Hnd].
    exists xn. rewrite lookup_delete_ne, !lookup_insert_ne by set_solver.
    split_and!; [done..| |].
    + rewrite Hn. apply head_app_cons.
    + by apply IH.
Qed.

(** What a chain says about a node in its middle. *)
Lemma linked_middle σ prev c1 a p b c2 :
  linked σ prev (c1 ++ a :: p :: b :: c2) →
  ∃ an pn bn, σ !! a = Some an ∧ σ !! p = Some pn ∧ σ !! b = Some bn
              ∧ prev_ pn = Some a ∧ next_ pn = Some b.
Proof.
  revert prev. induction c1 as [|x c1 IH]; intros prev.
  - intros (an & Ha & _ & _ & pn & Hp & Hpp & Hpn & bn & Hb & _).
    by exists an, pn, bn.
  - intros (_ & _ & _ & _ & Hl). eauto.
Qed.

(** ** Walking a chain *)

Lemma walk_linked fuel σ prev c tl :
  linked σ prev (c ++ [tl]) → NoDup (c ++ [tl]) → (length c < fuel)%nat →
  walk fuel σ tl (head (c ++ [tl])) = c.
Proof.
  revert fuel prev. induction c as [|a c IH]; intros fuel prev Hl Hnd Hf.
  - destruct fuel; [simpl in Hf; lia|]. simpl. by rewrite decide_True.
  - destruct fuel; [simpl in Hf; lia|].
    destruct Hl as (n & Hn & _ & Hnext & Hl). simpl in *.
    apply list.NoDup_cons in Hnd as [Ha Hnd].
    rewrite decide_False by set_solver. rewrite Hn, Hnext.
    f_equal. apply (IH _ (Some a)); [done..|lia].
Qed.

Lemma inv_size_cells s l : cache_inv s l → size (cells_ s) = S (S (length l)).
Proof.
  intros Hinv. rewrite <-size_dom, (inv_dom _ _ Hinv).
  rewrite size_list_to_set by apply (inv_nodup _ _ Hinv).
  unfold chain. simpl. rewrite length_app. simpl. lia.
Qed.

Lemma inv_queue_nodes s l : cache_inv s l → queue_nodes s = l.
Proof.
  intros Hinv. unfold queue_nodes. rewrite (inv_size_cells _ _ Hinv).
  destruct (inv_linked _ _ Hinv) as (hn & Hh & _ & Hnext & Hl).
  rewrite Hh. cbn [mbind option_bind]. rewrite Hnext.
  pose proof (inv_nodup _ _ Hinv) as Hnd. unfold chain in Hnd.
  apply list.NoDup_cons in Hnd as [_ Hnd].
  apply (walk_linked _ _ (Some (dummyHead_ s))); [done..|lia].
Qed.

Lemma abs_queue s q : abs s q → queue s = q.
Proof.
  intros (l & Hinv & Hq). unfold queue. rewrite (inv_queue_nodes _ _ Hinv).
  clear Hinv. induction Hq as [|p kv l q Hp _ IH]; [done|].
  cbn [omap list_omap]. by rewrite Hp, IH.
Qed.

(** ** What the index knows *)

Lemma entry_at_key σ p kv : entry_at σ p = Some kv → key_ <$> σ !! p = Some kv.1.
Proof. unfold entry_at. destruct (σ !! p); intros; by simplify_eq/=. Qed.

Lemma Forall2_entry_lookup (σ : gmap NodePtr FifoNode) l (q : list (Key * Value)) p k :
  Forall2 (λ p kv, entry_at σ p = Some kv) l q →
  p ∈ l → key_ <$> σ !! p = Some k → k ∈ q.*1.
Proof.
  induction 1 as [|p' kv l q Hp _ IH]; [set_solver|].
  intros [->|Hin]%elem_of_cons Hk; simpl.
  - apply entry_at_key in Hp. rewrite Hp in Hk. injection Hk as <-.
    apply elem_of_cons; by left.
  - apply elem_of_cons; right. by apply IH.
Qed.

Lemma Forall2_entry_key (σ : gmap NodePtr FifoNode) l (q : list (Key * Value)) k :
  Forall2 (λ p kv, entry_at σ p = Some kv) l q →
  k ∈ q.*1 → ∃ p, p ∈ l ∧ key_ <$> σ !! p = Some k.
Proof.
  induction 1 as [|p' kv l q Hp _ IH]; [set_solver|]. simpl.
  intros [->|Hin]%elem_of_cons.
  - exists p'. split; [apply elem_of_cons; by left|by apply entry_at_key].
  - destruct (IH Hin) as (p & ? & ?). exists p.
    split; [apply elem_of_cons; by right|done].
Qed.

(** The index holds exactly the keys of the queue. *)
Lemma abs_contains s q k : abs s q → is_Some (nodeMap_ s !! k) ↔ k ∈ q.*1.
Proof.
  intros (l & Hinv & Hq). split.
  - intros [p Hp]. apply (inv_index _ _ Hinv) in Hp as [Hin Hk].
    by eapply Forall2_entry_lookup.
  - intros Hk. destruct (Forall2_entry_key _ _ _ _ Hq Hk) as (p & Hin & Hp).
    exists p. by apply (inv_index _ _ Hinv).
Qed.

Lemma abs_length s q : abs s q → size (nodeMap_ s) = length q.
Proof.
  intros (l & Hinv & Hq). rewrite (inv_size _ _ Hinv). by eapply Forall2_length.
Qed.

Lemma abs_bound s q : abs s q → Z.of_nat (length q) ≤ Z.max 0 (capacity_ s).
Proof.
  intros (l & Hinv & Hq). apply Forall2_length in Hq. rewrite <-Hq.
  apply (inv_bound _ _ Hinv).
Qed.

(** The keys of the queue are pairwise distinct. *)
Lemma abs_NoDup s q : abs s q → NoDup q.*1.
Proof.
  intros (l & Hinv & Hq).
  pose proof (inv_nodup _ _ Hinv) as Hnd. unfold chain in Hnd.
  apply list.NoDup_cons in Hnd as [_ Hnd]. apply NoDup_app in Hnd as [Hnd _].
  pose proof (inv_index _ _ Hinv) as Hidx.
  assert (∀ p k, p ∈ l → key_ <$> cells_ s !! p = Some k →
                 nodeMap_ s !! k = Some p) as Hidx'
    by (intros; by apply Hidx).
  clear Hinv Hidx. unfold entry_of in Hq.
  induction Hq as [|p kv l q Hp Hq IH]; [constructor|]. simpl.
  apply list.NoDup_cons in Hnd as [Hpl Hnd]. apply NoDup_cons_2.
  - intros Hin. destruct (Forall2_entry_key _ _ _ _ Hq Hin) as (p' & Hp' & Hk).
    apply entry_at_key in Hp.
    assert (nodeMap_ s !! kv.1 = Some p) as E1
      by (apply Hidx'; [apply elem_of_cons; by left|done]).
    assert (nodeMap_ s !! kv.1 = Some p') as E2
      by (apply Hidx'; [apply elem_of_cons; by right|done]).
    rewrite E1 in E2. injection E2 as ->. done.
  - apply IH; [done|]. intros p' k Hin. apply Hidx'. apply elem_of_cons; by right.
Qed.

(** ** Splitting chains *)

Lemma cons_as_snoc {A} (x : A) l : ∃ c a, x :: l = c ++ [a].
Proof.
  destruct l as [|y l _] using rev_ind.
  - by exists [], x.
  - by exists (x :: l), y.
Qed.

Lemma snoc_as_cons {A} (l : list A) x : ∃ b c, l ++ [x] = b :: c.
Proof. destruct l as [|y l]; simpl; eauto. Qed.

Lemma chain_eq s' s l :
  dummyHead_ s' = dummyHead_ s → dummyTail_ s' = dummyTail_ s →
  chain s' l = chain s l.
Proof. unfold chain. by intros -> ->. Qed.

(** The chain around a node of the queue. *)
Lemma chain_split s l1 p l2 :
  ∃ c1 a b c2,
    chain s (l1 ++ p :: l2) = c1 ++ a :: p :: b :: c2
    ∧ chain s (l1 ++ l2) = c1 ++ a :: b :: c2.
Proof.
  destruct (cons_as_snoc (dummyHead_ s) l1) as (c1 & a & E1).
  destruct (snoc_as_cons l2 (dummyTail_ s)) as (b & c2 & E2).
  exists c1, a, b, c2. unfold chain.
  rewrite <-!app_assoc, <-!app_comm_cons, E2, !app_comm_cons, E1.
  by rewrite <-!app_assoc.
Qed.

(** The chain in front of the tail sentinel. *)
Lemma chain_snoc s l node :
  ∃ c a,
    chain s l = c ++ [a; dummyTail_ s]
    ∧ chain s (l ++ [node]) = c ++ [a; node; dummyTail_ s].
Proof.
  destruct (cons_as_snoc (dummyHead_ s) l) as (c & a & E1).
  exists c, a. unfold chain.
  rewrite <-!app_assoc, !app_comm_cons, E1. by rewrite <-!app_assoc.
Qed.

(** ** The private member functions on a well-formed object *)

Lemma lock_alive (σ : gmap NodePtr FifoNode) p n :
  σ !! p = Some n → lock σ (Some p) = Some p.
Proof. intros Hp. unfold lock. rewrite decide_True; [done|by eexists]. Qed.

Lemma removeNode_linked s c1 a p b c2 an pn bn :
  linked (cells_ s) None (c1 ++ a :: p :: b :: c2) →
  NoDup (c1 ++ a :: p :: b :: c2) →
  cells_ s !! a = Some an → cells_ s !! p = Some pn → cells_ s !! b = Some bn →
  removeNode p s =
    Some (with_cells (<[p := set_next None pn]>
                        (<[b := set_prev (Some a) bn]>
                           (<[a := set_next (Some b) an]> (cells_ s)))) s).
Proof.
  intros Hl Hnd Ha Hp Hb.
  destruct (linked_middle _ _ _ _ _ _ _ Hl)
    as (an' & pn' & bn' & Ha' & Hp' & Hb' & Hprev & Hnext).
  rewrite Ha in Ha'. rewrite Hp in Hp'. rewrite Hb in Hb'.
  injection Ha' as <-. injection Hp' as <-. injection Hb' as <-.
  apply NoDup_app in Hnd as (_ & _ & Hnd).
  apply list.NoDup_cons in Hnd as [Ha1 Hnd]. apply list.NoDup_cons in Hnd as [Hp1 _].
  assert (a ≠ p ∧ a ≠ b ∧ p ≠ b) as (?&?&?) by set_solver.
  unfold removeNode. rewrite Hp. cbn [mbind option_bind].
  unfold expired. rewrite Hprev, (lock_alive _ _ _ Ha), Hnext.
  rewrite bool_decide_true by (by eexists). cbn [negb andb mbind option_bind].
  rewrite Ha. cbn [mbind option_bind].
  rewrite lookup_insert_ne, Hp by done. cbn [mbind option_bind].
  rewrite Hnext. cbn [mbind option_bind].
  rewrite lookup_insert_ne, Hb by done. cbn [mbind option_bind].
  rewrite !lookup_insert_ne, Hp by done. done.
Qed.

Lemma enqueueNode_linked s c a node an tn nn :
  linked (cells_ s) None (c ++ [a; dummyTail_ s]) →
  NoDup (c ++ [a; dummyTail_ s]) → node ∉ c ++ [a; dummyTail_ s] →
  cells_ s !! a = Some an → cells_ s !! dummyTail_ s = Some tn →
  cells_ s !! node = Some nn →
  enqueueNode node s =
    Some (with_cells
            (<[dummyTail_ s := set_prev (Some node) tn]>
               (<[a := set_next (Some node) an]>
                  (<[node := mkFifoNode (key_ nn) (value_ nn) (Some a)
                                        (Some (dummyTail_ s))]> (cells_ s)))) s).
Proof.
  intros Hl Hnd Hnode Ha Ht Hn.
  destruct (linked_last _ _ _ _ _ Hl) as (an' & tn' & Ha' & Ht' & _ & Hprev & _).
  rewrite Ha in Ha'. rewrite Ht in Ht'. injection Ha' as <-. injection Ht' as <-.
  apply NoDup_app in Hnd as (_ & _ & Hnd).
  apply list.NoDup_cons in Hnd as [Ha1 _].
  assert (a ≠ dummyTail_ s ∧ node ≠ a ∧ node ≠ dummyTail_ s) as (?&?&?)
    by set_solver.
  unfold enqueueNode. cbv zeta. rewrite Ht. cbn [mbind option_bind].
  rewrite Hn. cbn [mbind option_bind].
  rewrite lookup_insert_eq. cbn [mbind option_bind].
  rewrite !lookup_insert_ne, Ht by done. cbn [mbind option_bind].
  rewrite Hprev. unfold lock. rewrite !lookup_insert_ne, Ha by done.
  rewrite decide_True by (by eexists). cbn [mbind option_bind].
  rewrite !lookup_insert_ne, Ha by done. cbn [mbind option_bind].
  rewrite !lookup_insert_ne, Ht by done. cbn [mbind option_bind].
  rewrite insert_insert_eq. done.
Qed.

Lemma NoDup_app_cons_inv {A} (x : list A) p y :
  NoDup (x ++ p :: y) → NoDup (x ++ y) ∧ p ∉ x ++ y.
Proof.
  rewrite !NoDup_app, list.NoDup_cons. intros (Hx & Hxy & Hp & Hy). split.
  - split_and!; [done| |done]. intros z Hz Hzy. apply (Hxy z Hz).
    apply elem_of_cons; by right.
  - intros [Hin|Hin]%elem_of_app; [|done].
    apply (Hxy p Hin). apply elem_of_cons; by left.
Qed.

Lemma key_entry_at (σ : gmap NodePtr FifoNode) p :
  key_ <$> σ !! p = fst <$> entry_at σ p.
Proof. unfold entry_at. by destruct (σ !! p). Qed.

Lemma Forall2_entry_ext (σ σ' : gmap NodePtr FifoNode) l (q : list (Key * Value)) :
  (∀ p, p ∈ l → entry_at σ' p = entry_at σ p) →
  Forall2 (λ p kv, entry_at σ p = Some kv) l q →
  Forall2 (λ p kv, entry_at σ' p = Some kv) l q.
Proof.
  intros Hext Hq. induction Hq as [|p kv l q Hp _ IH]; constructor.
  - rewrite Hext; [done|]. apply elem_of_cons; by left.
  - apply IH. intros p' Hin. apply Hext. apply elem_of_cons; by right.
Qed.

Lemma release_unowned p s n :
  cells_ s !! p = Some n → next_ n = None → has_owner p s = false →
  release p s = with_cells (delete p (cells_ s)) s.
Proof.
  intros Hp Hn Ho. unfold release.
  destruct (size (cells_ s)) eqn:Hsz.
  - apply map_size_empty_inv in Hsz. rewrite Hsz in Hp. done.
  - simpl. by rewrite Ho, Hp, Hn.
Qed.

(** Unlinking a node of the queue, erasing its key and letting go of the
    last pointer to it. *)
Lemma unlink_erase_inv s l1 p l2 k :
  cache_inv s (l1 ++ p :: l2) → key_ <$> cells_ s !! p = Some k →
  ∃ s1 σ',
    removeNode p s = Some s1
    ∧ key_ <$> cells_ s1 !! p = Some k
    ∧ nodeMap_ s1 = nodeMap_ s
    ∧ release p (with_nodeMap (delete k (nodeMap_ s)) s1)
      = mkKFifoCache (capacity_ s) (delete k (nodeMap_ s)) (dummyHead_ s)
                     (dummyTail_ s) σ' (brk_ s)
    ∧ cache_inv (mkKFifoCache (capacity_ s) (delete k (nodeMap_ s))
                   (dummyHead_ s) (dummyTail_ s) σ' (brk_ s)) (l1 ++ l2)
    ∧ ∀ q, q ≠ p → entry_at σ' q = entry_at (cells_ s) q.
Proof.
  intros Hinv Hk.
  destruct (chain_split s l1 p l2) as (c1 & a & b & c2 & E1 & E2).
  pose proof (inv_nodup _ _ Hinv) as Hnd.
  pose proof (inv_linked _ _ Hinv) as Hl.
  pose proof (inv_dom _ _ Hinv) as Hdom.
  pose proof (inv_index _ _ Hinv) as Hidx.
  assert (NoDup (chain s (l1 ++ l2)) ∧ p ∉ chain s (l1 ++ l2)) as [Hnd' Hp'].
  { assert (chain s (l1 ++ p :: l2)
            = (dummyHead_ s :: l1) ++ p :: (l2 ++ [dummyTail_ s])) as E
      by (unfold chain; by rewrite <-app_assoc).
    assert (chain s (l1 ++ l2)
            = (dummyHead_ s :: l1) ++ (l2 ++ [dummyTail_ s])) as E'
      by (unfold chain; by rewrite <-app_assoc).
    rewrite E in Hnd. rewrite E'. by apply NoDup_app_cons_inv. }
  rewrite E1 in Hnd, Hl, Hdom. rewrite E2 in Hnd', Hp'.
  destruct (linked_middle _ _ _ _ _ _ _ Hl)
    as (an & pn & bn & Ha & Hp & Hb & Hprev & Hnext).
  assert (a ≠ p ∧ b ≠ p) as [Hap Hbp] by set_solver.
  set (σ' := delete p (<[b := set_prev (Some a) bn]>
                         (<[a := set_next (Some b) an]> (cells_ s)))).
  assert (linked σ' None (c1 ++ a :: b :: c2)) as Hl'
    by (by eapply linked_unlink).
  assert (dom σ' = list_to_set (c1 ++ a :: b :: c2)) as Hdom'.
  { unfold σ'. rewrite dom_delete_L, !dom_insert_L, Hdom.
    rewrite !list_to_set_app_L, !list_to_set_cons.
    rewrite !list_to_set_app_L, !list_to_set_cons in Hdom.
    assert ((p ∉ (list_to_set c1 : gset NodePtr))
            ∧ (p ∉ (list_to_set c2 : gset NodePtr)))
      as [? ?] by set_solver.
    set_solver. }
  assert (∀ q, q ≠ p → entry_at σ' q = entry_at (cells_ s) q) as Hent.
  { intros q Hq. unfold entry_at, σ'. rewrite lookup_delete_ne by done.
    destruct (decide (q = b)) as [->|];
      [by rewrite lookup_insert_eq, Hb|rewrite lookup_insert_ne by done].
    destruct (decide (q = a)) as [->|];
      [by rewrite lookup_insert_eq, Ha|by rewrite lookup_insert_ne by done]. }
  eexists _, σ'. split; [by eapply removeNode_linked|].
  rewrite Hp in Hk. injection Hk as Hk.
  split; [simpl; by rewrite lookup_insert_eq; simpl; f_equal|].
  split; [done|].
  assert (p ∈ l1 ++ p :: l2) as Hpl
    by (apply elem_of_app; right; apply elem_of_cons; by left).
  assert (nodeMap_ s !! k = Some p) as Hmk
    by (apply Hidx; split; [done|by rewrite Hp; simpl; f_equal]).
  split.
  - erewrite release_unowned;
      [|simpl; apply lookup_insert_eq|done|].
    + unfold with_cells, with_nodeMap. simpl. f_equal.
      by rewrite delete_insert_eq.
    + unfold has_owner. simpl.
      pose proof (inv_nodup _ _ Hinv) as Hnd0. unfold chain in Hnd0.
      apply list.NoDup_cons in Hnd0 as [Hh Hnd0].
      apply NoDup_app in Hnd0 as (_ & Ht & _).
      rewrite !bool_decide_false; [done| | | |].
      * intros (q & n & Hq & Hn).
        destruct (decide (q = p)) as [->|Hqp].
        { rewrite lookup_insert_eq in Hq. injection Hq as <-. done. }
        assert (σ' !! q = Some n) as Hq'.
        { unfold σ'. rewrite lookup_delete_ne by done.
          by rewrite lookup_insert_ne in Hq by done. }
        apply Hp'. eapply (linked_next_in σ'); [done..| |done|done].
        apply (elem_of_list_to_set (C:=gset NodePtr)). rewrite <-Hdom'.
        apply elem_of_dom. by eexists.
      * intros (k' & q & Hk' & ->).
        apply lookup_delete_Some in Hk' as [Hne Hk'].
        apply Hidx in Hk' as [_ Hk']. rewrite Hp in Hk'. simpl in Hk'.
        congruence.
      * intros ->. apply (Ht _ Hpl). apply list_elem_of_singleton. done.
      * intros ->. apply Hh. apply elem_of_app. by left.
  - split; [|done]. split.
    + rewrite (chain_eq _ s) by done. by rewrite E2.
    + rewrite (chain_eq _ s) by done. by rewrite E2.
    + rewrite (chain_eq _ s) by done. by rewrite E2.
    + simpl. intros q [n Hq]. apply (inv_brk _ _ Hinv).
      unfold σ' in Hq. apply lookup_delete_Some in Hq as [Hne Hq].
      destruct (decide (b = q)) as [->|]; [by eexists|].
      rewrite lookup_insert_ne in Hq by done.
      destruct (decide (a = q)) as [->|]; [by eexists|].
      rewrite lookup_insert_ne in Hq by done. by eexists.
    + simpl. intros k' q. rewrite lookup_delete_Some, Hidx.
      assert (q ∈ l1 ++ l2 ↔ q ∈ l1 ++ p :: l2 ∧ q ≠ p) as ->.
      { rewrite !elem_of_app, elem_of_cons.
        assert (q = p → (q ∉ l1) ∧ (q ∉ l2)); [|naive_solver].
        intros ->. unfold chain in Hp'. rewrite <-E2 in Hp'.
        unfold chain in Hp'. set_solver. }
      split.
      * intros (Hne & Hin & Hq).
        assert (q ≠ p) by (intros ->; rewrite Hp in Hq; simpl in Hq; congruence).
        split; [done|]. by rewrite key_entry_at, Hent, <-key_entry_at.
      * intros ((Hin & Hqp) & Hq).
        rewrite key_entry_at, Hent, <-key_entry_at in Hq by done.
        split; [|done]. intros <-.
        assert (nodeMap_ s !! k = Some q) as E by (by apply Hidx).
        congruence.
    + simpl. rewrite map_size_delete_Some by (by eexists).
      rewrite (inv_size _ _ Hinv), !length_app. simpl. lia.
    + pose proof (inv_bound _ _ Hinv) as Hb'.
      rewrite !length_app in *. simpl in *. lia.
    + apply (inv_cap _ _ Hinv).
Qed.

(** Allocating a node, linking it in front of the tail sentinel and
    entering it in the index. *)
Lemma enqueue_insert_inv s l k v :
  cache_inv s l → nodeMap_ s !! k = None →
  Z.of_nat (length l) < capacity_ s →
  ∃ σ',
    enqueueNode (brk_ s) (make_shared k v s).2
      = Some (with_cells σ' (make_shared k v s).2)
    ∧ cache_inv (mkKFifoCache (capacity_ s) (<[k := brk_ s]> (nodeMap_ s))
                   (dummyHead_ s) (dummyTail_ s) σ' (Pos.succ (brk_ s)))
                (l ++ [brk_ s])
    ∧ entry_at σ' (brk_ s) = Some (k, v)
    ∧ ∀ q, q ≠ brk_ s → entry_at σ' q = entry_at (cells_ s) q.
Proof.
  intros Hinv Hk Hlen. set (node := brk_ s).
  destruct (chain_snoc s l node) as (c & a & E1 & E2).
  pose proof (inv_nodup _ _ Hinv) as Hnd.
  pose proof (inv_linked _ _ Hinv) as Hl.
  pose proof (inv_dom _ _ Hinv) as Hdom.
  pose proof (inv_index _ _ Hinv) as Hidx.
  assert (cells_ s !! node = None) as Hnone.
  { destruct (cells_ s !! node) eqn:E; [|done].
    exfalso. eapply Pos.lt_irrefl. apply (inv_brk _ _ Hinv). by eexists. }
  assert (node ∉ chain s l) as Hnode.
  { intros Hin. apply (elem_of_list_to_set (C:=gset NodePtr)) in Hin.
    rewrite <-Hdom in Hin. apply elem_of_dom in Hin as [? Hin]. congruence. }
  rewrite E1 in Hnd, Hl, Hdom, Hnode.
  destruct (linked_last _ _ _ _ _ Hl) as (an & tn & Ha & Ht & _ & _ & _).
  assert (node ≠ a ∧ node ≠ dummyTail_ s) as [Hna Hnt] by set_solver.
  set (σ' := <[dummyTail_ s := set_prev (Some node) tn]>
               (<[a := set_next (Some node) an]>
                  (<[node := mkFifoNode k v (Some a) (Some (dummyTail_ s))]>
                     (cells_ s)))).
  assert (linked σ' None (c ++ [a; node; dummyTail_ s])) as Hl'
    by (by apply linked_enqueue).
  assert (∀ q, q ≠ node → entry_at σ' q = entry_at (cells_ s) q) as Hent.
  { intros q Hq. unfold entry_at, σ'.
    destruct (decide (q = dummyTail_ s)) as [->|];
      [by rewrite lookup_insert_eq, Ht|rewrite lookup_insert_ne by done].
    destruct (decide (q = a)) as [->|];
      [by rewrite lookup_insert_eq, Ha|rewrite lookup_insert_ne by done].
    by rewrite lookup_insert_ne by done. }
  assert (entry_at σ' node = Some (k, v)) as Hnew.
  { unfold entry_at, σ'. rewrite !lookup_insert_ne by done.
    by rewrite lookup_insert_eq. }
  exists σ'. split.
  { erewrite (enqueueNode_linked _ c a node an tn (mkFifoNode k v None None));
      simpl; fold node.
    - unfold with_cells. simpl. by rewrite insert_insert_eq.
    - apply linked_insert_notin; done.
    - done.
    - done.
    - by rewrite lookup_insert_ne.
    - by rewrite lookup_insert_ne.
    - by rewrite lookup_insert_eq. }
  split; [|done]. split.
  - rewrite (chain_eq _ s) by done. rewrite E2.
    apply NoDup_app in Hnd as (Hc & Hca & Hat).
    apply list.NoDup_cons in Hat as [Hat _].
    apply NoDup_app. split_and!; [done|set_solver|].
    apply NoDup_cons_2; [set_solver|].
    apply NoDup_cons_2; [set_solver|]. apply NoDup_singleton.
  - rewrite (chain_eq _ s) by done. by rewrite E2.
  - rewrite (chain_eq _ s) by done. rewrite E2. simpl. unfold σ'.
    rewrite !dom_insert_L, Hdom.
    rewrite !list_to_set_app_L, !list_to_set_cons. set_solver.
  - simpl. intros q [n Hq]. unfold σ' in Hq.
    destruct (decide (q = node)) as [->|]; [apply Pos.lt_succ_diag_r|].
    apply Pos.lt_lt_succ, (inv_brk _ _ Hinv).
    destruct (decide (dummyTail_ s = q)) as [<-|]; [by eexists|].
    rewrite lookup_insert_ne in Hq by done.
    destruct (decide (a = q)) as [<-|]; [by eexists|].
    rewrite !lookup_insert_ne in Hq by done. by eexists.
  - simpl. intros k' q. rewrite elem_of_app, list_elem_of_singleton.
    destruct (decide (q = node)) as [->|Hq].
    + rewrite key_entry_at, Hnew. simpl.
      destruct (decide (k = k')) as [->|Hkk].
      * rewrite lookup_insert_eq. naive_solver.
      * rewrite lookup_insert_ne by done. split; [|naive_solver].
        intros Hm. apply Hidx in Hm as [_ Hm]. fold node in Hm.
        rewrite Hnone in Hm. done.
    + rewrite key_entry_at, Hent, <-key_entry_at by done.
      destruct (decide (k = k')) as [->|Hkk].
      * rewrite lookup_insert_eq. split; [naive_solver|].
        intros [[Hin|?] Hq']; [|done].
        assert (nodeMap_ s !! k' = Some q) by (by apply Hidx). congruence.
      * rewrite lookup_insert_ne by done. rewrite Hidx. naive_solver.
  - simpl. rewrite map_size_insert_None by done.
    rewrite (inv_size _ _ Hinv), length_app. simpl. lia.
  - simpl. rewrite length_app. simpl. lia.
  - apply (inv_cap _ _ Hinv).
Qed.

(** Overwriting the value of a node of the queue. *)
Lemma linked_setValue σ prev c p n v :
  linked σ prev c → σ !! p = Some n →
  linked (<[p := setValue v n]> σ) prev c.
Proof.
  revert prev. induction c as [|a c IH]; intros prev; [done|].
  intros (m & Hm & Hprev & Hnext & Hl) Hp. simpl.
  destruct (decide (p = a)) as [->|Hne].
  - rewrite Hm in Hp. injection Hp as <-.
    exists (setValue v m). rewrite lookup_insert_eq. split_and!; [done..|].
    apply IH; [done|]. by rewrite Hm.
  - exists m. rewrite lookup_insert_ne by done. split_and!; [done..|].
    by apply IH.
Qed.

Lemma updateExistingNode_inv s l k p v :
  cache_inv s l → nodeMap_ s !! k = Some p →
  ∃ σ',
    updateExistingNode p v s = Some (with_cells σ' s)
    ∧ cache_inv (with_cells σ' s) l
    ∧ entry_at σ' p = Some (k, v)
    ∧ ∀ q, q ≠ p → entry_at σ' q = entry_at (cells_ s) q.
Proof.
  intros Hinv Hm.
  pose proof (inv_index _ _ Hinv) as Hidx.
  destruct (proj1 (Hidx _ _) Hm) as [Hin Hk].
  destruct (cells_ s !! p) as [n|] eqn:Hp; [|done].
  injection Hk as Hk.
  exists (<[p := setValue v n]> (cells_ s)).
  assert (∀ q, key_ <$> <[p := setValue v n]> (cells_ s) !! q
               = key_ <$> cells_ s !! q) as Hkeys.
  { intros q. destruct (decide (p = q)) as [<-|].
    - by rewrite lookup_insert_eq, Hp.
    - by rewrite lookup_insert_ne. }
  split; [unfold updateExistingNode; by rewrite Hp|].
  split; [|split].
  - split.
    + rewrite (chain_eq _ s) by done. apply (inv_nodup _ _ Hinv).
    + rewrite (chain_eq _ s) by done. unfold with_cells. cbn [cells_].
      apply linked_setValue; [apply (inv_linked _ _ Hinv)|done].
    + rewrite (chain_eq _ s) by done. unfold with_cells. cbn [cells_].
      rewrite dom_insert_lookup_L by (by eexists). apply (inv_dom _ _ Hinv).
    + simpl. intros q [m Hq]. apply (inv_brk _ _ Hinv).
      destruct (decide (p = q)) as [<-|]; [by eexists|].
      rewrite lookup_insert_ne in Hq by done. by eexists.
    + simpl. intros k' q. rewrite Hkeys. apply Hidx.
    + apply (inv_size _ _ Hinv).
    + apply (inv_bound _ _ Hinv).
    + apply (inv_cap _ _ Hinv).
  - unfold entry_at. rewrite lookup_insert_eq. simpl. by rewrite Hk.
  - intros q Hq. unfold entry_at. by rewrite lookup_insert_ne.
Qed.

(** ** The operations on the queue seen as a list *)

Lemma inv_brk_fresh s l : cache_inv s l → cells_ s !! brk_ s = None.
Proof.
  intros Hinv. destruct (cells_ s !! brk_ s) eqn:E; [|done].
  exfalso. eapply Pos.lt_irrefl. apply (inv_brk _ _ Hinv). by eexists.
Qed.

Lemma to_size_t_capacity s l :
  cache_inv s l → 0 < capacity_ s → to_size_t (capacity_ s) = capacity_ s.
Proof.
  intros Hinv Hpos. pose proof (inv_cap _ _ Hinv) as [_ Hmax].
  unfold to_size_t, size_t_modulus. apply Z.mod_small.
  unfold INT_MAX in Hmax. lia.
Qed.

Lemma new_abs C : in_int C → abs (KFifoCache_new C) [].
Proof.
  intros HC. exists []. split; [|constructor].
  split; unfold KFifoCache_new, initializeQueue, chain; simpl.
  - apply NoDup_cons_2; [|apply NoDup_singleton].
    intros Hin%list_elem_of_singleton. done.
  - eexists. split; [by simplify_map_eq|]. split_and!; [done..|].
    eexists. split; [by simplify_map_eq|]. done.
  - rewrite !dom_alter_L, !dom_insert_L. set_solver.
  - intros p [n Hp]. rewrite !lookup_alter in Hp.
    destruct (decide (2%positive = p)) as [<-|]; [done|].
    destruct (decide (1%positive = p)) as [<-|]; [done|].
    repeat case_decide; try done. by simplify_map_eq.
  - intros k p. rewrite lookup_empty. split; [done|]. by intros [?%elem_of_nil _].
  - apply map_size_empty.
  - lia.
  - done.
Qed.

Lemma updateExistingNode_abs s q k p v :
  abs s q → nodeMap_ s !! k = Some p →
  ∃ s', updateExistingNode p v s = Some s' ∧ abs s' (aupdate k v q)
        ∧ capacity_ s' = capacity_ s ∧ nodeMap_ s' = nodeMap_ s.
Proof.
  intros (l & Hinv & Hq) Hm.
  destruct (updateExistingNode_inv _ _ _ _ v Hinv Hm)
    as (σ' & Hup & Hinv' & Hnew & Hent).
  exists (with_cells σ' s). split_and!; [done| |done..].
  exists l. split; [done|]. unfold entry_of in *. cbn [with_cells cells_].
  pose proof (inv_index _ _ Hinv) as Hidx.
  assert (∀ p' kv, p' ∈ l → entry_at (cells_ s) p' = Some kv →
                   kv.1 = k → p' = p) as Huniq.
  { intros p' kv Hin Hkv%entry_at_key <-.
    assert (nodeMap_ s !! kv.1 = Some p') by (by apply Hidx). congruence. }
  assert (∀ kv, entry_at (cells_ s) p = Some kv → kv.1 = k) as Hpk.
  { intros kv Hkv%entry_at_key. apply Hidx in Hm as [_ Hm]. congruence. }
  clear Hinv Hinv' Hidx Hup. unfold aupdate.
  induction Hq as [|p' kv l q Hp Hq IH]; [constructor|]. simpl.
  constructor.
  - destruct (decide (p' = p)) as [->|Hne].
    + rewrite decide_True by eauto. done.
    + rewrite decide_False; [by rewrite Hent|].
      intros Hkv. apply Hne. eapply Huniq; [apply elem_of_cons; by left|done..].
  - apply IH. intros p'' kv' Hin. apply Huniq. apply elem_of_cons; by right.
Qed.

Lemma evictOldest_abs s kv q :
  abs s (kv :: q) →
  ∃ s', evictOldest s = Some s' ∧ abs s' q ∧ capacity_ s' = capacity_ s
        ∧ nodeMap_ s' = delete kv.1 (nodeMap_ s).
Proof.
  intros (l & Hinv & Hq).
  destruct l as [|p l]; [by apply Forall2_nil_cons_inv in Hq|].
  apply Forall2_cons_1 in Hq as [Hp Hq].
  pose proof (entry_at_key _ _ _ Hp) as Hk.
  destruct (unlink_erase_inv s [] p l kv.1 Hinv Hk)
    as (s1 & σ' & Hrm & Hk1 & Hm1 & Hrel & Hinv' & Hent).
  destruct (inv_linked _ _ Hinv) as (hn & Hh & _ & Hnext & _).
  simpl in Hnext.
  eexists. split.
  { unfold evictOldest. rewrite Hh. cbn [mbind option_bind].
    rewrite Hnext. cbn [mbind option_bind]. rewrite Hrm.
    cbn [mbind option_bind].
    destruct (cells_ s1 !! p) as [o|] eqn:Ho; [|done].
    injection Hk1 as Hk1. cbn [mbind option_bind].
    rewrite Hk1, Hm1, Hrel. done. }
  split_and!; [|done..].
  exists l. split; [done|]. unfold entry_of. cbn [cells_].
  eapply Forall2_entry_ext; [|done]. intros p' Hin. apply Hent.
  pose proof (inv_nodup _ _ Hinv) as Hnd. unfold chain in Hnd.
  apply list.NoDup_cons in Hnd as [_ Hnd]. simpl in Hnd.
  apply list.NoDup_cons in Hnd as [Hnd _]. intros ->. apply Hnd.
  apply elem_of_app. by left.
Qed.

Lemma enqueue_insert_abs s q k v :
  abs s q → k ∉ q.*1 → Z.of_nat (length q) < capacity_ s →
  ∃ s3,
    enqueueNode (brk_ s) (make_shared k v s).2 = Some s3
    ∧ abs (with_nodeMap (<[k := brk_ s]> (nodeMap_ s3)) s3) (q ++ [(k, v)])
    ∧ capacity_ s3 = capacity_ s
    ∧ nodeMap_ s3 = nodeMap_ s.
Proof.
  intros Habs Hk Hlen. pose proof Habs as (l & Hinv & Hq).
  assert (nodeMap_ s !! k = None) as Hnone.
  { destruct (nodeMap_ s !! k) eqn:E; [|done].
    exfalso. apply Hk. apply (abs_contains _ _ _ Habs). by eexists. }
  pose proof (Forall2_length _ _ _ Hq) as Hlq.
  destruct (enqueue_insert_inv s l k v Hinv Hnone) as (σ' & Henq & Hinv' & Hnew & Hent);
    [lia|].
  eexists. split; [done|]. split_and!; [|done..].
  exists (l ++ [brk_ s]). split; [done|].
  unfold entry_of in *. cbn [with_nodeMap with_cells make_shared cells_ snd].
  apply Forall2_app; [|by repeat constructor].
  eapply Forall2_entry_ext; [|done]. intros p Hin. apply Hent. intros ->.
  pose proof (inv_brk_fresh _ _ Hinv) as Hf.
  destruct (linked_alive _ _ _ (brk_ s) (inv_linked _ _ Hinv)) as [n Hn];
    [|congruence].
  unfold chain. apply elem_of_cons; right. apply elem_of_app. by left.
Qed.

Lemma addNewNode_abs s q k v :
  abs s q → k ∉ q.*1 → 0 < capacity_ s →
  ∃ s',
    addNewNode k v s = Some s'
    ∧ abs s' ((if decide (capacity_ s ≤ Z.of_nat (length q)) then tail q else q)
              ++ [(k, v)])
    ∧ capacity_ s' = capacity_ s.
Proof.
  intros Habs Hk Hpos. unfold addNewNode.
  pose proof Habs as (l & Hinv & _).
  rewrite (to_size_t_capacity _ _ Hinv Hpos), (abs_length _ _ Habs).
  pose proof (abs_bound _ _ Habs) as Hb.
  assert (∃ s1,
    (if decide (capacity_ s ≤ Z.of_nat (length q)) then evictOldest s else Some s)
      = Some s1
    ∧ abs s1 (if decide (capacity_ s ≤ Z.of_nat (length q)) then tail q else q)
    ∧ capacity_ s1 = capacity_ s) as (s1 & -> & Habs1 & Hc1).
  { destruct (decide (capacity_ s ≤ Z.of_nat (length q))) as [Hfull|Hroom].
    - destruct q as [|kv q]; [simpl in Hfull; lia|].
      destruct (evictOldest_abs _ _ _ Habs) as (s1 & ? & ? & ? & _). eauto.
    - eauto. }
  cbn [mbind option_bind].
  set (q1 := if decide (capacity_ s ≤ Z.of_nat (length q)) then tail q else q) in *.
  assert (k ∉ q1.*1) as Hk1.
  { unfold q1. case_decide; [|done]. destruct q as [|kv q]; [done|].
    simpl in *. intros Hin. apply Hk. apply elem_of_cons; by right. }
  assert (Z.of_nat (length q1) < capacity_ s1) as Hlen1.
  { rewrite Hc1. unfold q1. case_decide; [|lia].
    destruct q as [|kv q]; simpl in *; lia. }
  destruct (enqueue_insert_abs _ _ _ v Habs1 Hk1 Hlen1)
    as (s3 & Henq & Habs3 & Hc3 & _).
  unfold make_shared in *. cbn [snd] in Henq. rewrite Henq.
  cbn [mbind option_bind]. eexists. split; [done|]. split; [done|].
  cbn [with_nodeMap capacity_]. congruence.
Qed.

Lemma put_abs s q k v :
  abs s q →
  ∃ s', put k v s = Some s' ∧ abs s' (aput (capacity_ s) k v q)
        ∧ capacity_ s' = capacity_ s.
Proof.
  intros Habs. unfold put, aput.
  destruct (decide (capacity_ s ≤ 0)) as [Hle|Hpos]; [by eauto|].
  pose proof (abs_contains _ _ k Habs) as Hc.
  destruct (nodeMap_ s !! k) as [p|] eqn:Hm.
  - rewrite decide_True by (apply Hc; by eexists).
    destruct (updateExistingNode_abs _ _ _ _ v Habs Hm) as (s' & ? & ? & ? & _).
    eauto.
  - rewrite decide_False by (intros Hin; apply Hc in Hin as [? ?]; done).
    apply addNewNode_abs; [done| |lia].
    intros Hin. apply Hc in Hin as [? ?]. done.
Qed.

Lemma aremove_notin k (q : list (Key * Value)) : k ∉ q.*1 → aremove k q = q.
Proof.
  unfold aremove. induction q as [|kv q IH]; [done|]. simpl. intros Hk.
  rewrite filter_cons_True by (intros <-; apply Hk, elem_of_cons; by left).
  f_equal. apply IH. intros Hin. apply Hk, elem_of_cons. by right.
Qed.

Lemma aremove_middle (q1 : list (Key * Value)) kv q2 :
  NoDup (q1 ++ kv :: q2).*1 → aremove kv.1 (q1 ++ kv :: q2) = q1 ++ q2.
Proof.
  rewrite fmap_app, fmap_cons. intros [Hnd Hk]%NoDup_app_cons_inv.
  unfold aremove. rewrite filter_app, filter_cons_False by (by intros ?).
  fold (aremove kv.1 q1). fold (aremove kv.1 q2).
  rewrite !aremove_notin; [done|..].
  - intros Hin. apply Hk, elem_of_app. by right.
  - intros Hin. apply Hk, elem_of_app. by left.
Qed.

Lemma remove_abs s q k :
  abs s q →
  ∃ s', remove k s = Some s' ∧ abs s' (aremove k q)
        ∧ capacity_ s' = capacity_ s
        ∧ nodeMap_ s' = delete k (nodeMap_ s).
Proof.
  intros Habs. unfold remove.
  pose proof (abs_contains _ _ k Habs) as Hc.
  destruct (nodeMap_ s !! k) as [p|] eqn:Hm.
  - pose proof (abs_NoDup _ _ Habs) as Hnd.
    destruct Habs as (l & Hinv & Hq).
    apply (inv_index _ _ Hinv) in Hm as [Hin Hk].
    apply list_elem_of_split in Hin as (l1 & l2 & ->).
    destruct (unlink_erase_inv s l1 p l2 k Hinv Hk)
      as (s1 & σ' & Hrm & Hk1 & Hm1 & Hrel & Hinv' & Hent).
    rewrite Hrm. cbn [mbind option_bind]. rewrite Hm1, Hrel.
    apply Forall2_app_inv_l in Hq as (q1 & q2' & Hq1 & Hq2 & ->).
    apply Forall2_cons_inv_l in Hq2 as (kv & q2 & Hp & Hq2 & ->).
    assert (kv.1 = k) as <-.
    { apply entry_at_key in Hp. unfold entry_of in Hp. congruence. }
    rewrite aremove_middle by done.
    eexists. split; [done|]. split_and!; [|done..].
    exists (l1 ++ l2). split; [done|]. unfold entry_of in *. cbn [cells_].
    pose proof (inv_nodup _ _ Hinv) as Hnd0. unfold chain in Hnd0.
    apply list.NoDup_cons in Hnd0 as [_ Hnd0].
    apply NoDup_app in Hnd0 as [Hnd0 _].
    apply NoDup_app_cons_inv in Hnd0 as [_ Hpl].
    apply Forall2_app.
    + eapply Forall2_entry_ext; [|done]. intros p' Hin'. apply Hent.
      intros ->. apply Hpl, elem_of_app. by left.
    + eapply Forall2_entry_ext; [|done]. intros p' Hin'. apply Hent.
      intros ->. apply Hpl, elem_of_app. by right.
  - rewrite aremove_notin by (intros Hin; apply Hc in Hin as [? ?]; done).
    rewrite delete_id by done. exists s. by destruct s.
Qed.

Lemma remove_absent s k : nodeMap_ s !! k = None → remove k s = Some s.
Proof. intros Hm. unfold remove. by rewrite Hm. Qed.

Lemma Forall2_entry_elem (σ : gmap NodePtr FifoNode) l (q : list (Key * Value)) kv :
  Forall2 (λ p kv, entry_at σ p = Some kv) l q →
  kv ∈ q → ∃ p, p ∈ l ∧ entry_at σ p = Some kv.
Proof.
  induction 1 as [|p' kv' l q Hp _ IH]; [by intros ?%elem_of_nil|].
  intros [->|Hin]%elem_of_cons.
  - exists p'. split; [apply elem_of_cons; by left|done].
  - destruct (IH Hin) as (p & ? & ?). exists p.
    split; [apply elem_of_cons; by right|done].
Qed.

Lemma get_present s q k x v :
  abs s q → (k, x) ∈ q → get k v s = Some (true, x, s).
Proof.
  intros (l & Hinv & Hq) Hin.
  destruct (Forall2_entry_elem _ _ _ _ Hq Hin) as (p & Hp & He).
  assert (nodeMap_ s !! k = Some p) as Hm.
  { apply (inv_index _ _ Hinv). split; [done|]. by apply entry_at_key in He. }
  unfold get. rewrite Hm. unfold entry_of, entry_at in He.
  destruct (cells_ s !! p) as [n|]; [|done]. simpl in *. by simplify_eq.
Qed.

Lemma get_absent s k v :
  nodeMap_ s !! k = None → get k v s = Some (false, v, s).
Proof. intros Hm. unfold get. by rewrite Hm. Qed.

Lemma get_value_get s k b x s' :
  get k value_init s = Some (b, x, s') → get_value k s = Some (x, s').
Proof. intros Hg. unfold get_value. by rewrite Hg. Qed.

(** A key in the index has an entry in the queue. *)
Lemma abs_contains_entry s q k :
  abs s q → is_Some (nodeMap_ s !! k) → ∃ x, (k, x) ∈ q.
Proof.
  intros Habs Hk. apply (abs_contains _ _ _ Habs) in Hk.
  apply list_elem_of_fmap in Hk as ([k' x] & -> & Hin). by exists x.
Qed.

(** ** Runs of operations on the list view *)

Lemma get_abs s q k v :
  abs s q → ∃ b x, get k v s = Some (b, x, s).
Proof.
  intros Habs. destruct (nodeMap_ s !! k) as [p|] eqn:Hm.
  - destruct (abs_contains_entry _ _ k Habs) as [x Hx]; [by eexists|].
    exists true, x. by eapply get_present.
  - exists false, v. by apply get_absent.
Qed.

Lemma step_abs s q o :
  abs s q →
  ∃ s', step o s = Some s' ∧ abs s' (astep (capacity_ s) o q)
        ∧ capacity_ s' = capacity_ s.
Proof.
  intros Habs. destruct o as [k v|k v|k|k]; simpl.
  - apply put_abs, Habs.
  - destruct (get_abs _ _ k v Habs) as (b & x & ->). by exists s.
  - destruct (get_abs _ _ k value_init Habs) as (b & x & Hg).
    rewrite (get_value_get _ _ _ _ _ Hg). by exists s.
  - destruct (remove_abs _ _ k Habs) as (s' & ? & ? & ? & _). eauto.
Qed.

Lemma run_abs s q ops :
  abs s q →
  ∃ s', run ops s = Some s' ∧ abs s' (arun (capacity_ s) ops q)
        ∧ capacity_ s' = capacity_ s.
Proof.
  revert s q. induction ops as [|o ops IH]; intros s q Habs; [by exists s|].
  destruct (step_abs _ _ o Habs) as (s1 & Hs & Habs1 & Hc).
  destruct (IH _ _ Habs1) as (s' & Hr & Habs' & Hc').
  rewrite Hc in Habs', Hc'.
  exists s'. simpl. rewrite Hs. cbn [mbind option_bind]. done.
Qed.

(** Every run from a freshly constructed object ends in a well-formed
    object. *)
Lemma run_new_abs C ops :
  in_int C →
  ∃ s, run ops (KFifoCache_new C) = Some s ∧ abs s (arun C ops [])
       ∧ capacity_ s = C.
Proof. intros HC. apply (run_abs (KFifoCache_new C)), new_abs, HC. Qed.

Lemma reachable_abs C ops s :
  in_int C → run ops (KFifoCache_new C) = Some s →
  abs s (arun C ops []) ∧ capacity_ s = C.
Proof.
  intros HC Hr. destruct (run_new_abs C ops HC) as (s' & Hr' & ? & ?).
  rewrite Hr in Hr'. by injection Hr' as <-.
Qed.

(** ** Facts on the list view *)

Lemma abs_dom s q : abs s q → dom (nodeMap_ s) = list_to_set q.*1.
Proof.
  intros Habs. apply set_eq. intros k.
  rewrite elem_of_dom, elem_of_list_to_set. apply (abs_contains _ _ _ Habs).
Qed.

Lemma contains_true s q k : abs s q → contains k s = true ↔ k ∈ q.*1.
Proof.
  intros Habs. unfold contains. rewrite bool_decide_eq_true.
  apply (abs_contains _ _ _ Habs).
Qed.

Lemma contains_false s q k : abs s q → contains k s = false ↔ k ∉ q.*1.
Proof.
  intros Habs. unfold contains. rewrite bool_decide_eq_false.
  by rewrite (abs_contains _ _ _ Habs).
Qed.

Lemma contains_false_lookup s k : contains k s = false → nodeMap_ s !! k = None.
Proof.
  unfold contains. rewrite bool_decide_eq_false.
  destruct (nodeMap_ s !! k); [|done]. intros []. by eexists.
Qed.

Lemma aupdate_keys k v (q : list (Key * Value)) : (aupdate k v q).*1 = q.*1.
Proof.
  unfold aupdate. induction q as [|kv q IH]; [done|].
  rewrite !fmap_cons, IH. f_equal. by case_decide.
Qed.

Lemma aupdate_notin k v (q : list (Key * Value)) : k ∉ q.*1 → aupdate k v q = q.
Proof.
  unfold aupdate. induction q as [|kv q IH]; [done|]. simpl. intros Hk.
  rewrite decide_False by (intros <-; apply Hk, elem_of_cons; by left).
  f_equal. apply IH. intros Hin. apply Hk, elem_of_cons. by right.
Qed.

Lemma aput_new_room C k v (q : list (Key * Value)) :
  0 < C → k ∉ q.*1 → Z.of_nat (length q) < C → aput C k v q = q ++ [(k, v)].
Proof.
  intros HC Hk Hlen. unfold aput.
  rewrite decide_False, decide_False, decide_False by (done || lia). done.
Qed.

Lemma aput_new_full C k v (q : list (Key * Value)) :
  0 < C → k ∉ q.*1 → C ≤ Z.of_nat (length q) →
  aput C k v q = tail q ++ [(k, v)].
Proof.
  intros HC Hk Hlen. unfold aput.
  rewrite decide_False, decide_False, decide_True by (done || lia). done.
Qed.

Lemma aput_present C k v (q : list (Key * Value)) :
  0 < C → k ∈ q.*1 → aput C k v q = aupdate k v q.
Proof.
  intros HC Hk. unfold aput. rewrite decide_False, decide_True by (done || lia).
  done.
Qed.

(** A put drops at most the key at the head of the queue. *)
Lemma aput_lost C k v (q : list (Key * Value)) :
  (list_to_set q.*1 : gset Key) ∖ list_to_set (aput C k v q).*1
  ⊆ list_to_set (take 1 q).*1.
Proof.
  unfold aput. repeat case_decide.
  - set_solver.
  - rewrite aupdate_keys. set_solver.
  - destruct q as [|kv q]; simpl; [set_solver|].
    rewrite fmap_app, list_to_set_app_L. set_solver.
  - rewrite fmap_app, list_to_set_app_L. set_solver.
Qed.

Lemma size_take1_keys (q : list (Key * Value)) :
  (size (list_to_set (take 1 q).*1 : gset Key) ≤ 1)%nat.
Proof.
  destruct q as [|kv q].
  - change (list_to_set (take 1 (@nil (Key * Value))).*1 : gset Key)
      with (∅ : gset Key).
    rewrite size_empty. lia.
  - change (list_to_set (take 1 (kv :: q)).*1 : gset Key)
      with ({[kv.1]} ∪ ∅ : gset Key).
    by rewrite union_empty_r_L, size_singleton.
Qed.

Lemma arun_puts_fresh C (kvs q : list (Key * Value)) :
  0 < C → NoDup (q ++ kvs).*1 →
  Z.of_nat (length q + length kvs) ≤ C →
  arun C (map (λ kv, OpPut kv.1 kv.2) kvs) q = q ++ kvs.
Proof.
  intros HC. revert q. induction kvs as [|kv kvs IH]; intros q Hnd Hlen.
  - by rewrite app_nil_r.
  - simpl in *. rewrite aput_new_room; [|done| |lia].
    + destruct kv as [k v]. simpl.
      rewrite IH; [by rewrite <-app_assoc|by rewrite <-app_assoc|].
      rewrite length_app. simpl. lia.
    + rewrite fmap_app, fmap_cons in Hnd.
      apply NoDup_app in Hnd as (_ & Hd & _). intros Hin.
      apply (Hd _ Hin). apply elem_of_cons. by left.
Qed.

Lemma arun_app C ops1 ops2 (q : list (Key * Value)) :
  arun C (ops1 ++ ops2) q = arun C ops2 (arun C ops1 q).
Proof. apply foldl_app. Qed.

(** ** Claims on the single cache *)

(** C1: on a cache of capacity [C >= 1] reached from construction, a put of
    a key that is not present while [C] or more entries are held first
    evicts exactly the entry at the head of the queue, from the queue and
    from the index, and then appends the new entry at the tail and enters
    it in the index; hence after [C+1] puts of distinct keys into a new
    cache the first key is absent and the [C] later ones are present. *)
Theorem C1_put_new_evicts_head (C : Z) :
  1 ≤ C ≤ INT_MAX →
  (∀ ops s k v,
     run ops (KFifoCache_new C) = Some s →
     contains k s = false → C ≤ Z.of_nat (entry_count s) →
     ∃ old rest s1 s',
       queue s = old :: rest
       ∧ evictOldest s = Some s1
       ∧ queue s1 = rest
       ∧ nodeMap_ s1 = delete old.1 (nodeMap_ s)
       ∧ (let '(newNode, s2) := make_shared k v s1 in
          s3 ← enqueueNode newNode s2;
          Some (with_nodeMap (<[k := newNode]> (nodeMap_ s3)) s3)) = Some s'
       ∧ put k v s = Some s'
       ∧ queue s' = rest ++ [(k, v)]
       ∧ dom (nodeMap_ s') = {[k]} ∪ dom (nodeMap_ s) ∖ {[old.1]})
  ∧ (∀ kv kvs,
       Z.of_nat (length kvs) = C → NoDup (kv :: kvs).*1 →
       ∃ s, put_all (kv :: kvs) (KFifoCache_new C) = Some s
            ∧ queue s = kvs
            ∧ contains kv.1 s = false
            ∧ ∀ k, k ∈ kvs.*1 → contains k s = true).
Proof.
  intros HC. assert (in_int C) as Hint by (unfold in_int, INT_MIN; lia).
  split.
  - intros ops s k v Hrun Hk Hfull.
    destruct (reachable_abs _ _ _ Hint Hrun) as [Habs Hcap].
    set (q := arun C ops []) in *.
    pose proof (abs_queue _ _ Habs) as Hq.
    pose proof (abs_NoDup _ _ Habs) as Hnd.
    unfold entry_count in Hfull. rewrite (abs_length _ _ Habs) in Hfull.
    destruct q as [|old rest] eqn:Eq; [simpl in Hfull; lia|].
    destruct (evictOldest_abs _ _ _ Habs) as (s1 & Hev & Habs1 & Hc1 & Hm1).
    pose proof (proj1 (contains_false _ _ _ Habs) Hk) as Hkq.
    destruct (addNewNode_abs _ _ k v Habs Hkq) as (s' & Hadd & Habs' & _);
      [lia|].
    rewrite Hcap, decide_True in Habs' by done. simpl in Habs'.
    pose proof Habs as (l & Hinv & _).
    exists old, rest, s1, s'. split_and!; [done|done|by apply abs_queue|done| | | |].
    + rewrite <-Hadd. unfold addNewNode.
      rewrite (to_size_t_capacity _ _ Hinv) by lia.
      rewrite (abs_length _ _ Habs), Hcap, decide_True by done.
      by rewrite Hev.
    + unfold put. rewrite decide_False by lia.
      by rewrite (contains_false_lookup _ _ Hk).
    + by apply abs_queue.
    + rewrite (abs_dom _ _ Habs'), (abs_dom _ _ Habs).
      rewrite fmap_app, list_to_set_app_L. simpl.
      apply list.NoDup_cons in Hnd as [Hold _].
      assert (old.1 ∉ (list_to_set rest.*1 : gset Key))
        by (by rewrite elem_of_list_to_set).
      set_solver.
  - intros kv kvs Hlen Hnd.
    destruct (run_new_abs C (map (λ kv, OpPut kv.1 kv.2) (kv :: kvs)) Hint)
      as (s & Hrun & Habs & _).
    assert (arun C (map (λ kv, OpPut kv.1 kv.2) (kv :: kvs)) [] = kvs) as E.
    { destruct kvs as [|kv' kvs _] using rev_ind.
      - simpl in Hlen. lia.
      - rewrite app_comm_cons, map_app, arun_app.
        rewrite length_app in Hlen. simpl in Hlen.
        rewrite app_comm_cons, fmap_app in Hnd.
        rewrite (arun_puts_fresh C (kv :: kvs) []);
          [|lia|by apply NoDup_app in Hnd as [? _]|simpl; lia].
        simpl. rewrite aput_new_full; [by destruct kv'|lia| |simpl; lia].
        apply NoDup_app in Hnd as (_ & Hd & _). intros Hin.
        apply (Hd _ Hin). simpl. apply elem_of_cons. by left. }
    rewrite E in Habs. exists s. split_and!; [done|by apply abs_queue| |].
    + apply (contains_false _ _ _ Habs).
      rewrite fmap_cons in Hnd. by apply list.NoDup_cons in Hnd as [? _].
    + intros k Hin. by apply (contains_true _ _ _ Habs).
Qed.

(** C2: on a cache of capacity [C >= 1], every run of calls from
    construction returns, the entry count after it is at most [C], and one
    more put returns, keeps the count at most [C] and removes at most one
    of the keys that were present. *)
Theorem C2_entry_count_bounded (C : Z) (ops : list Op) :
  1 ≤ C ≤ INT_MAX →
  ∃ s, run ops (KFifoCache_new C) = Some s
       ∧ Z.of_nat (entry_count s) ≤ C
       ∧ ∀ k v, ∃ s',
           put k v s = Some s'
           ∧ Z.of_nat (entry_count s') ≤ C
           ∧ (size (dom (nodeMap_ s) ∖ dom (nodeMap_ s')) ≤ 1)%nat.
Proof.
  intros HC. assert (in_int C) as Hint by (unfold in_int, INT_MIN; lia).
  destruct (run_new_abs C ops Hint) as (s & Hrun & Habs & Hcap).
  exists s. split; [done|]. split.
  - unfold entry_count. rewrite (abs_length _ _ Habs).
    pose proof (abs_bound _ _ Habs). lia.
  - intros k v. destruct (put_abs _ _ k v Habs) as (s' & Hput & Habs' & Hcap').
    exists s'. split; [done|]. split.
    + unfold entry_count. rewrite (abs_length _ _ Habs').
      pose proof (abs_bound _ _ Habs'). lia.
    + rewrite (abs_dom _ _ Habs), (abs_dom _ _ Habs').
      etrans; [apply subseteq_size, aput_lost|]. apply size_take1_keys.
Qed.

Lemma aupdate_elem k v (q : list (Key * Value)) :
  k ∈ q.*1 → (k, v) ∈ aupdate k v q.
Proof.
  intros ([k' x] & -> & Hin)%list_elem_of_fmap. unfold aupdate.
  apply list_elem_of_fmap. exists (k', x). simpl.
  by rewrite decide_True.
Qed.

Lemma aremove_keys k (q : list (Key * Value)) : k ∉ (aremove k q).*1.
Proof.
  intros ([k' x] & -> & Hin)%list_elem_of_fmap.
  apply list_elem_of_filter in Hin as [Hne _]. done.
Qed.

Lemma aremove_length k (q : list (Key * Value)) :
  (length (aremove k q) ≤ length q)%nat
  ∧ (k ∈ q.*1 → (length (aremove k q) < length q)%nat).
Proof.
  unfold aremove. induction q as [|kv q [IH1 IH2]]; simpl.
  - split; [done|]. by intros ?%elem_of_nil.
  - destruct (decide (kv.1 = k)) as [E|E].
    + rewrite filter_cons_False by (by intros ?). split; intros; lia.
    + rewrite filter_cons_True by done. simpl. split; [lia|].
      intros [?|Hin]%elem_of_cons; [done|]. specialize (IH2 Hin). lia.
Qed.

Lemma put_present_spec s q k v :
  abs s q → 0 < capacity_ s → k ∈ q.*1 →
  ∃ s', put k v s = Some s' ∧ abs s' (aupdate k v q)
        ∧ queue_nodes s' = queue_nodes s ∧ nodeMap_ s' = nodeMap_ s
        ∧ capacity_ s' = capacity_ s.
Proof.
  intros Habs Hpos Hk. pose proof Habs as (l & Hinv & _).
  apply (abs_contains _ _ _ Habs) in Hk as [p Hm].
  destruct (updateExistingNode_abs _ _ _ _ v Habs Hm) as (s' & Hup & Habs' & ? & ?).
  destruct (updateExistingNode_inv _ _ _ _ v Hinv Hm) as (σ' & Hup' & Hinv' & _).
  rewrite Hup in Hup'. injection Hup' as ->.
  exists (with_cells σ' s). split_and!; [|done| |done..].
  - unfold put. rewrite decide_False by lia. by rewrite Hm.
  - by rewrite (inv_queue_nodes _ _ Hinv), (inv_queue_nodes _ _ Hinv').
Qed.

Lemma put_absent_spec s q k v :
  abs s q → 0 < capacity_ s → k ∉ q.*1 →
  ∃ s', put k v s = Some s'
        ∧ abs s' ((if decide (capacity_ s ≤ Z.of_nat (length q))
                   then tail q else q) ++ [(k, v)])
        ∧ capacity_ s' = capacity_ s.
Proof.
  intros Habs Hpos Hk.
  destruct (put_abs _ _ k v Habs) as (s' & Hput & Habs' & Hcap).
  unfold aput in Habs'.
  rewrite decide_False, decide_False in Habs' by (done || lia). eauto.
Qed.

(** C3, as the code has it: a put of a key that is present overwrites the
    value of its entry and leaves the queue of nodes and the index as they
    were; so when the cache is full with [k1] at the head, [put k1 newValue]
    followed by a put of a new key evicts [k1] itself, which is still the
    oldest entry: afterwards [get k1] misses and the other old keys are
    still present. *)
Theorem C3_update_keeps_position (C : Z) (ops : list Op) (s : KFifoCache) :
  1 ≤ C ≤ INT_MAX →
  run ops (KFifoCache_new C) = Some s →
  (∀ k v, contains k s = true →
     ∃ s', put k v s = Some s'
           ∧ queue s' = aupdate k v (queue s)
           ∧ (queue s').*1 = (queue s).*1
           ∧ queue_nodes s' = queue_nodes s
           ∧ nodeMap_ s' = nodeMap_ s
           ∧ ∀ v0, get k v0 s' = Some (true, v, s'))
  ∧ (∀ k1 v1 rest newValue k' v',
       queue s = (k1, v1) :: rest → Z.of_nat (entry_count s) = C →
       contains k' s = false →
       ∃ s1 s2,
         put k1 newValue s = Some s1
         ∧ queue s1 = (k1, newValue) :: rest
         ∧ put k' v' s1 = Some s2
         ∧ queue s2 = rest ++ [(k', v')]
         ∧ contains k1 s2 = false
         ∧ (∀ v0, get k1 v0 s2 = Some (false, v0, s2))
         ∧ ∀ k, k ∈ rest.*1 → contains k s2 = true).
Proof.
  intros HC Hrun. assert (in_int C) as Hint by (unfold in_int, INT_MIN; lia).
  destruct (reachable_abs _ _ _ Hint Hrun) as [Habs Hcap].
  set (q := arun C ops []) in *.
  pose proof (abs_queue _ _ Habs) as Hq. split.
  - intros k v Hk. apply (contains_true _ _ _ Habs) in Hk.
    destruct (put_present_spec _ _ k v Habs) as (s' & Hput & Habs' & Hn & Hm & _);
      [lia|done|].
    exists s'. rewrite Hq, (abs_queue _ _ Habs').
    split_and!; [done|done|apply aupdate_keys|done|done|].
    intros v0. eapply get_present; [done|]. by apply aupdate_elem.
  - intros k1 v1 rest newValue k' v' Hqs Hfull Hk'.
    rewrite Hq in Hqs.
    pose proof (abs_NoDup _ _ Habs) as Hnd. rewrite Hqs in Hnd.
    apply list.NoDup_cons in Hnd as [Hk1 Hnd]. simpl in Hk1.
    apply (contains_false _ _ _ Habs) in Hk'. rewrite Hqs in Hk'.
    unfold entry_count in Hfull. rewrite (abs_length _ _ Habs), Hqs in Hfull.
    destruct (put_present_spec _ _ k1 newValue Habs)
      as (s1 & Hput1 & Habs1 & _ & _ & Hcap1);
      [lia|rewrite Hqs; apply elem_of_cons; by left|].
    rewrite Hqs in Habs1. unfold aupdate in Habs1.
    rewrite fmap_cons in Habs1. fold (aupdate k1 newValue rest) in Habs1.
    simpl in Habs1. rewrite decide_True, aupdate_notin in Habs1 by done.
    destruct (put_absent_spec _ _ k' v' Habs1) as (s2 & Hput2 & Habs2 & _);
      [lia|done|].
    rewrite decide_True in Habs2 by (rewrite Hcap1, Hcap; simpl in *; lia).
    simpl in Habs2.
    assert (k1 ∉ (rest ++ [(k', v')]).*1) as Hk1'.
    { rewrite fmap_app. intros [?|Hin]%elem_of_app; [done|].
      apply list_elem_of_singleton in Hin. simpl in Hin. subst k'.
      apply Hk'. apply elem_of_cons. by left. }
    exists s1, s2.
    split_and!; [done|by apply abs_queue|done|by apply abs_queue| | |].
    + by apply (contains_false _ _ _ Habs2).
    + intros v0. apply get_absent, contains_false_lookup.
      by apply (contains_false _ _ _ Habs2).
    + intros k Hin. apply (contains_true _ _ _ Habs2).
      rewrite fmap_app. apply elem_of_app. by left.
Qed.

Lemma abs_index_agrees s q : abs s q → index_agrees s.
Proof.
  intros (l & Hinv & _) k p. rewrite (inv_queue_nodes _ _ Hinv).
  apply (inv_index _ _ Hinv).
Qed.

(** C4: in every state reached from construction by put, get and remove, a
    key maps to a node in the index exactly when that node is linked
    between the two sentinels and carries the key; each further put, get
    or remove returns and keeps it so. *)
Theorem C4_index_queue_agree (C : Z) (ops : list Op) (s : KFifoCache) :
  in_int C →
  run ops (KFifoCache_new C) = Some s →
  index_agrees s
  ∧ (∀ k, contains k s = true ↔ k ∈ (queue s).*1)
  ∧ ∀ o, ∃ s', step o s = Some s' ∧ index_agrees s'
               ∧ ∀ k, contains k s' = true ↔ k ∈ (queue s').*1.
Proof.
  intros Hint Hrun.
  destruct (reachable_abs _ _ _ Hint Hrun) as [Habs Hcap].
  split; [by eapply abs_index_agrees|]. split.
  - intros k. rewrite (abs_queue _ _ Habs). apply (contains_true _ _ _ Habs).
  - intros o. destruct (step_abs _ _ o Habs) as (s' & Hs & Habs' & _).
    exists s'. split; [done|]. split; [by eapply abs_index_agrees|].
    intros k. rewrite (abs_queue _ _ Habs'). apply (contains_true _ _ _ Habs').
Qed.

(** C5, as the code has it: get changes nothing in the object; on a hit
    the two-result form returns true and the value of the entry; on a miss
    it returns false and leaves the caller's value as the caller had it,
    and the value-returning form returns the value-initialised [Value]. *)
Theorem C5_get_read_only (C : Z) (ops : list Op) (s : KFifoCache) (k : Key)
    (v0 : Value) :
  in_int C →
  run ops (KFifoCache_new C) = Some s →
  (∀ x, (k, x) ∈ queue s →
        get k v0 s = Some (true, x, s) ∧ get_value k s = Some (x, s))
  ∧ (contains k s = true → ∃ x, (k, x) ∈ queue s)
  ∧ (contains k s = false →
       get k v0 s = Some (false, v0, s)
       ∧ get_value k s = Some (value_init, s)).
Proof.
  intros Hint Hrun.
  destruct (reachable_abs _ _ _ Hint Hrun) as [Habs Hcap].
  rewrite (abs_queue _ _ Habs). split_and!.
  - intros x Hx. split; [by eapply get_present|].
    eapply get_value_get. by eapply get_present.
  - intros Hk. unfold contains in Hk. apply bool_decide_eq_true in Hk.
    by eapply abs_contains_entry.
  - intros Hk%contains_false_lookup. split; [by apply get_absent|].
    eapply get_value_get. by apply get_absent.
Qed.

(** C6: remove of a present key takes its entry out of the queue and its
    key out of the index, a get of the key then misses, and a put of the
    key after that appends it at the tail; remove of an absent key returns
    the object unchanged; with capacity at least 1 a put after a remove
    always leaves the key at the tail. *)
Theorem C6_remove_then_reinsert (C : Z) (ops : list Op) (s : KFifoCache)
    (k : Key) :
  in_int C →
  run ops (KFifoCache_new C) = Some s →
  (contains k s = true →
     ∃ s', remove k s = Some s'
           ∧ queue s' = aremove k (queue s)
           ∧ nodeMap_ s' = delete k (nodeMap_ s)
           ∧ (∀ v0, get k v0 s' = Some (false, v0, s'))
           ∧ ∀ v, ∃ s'', put k v s' = Some s''
                         ∧ queue s'' = aremove k (queue s) ++ [(k, v)]
                         ∧ contains k s'' = true)
  ∧ (contains k s = false → remove k s = Some s)
  ∧ (1 ≤ C →
     ∃ s', remove k s = Some s'
           ∧ (∀ v0, get k v0 s' = Some (false, v0, s'))
           ∧ ∀ v, ∃ s'', put k v s' = Some s''
                         ∧ last (queue s'') = Some (k, v)).
Proof.
  intros Hint Hrun.
  destruct (reachable_abs _ _ _ Hint Hrun) as [Habs Hcap].
  set (q := arun C ops []) in *.
  rewrite (abs_queue _ _ Habs).
  destruct (remove_abs _ _ k Habs) as (s' & Hrm & Habs' & Hcap' & Hm').
  assert (∀ v0, get k v0 s' = Some (false, v0, s')) as Hget.
  { intros v0. apply get_absent. rewrite Hm'. apply lookup_delete_eq. }
  pose proof (aremove_keys k q) as Hkq.
  split_and!.
  - intros Hk. apply (contains_true _ _ _ Habs) in Hk.
    exists s'. split_and!; [done|by apply abs_queue|done|done|].
    intros v. pose proof (abs_bound _ _ Habs) as Hb.
    destruct (aremove_length k q) as [_ Hlt]. specialize (Hlt Hk).
    destruct (put_absent_spec _ _ k v Habs') as (s'' & Hput & Habs'' & _);
      [lia|done|].
    rewrite decide_False in Habs'' by lia.
    exists s''. split_and!; [done|by apply abs_queue|].
    apply (contains_true _ _ _ Habs''). rewrite fmap_app.
    apply elem_of_app. right. apply list_elem_of_singleton. done.
  - intros Hk. by apply remove_absent, contains_false_lookup.
  - intros HC. exists s'. split_and!; [done..|]. intros v.
    destruct (put_absent_spec _ _ k v Habs') as (s'' & Hput & Habs'' & _);
      [lia|done|].
    exists s''. split; [done|]. rewrite (abs_queue _ _ Habs'').
    apply last_snoc.
Qed.

Lemma step_inert C o :
  C ≤ 0 → step o (KFifoCache_new C) = Some (KFifoCache_new C).
Proof.
  intros HC. destruct o as [k v|k v|k|k]; simpl.
  - unfold put. by rewrite decide_True.
  - by rewrite get_absent.
  - by erewrite get_value_get; [|by apply get_absent].
  - by rewrite remove_absent.
Qed.

(** C7: a cache constructed with capacity [C <= 0] never changes: every
    run of calls returns and leaves the object as constructed, its queue
    and index empty; every put returns the object unchanged and every get
    misses. *)
Theorem C7_nonpositive_capacity_inert (C : Z) (ops : list Op) :
  C ≤ 0 →
  run ops (KFifoCache_new C) = Some (KFifoCache_new C)
  ∧ queue (KFifoCache_new C) = []
  ∧ entry_count (KFifoCache_new C) = 0%nat
  ∧ ∀ k v, put k v (KFifoCache_new C) = Some (KFifoCache_new C)
           ∧ contains k (KFifoCache_new C) = false
           ∧ get k v (KFifoCache_new C) = Some (false, v, KFifoCache_new C)
           ∧ get_value k (KFifoCache_new C)
             = Some (value_init, KFifoCache_new C).
Proof.
  intros HC. split_and!.
  - induction ops as [|o ops IH]; [done|]. simpl.
    by rewrite step_inert.
  - reflexivity.
  - reflexivity.
  - intros k v. split_and!.
    + unfold put. by rewrite decide_True.
    + reflexivity.
    + by apply get_absent.
    + eapply get_value_get. by apply get_absent.
Qed.

(** C10: on a miss the two-result get returns false and hands the caller's
    value back untouched, whatever it was; the value-returning get returns
    the value-initialised [Value]; neither changes the object. *)
Theorem C10_get_miss_keeps_value (s : KFifoCache) (k : Key) (v : Value) :
  contains k s = false →
  get k v s = Some (false, v, s)
  ∧ get_value k s = Some (value_init, s).
Proof.
  intros Hk%contains_false_lookup. split; [by apply get_absent|].
  eapply get_value_get. by apply get_absent.
Qed.

End FifoFacts.

(** * Properties of the sharded cache *)

Section ShardedFacts.
Context {Key Value : Type} {Key_eq : EqDecision Key} {Key_countable : Countable Key}.
Context {Key_init : ValueInit Key} {Value_init : ValueInit Value}.
Context (hashFunc : Key → Z).

#[local] Set Warnings "-clear-no-such-hyp".

Local Abbreviation KFifoCache := (@KFifoCache Key Value Key_eq Key_countable)
  (only parsing).
Local Abbreviation KHashFifoCache :=
  (@KHashFifoCache Key Value Key_eq Key_countable) (only parsing).
Local Abbreviation HashOp := (@HashOp Key Value) (only parsing).
Local Abbreviation KHashFifoCache_new :=
  (@KHashFifoCache_new Key Value Key_eq Key_countable Key_init Value_init)
  (only parsing).
Local Abbreviation Hash := (Hash hashFunc) (only parsing).
Local Abbreviation sliceIndex := (sliceIndex hashFunc) (only parsing).
Local Abbreviation hash_put := (hash_put hashFunc) (only parsing).
Local Abbreviation hash_get := (hash_get hashFunc) (only parsing).
Local Abbreviation hash_get_value := (hash_get_value hashFunc) (only parsing).
Local Abbreviation hash_step := (hash_step hashFunc) (only parsing).
Local Abbreviation hash_run := (hash_run hashFunc) (only parsing).

Implicit Types (c : KHashFifoCache) (sh : KFifoCache).
Implicit Types (k : Key) (v : Value) (ops : list HashOp) (o : HashOp).

Lemma to_int_range z : in_int (to_int z).
Proof.
  unfold in_int, to_int, INT_MIN, INT_MAX.
  pose proof (Z.mod_pos_bound (z + 2 ^ 31) (2 ^ 32)). lia.
Qed.

(** What the constructor builds, when it returns. *)
Lemma KHashFifoCache_new_shape capacity sliceNum hw c :
  KHashFifoCache_new capacity sliceNum hw = Some c →
  ∃ sliceSize,
    c = mkKHashFifoCache capacity (sliceNum_ c)
          (replicate (Z.to_nat (sliceNum_ c)) (KFifoCache_new (to_int sliceSize)))
    ∧ sliceNum_ c = to_int (if decide (0 < sliceNum) then to_unsigned sliceNum
                            else hw).
Proof.
  unfold KHashFifoCache_new. intros Hc.
  destruct (size_t_of_double _) as [sz|]; [|done].
  injection Hc as <-. by exists sz.
Qed.

Lemma aput_elem C k v (q : list (Key * Value)) : 0 < C → (k, v) ∈ aput C k v q.
Proof.
  intros HC. unfold aput. rewrite decide_False by lia. case_decide.
  - by apply aupdate_elem.
  - apply elem_of_app. right. by apply list_elem_of_singleton.
Qed.

End ShardedFacts.

(** ** The slice size in binary64 arithmetic *)

Lemma digits2_pos_log2 p : Z.pos (digits2_pos p) = Z.log2 (Z.pos p) + 1.
Proof.
  induction p as [p IH|p IH|]; simpl; [| |done].
  - rewrite Pos2Z.inj_succ, IH. destruct p; simpl; lia.
  - rewrite Pos2Z.inj_succ, IH. destruct p; simpl; lia.
Qed.

Lemma digits2_pos_bounds p n :
  2 ^ (n - 1) ≤ Z.pos p < 2 ^ n → Z.pos (digits2_pos p) = n.
Proof.
  intros [Hlo Hhi]. rewrite digits2_pos_log2.
  assert (1 ≤ n).
  { destruct (decide (1 ≤ n)); [done|]. exfalso.
    assert (2 ^ n ≤ 2 ^ 0)
      by (destruct (decide (n = 0)) as [->|]; [done|rewrite Z.pow_neg_r; lia]).
    simpl in *. lia. }
  rewrite (Z.log2_unique (Z.pos p) (n - 1)); [lia|lia|].
  replace (Z.succ (n - 1)) with n by lia. done.
Qed.

Lemma digits2_pos_53 p : Z.pos (digits2_pos p) = 53 → 2 ^ 52 ≤ Z.pos p < 2 ^ 53.
Proof.
  rewrite digits2_pos_log2. intros E.
  pose proof (Z.log2_spec (Z.pos p) ltac:(lia)) as Hs.
  replace (Z.log2 (Z.pos p)) with 52 in Hs by lia. done.
Qed.

Lemma iter_xO_pow p k : Z.pos (Pos.iter xO p k) = Z.pos p * 2 ^ Z.pos k.
Proof.
  induction k as [|k IH] using Pos.peano_ind.
  - simpl. lia.
  - rewrite Pos.iter_succ, Pos2Z.inj_succ, Z.pow_succ_r by lia.
    rewrite Pos2Z.inj_xO, IH. lia.
Qed.

Lemma shl_align_spec p e e' :
  e' ≤ e → ∃ m, shl_align p e e' = (m, e') ∧ Z.pos m = Z.pos p * 2 ^ (e - e').
Proof.
  intros Hle. unfold shl_align. destruct (e' - e) as [|k|k] eqn:E.
  - exists p. replace e' with e by lia. rewrite Z.sub_diag. split; [done|lia].
  - lia.
  - eexists. split; [done|]. rewrite iter_xO_pow. f_equal. f_equal. lia.
Qed.

Lemma binary_round_aux_canonical s m e :
  Z.pos (digits2_pos m) = 53 → -1074 ≤ e ≤ 971 →
  binary_round_aux 53 1024 s (Z.pos m) e loc_Exact = S754_finite s m e.
Proof.
  intros Hd He. unfold binary_round_aux, shr_fexp.
  change (Zdigits2 (Z.pos m)) with (Z.pos (digits2_pos m)). rewrite Hd.
  replace (fexp 53 1024 (53 + e) - e) with 0 by (unfold fexp, emin; lia).
  simpl. rewrite Hd.
  replace (fexp 53 1024 (53 + e) - e) with 0 by (unfold fexp, emin; lia).
  simpl. destruct (e <=? 1024 - 53) eqn:E; [done|]. apply Z.leb_gt in E. lia.
Qed.

(** The binary64 value of an integer below [2^53] is that integer. *)
Lemma double_of_Z_pos z :
  0 < z < 2 ^ 53 →
  ∃ m e, double_of_Z z = S754_finite false m e
         ∧ Z.pos (digits2_pos m) = 53 ∧ -52 ≤ e ≤ 0
         ∧ Z.pos m = z * 2 ^ (- e).
Proof.
  intros [Hpos Hlt]. destruct z as [|p|p]; [lia| |lia].
  unfold double_of_Z, binary_normalize, binary_round.
  set (d := Z.pos (digits2_pos p)).
  assert (1 ≤ d ≤ 53) as Hd.
  { unfold d. rewrite digits2_pos_log2.
    pose proof (Z.log2_nonneg (Z.pos p)).
    pose proof (proj1 (Z.log2_lt_pow2 (Z.pos p) 53 ltac:(lia)) Hlt). lia. }
  replace (fexp 53 1024 (d + 0)) with (d - 53) by (unfold fexp, emin; lia).
  destruct (shl_align_spec p 0 (d - 53)) as (m & -> & Hm); [lia|].
  assert (2 ^ (d - 1) ≤ Z.pos p < 2 ^ d) as Hp.
  { unfold d. rewrite digits2_pos_log2.
    replace (Z.log2 (Z.pos p) + 1 - 1) with (Z.log2 (Z.pos p)) by lia.
    apply Z.log2_spec. lia. }
  assert (Z.pos (digits2_pos m) = 53) as Hdm.
  { apply digits2_pos_bounds. rewrite Hm.
    replace (0 - (d - 53)) with (53 - d) by lia.
    replace (2 ^ (53 - 1)) with (2 ^ (d - 1) * 2 ^ (53 - d))
      by (rewrite <-Z.pow_add_r by lia; f_equal; lia).
    replace (2 ^ 53) with (2 ^ d * 2 ^ (53 - d))
      by (rewrite <-Z.pow_add_r by lia; f_equal; lia).
    assert (0 < 2 ^ (53 - d)) by (apply Z.pow_pos_nonneg; lia).
    nia. }
  exists m, (d - 53). rewrite binary_round_aux_canonical by (done || lia).
  split_and!; try done; lia.
Qed.

Lemma new_location_ok my r : 0 ≤ r < my → loc_ok (new_location my r) r my.
Proof.
  intros Hr. unfold new_location, new_location_even, new_location_odd.
  destruct (Z.even my) eqn:Hev.
  - destruct (r =? 0) eqn:E; [by apply Z.eqb_eq in E|].
    apply Z.eqb_neq in E. simpl.
    destruct (Z.compare_spec (2 * r) my); simpl; lia.
  - destruct (r =? 0) eqn:E; [by apply Z.eqb_eq in E|].
    apply Z.eqb_neq in E.
    assert (Z.odd my = true) as [h Hh]%Z.odd_spec
      by (by rewrite <-Z.negb_even, Hev).
    destruct (Z.compare_spec (2 * r + 1) my); simpl; lia.
Qed.

Lemma binary_round_aux_finish s m e l :
  binary_round_aux 53 1024 s m e l =
  let '(mrs, e') := shr_fexp 53 1024 m e l in
  finish s (round_nearest_even (shr_m mrs) (loc_of_shr_record mrs)) e'.
Proof. unfold binary_round_aux, finish. by destruct (shr_fexp 53 1024 m e l). Qed.

Lemma shr_fexp_53 m e l :
  Z.pos (digits2_pos m) = 53 → -1074 ≤ e →
  shr_fexp 53 1024 (Z.pos m) e l = (shr_record_of_loc (Z.pos m) l, e).
Proof.
  intros Hd He. unfold shr_fexp.
  change (Zdigits2 (Z.pos m)) with (Z.pos (digits2_pos m)). rewrite Hd.
  replace (fexp 53 1024 (53 + e) - e) with 0 by (unfold fexp, emin; lia).
  done.
Qed.

Lemma shr_fexp_54 m e l :
  Z.pos (digits2_pos m) = 54 → -1074 ≤ e →
  shr_fexp 53 1024 (Z.pos m) e l = (shr_1 (shr_record_of_loc (Z.pos m) l), e + 1).
Proof.
  intros Hd He. unfold shr_fexp.
  change (Zdigits2 (Z.pos m)) with (Z.pos (digits2_pos m)). rewrite Hd.
  replace (fexp 53 1024 (54 + e) - e) with 1 by (unfold fexp, emin; lia).
  done.
Qed.

Lemma finish_spec s m e :
  2 ^ 52 ≤ m ≤ 2 ^ 53 → -1074 ≤ e ≤ 970 →
  ∃ M j, finish s m e = S754_finite s M (e + j)
         ∧ 2 ^ 52 ≤ Z.pos M < 2 ^ 53 ∧ 0 ≤ j ≤ 1 ∧ Z.pos M * 2 ^ j = m.
Proof.
  intros Hm He. destruct (decide (m = 2 ^ 53)) as [->|Hne].
  - exists (2 ^ 52)%positive, 1. unfold finish, shr_fexp.
    change (Zdigits2 (2 ^ 53)) with 54.
    replace (fexp 53 1024 (54 + e) - e) with 1 by (unfold fexp, emin; lia).
    simpl. destruct (e + 1 <=? 1024 - 53) eqn:E; [done|].
    apply Z.leb_gt in E. lia.
  - destruct m as [|M|M]; [simpl in Hm; lia| |lia].
    exists M, 0. unfold finish.
    rewrite shr_fexp_53 by (try apply digits2_pos_bounds; lia). simpl.
    rewrite Z.add_0_r. destruct (e <=? 1024 - 53) eqn:E; [|apply Z.leb_gt in E; lia].
    split_and!; try done; lia.
Qed.

(** Rounding a quotient [q] with remainder [r] (against [my]) of 53 or 54
    digits to 53 digits: the result is a nearest multiple of the last
    unit. *)
Lemma round_quotient q e r my :
  2 ^ 52 ≤ q ≤ 2 ^ 54 - 2 → -1074 ≤ e ≤ 900 → 0 ≤ r < my →
  ∃ M j,
    binary_round_aux 53 1024 false q e (new_location my r)
      = S754_finite false M (e + j)
    ∧ 2 ^ 52 ≤ Z.pos M < 2 ^ 53 ∧ 0 ≤ j ≤ 1
    ∧ 2 * Z.abs (Z.pos M * 2 ^ j * my - (q * my + r)) ≤ 2 ^ j * my.
Proof.
  intros Hq He Hr. pose proof (new_location_ok my r Hr) as Hloc.
  destruct q as [|qp|qp]; [simpl in Hq; lia| |lia].
  rewrite binary_round_aux_finish.
  destruct (decide (Z.pos qp < 2 ^ 53)) as [Hlt|Hge].
  - rewrite shr_fexp_53 by (try apply digits2_pos_bounds; lia).
    set (m0 := round_nearest_even _ _).
    assert (2 ^ 52 ≤ m0 ≤ 2 ^ 53
            ∧ 2 * Z.abs (m0 * my - (Z.pos qp * my + r)) ≤ my) as [Hm0 Hnear].
    { unfold m0.
      destruct (new_location my r) as [|[]]; unfold loc_ok in Hloc;
        unfold round_nearest_even;
        cbn [shr_m shr_record_of_loc loc_of_shr_record];
        try destruct (Z.even (Z.pos qp)); split; lia. }
    destruct (finish_spec false m0 e Hm0) as (M & j & -> & HM & Hj & E); [lia|].
    exists M, j. split_and!; try done; try lia. rewrite E.
    assert (j = 0 ∨ j = 1) as [-> | ->] by lia;
      [change (2 ^ 0) with 1|change (2 ^ 1) with 2]; lia.
  - rewrite shr_fexp_54 by (try apply digits2_pos_bounds; lia).
    set (m0 := round_nearest_even _ _).
    assert (2 ^ 52 ≤ m0 < 2 ^ 53
            ∧ 2 * Z.abs (m0 * 2 * my - (Z.pos qp * my + r)) ≤ 2 * my)
      as [Hm0 Hnear].
    { unfold m0.
      destruct qp as [p|p|]; [| |lia];
        destruct (new_location my r) as [|[]]; unfold loc_ok in Hloc;
        unfold round_nearest_even;
        cbn [shr_1 shr_m shr_record_of_loc loc_of_shr_record orb];
        try destruct (Z.even (Z.pos p)) eqn:Hev;
        try change (Z.pos p~1) with (2 * Z.pos p + 1) in *;
        try change (Z.pos p~0) with (2 * Z.pos p) in *; split; lia. }
    destruct (finish_spec false m0 (e + 1)) as (M & j & -> & HM & Hj & E);
      [lia|lia|].
    assert (j = 0) as ->.
    { destruct (decide (j = 0)); [done|]. assert (j = 1) as -> by lia.
      change (2 ^ 1) with 2 in E. lia. }
    exists M, 1. rewrite Z.add_0_r. rewrite Z.mul_1_r in E.
    split_and!; try done; lia.
Qed.

Lemma SFdiv_core_binary_53 mx ex my ey :
  Z.pos (digits2_pos mx) = 53 → Z.pos (digits2_pos my) = 53 →
  -1000 ≤ ex - ey ≤ 1000 →
  SFdiv_core_binary 53 1024 (Z.pos mx) ex (Z.pos my) ey
  = ((Z.pos mx * 2 ^ 53) `div` Z.pos my, ex - ey - 53,
     new_location (Z.pos my) ((Z.pos mx * 2 ^ 53) `mod` Z.pos my)).
Proof.
  intros Hx Hy He. unfold SFdiv_core_binary.
  change (Zdigits2 (Z.pos mx)) with (Z.pos (digits2_pos mx)).
  change (Zdigits2 (Z.pos my)) with (Z.pos (digits2_pos my)).
  rewrite Hx, Hy.
  replace (Z.min (fexp 53 1024 (53 + ex - (53 + ey))) (ex - ey))
    with (ex - ey - 53) by (unfold fexp, emin; lia).
  replace (ex - ey - (ex - ey - 53)) with 53 by lia.
  cbv zeta. cbv iota. rewrite Z.shiftl_mul_pow2 by lia.
  unfold Z.div, Z.modulo.
  by destruct (Z.div_eucl (Z.pos mx * 2 ^ 53) (Z.pos my)).
Qed.

(** The quotient of two positive binary64 values with full mantissas is a
    nearest binary64 value of the exact quotient. *)
Lemma double_div_nearest mx ex my ey :
  Z.pos (digits2_pos mx) = 53 → Z.pos (digits2_pos my) = 53 →
  -900 ≤ ex - ey ≤ 900 →
  ∃ M j,
    double_div (S754_finite false mx ex) (S754_finite false my ey)
      = S754_finite false M (ex - ey - 53 + j)
    ∧ 2 ^ 52 ≤ Z.pos M < 2 ^ 53 ∧ 0 ≤ j ≤ 1
    ∧ 2 * Z.abs (Z.pos M * 2 ^ j * Z.pos my - Z.pos mx * 2 ^ 53)
      ≤ 2 ^ j * Z.pos my.
Proof.
  intros Hx Hy He. unfold double_div, SFdiv.
  rewrite SFdiv_core_binary_53 by (done || lia).
  pose proof (digits2_pos_53 _ Hx) as Hmx.
  pose proof (digits2_pos_53 _ Hy) as Hmy.
  set (a := Z.pos mx * 2 ^ 53).
  pose proof (Z.div_mod a (Z.pos my) ltac:(lia)) as Hdm.
  pose proof (Z.mod_pos_bound a (Z.pos my) ltac:(lia)) as Hr.
  set (q := a `div` Z.pos my) in *. set (r := a `mod` Z.pos my) in *.
  assert (2 ^ 52 ≤ q ≤ 2 ^ 54 - 2) as Hq.
  { unfold a in Hdm. change (2 ^ 54) with (2 * 2 ^ 53).
    change (2 ^ 53) with (2 * 2 ^ 52) in *. nia. }
  destruct (round_quotient q (ex - ey - 53) r (Z.pos my) Hq) as (M & j & HE & HM & Hj & Hn);
    [lia|done|].
  exists M, j. simpl xorb. rewrite HE. split_and!; try done; lia.
Qed.

(** An integer below [2^53] survives the conversion to [double] and
    back. *)
Lemma size_t_of_double_of_Z z :
  0 ≤ z < 2 ^ 53 → size_t_of_double (double_of_Z z) = Some z.
Proof.
  intros Hz. destruct (decide (z = 0)) as [->|Hne]; [done|].
  destruct (double_of_Z_pos z) as (m & e & -> & _ & He & Hm); [lia|].
  unfold size_t_of_double. rewrite Hm.
  assert (0 < 2 ^ (- e)) by (apply Z.pow_pos_nonneg; lia).
  assert ((if decide (0 ≤ e) then z * 2 ^ (- e) * 2 ^ e
           else (z * 2 ^ (- e)) `div` 2 ^ (- e)) = z) as ->.
  { case_decide.
    - replace e with 0 by lia. simpl. lia.
    - apply Z.div_mul. lia. }
  rewrite decide_True; [done|]. unfold size_t_modulus. lia.
Qed.

(** A nearest 53-bit approximation [M / 2^K] of [T / N] has the same
    ceiling as [T / N] when [T] is below [2^53]. *)
Lemma ceil_nearest M K T N :
  0 ≤ K → 2 ^ 52 ≤ M → 0 < T < 2 ^ 53 → 0 < N →
  2 * Z.abs (M * N - T * 2 ^ K) ≤ N →
  - ((- M) `div` 2 ^ K) = (T + N - 1) `div` N.
Proof.
  intros HK HM HT HN Hnear.
  set (c := (T + N - 1) `div` N).
  assert (0 < 2 ^ K) as HP by (apply Z.pow_pos_nonneg; lia).
  set (P := 2 ^ K) in *.
  pose proof (Z.div_mod (T + N - 1) N ltac:(lia)) as Hdm.
  pose proof (Z.mod_pos_bound (T + N - 1) N ltac:(lia)) as Hr.
  fold c in Hdm.
  assert ((c - 1) * N < T ≤ c * N) as [Hc1 Hc2] by lia.
  assert (0 < c) by nia.
  assert (M ≤ c * P) as Hup.
  { destruct (decide (M ≤ c * P)); [done|]. exfalso.
    assert (c * P + 1 ≤ M) by lia.
    assert (T * P ≤ c * N * P) by nia.
    assert ((c * P + 1) * N ≤ M * N) by nia. lia. }
  assert ((c - 1) * P < M) as Hlo.
  { destruct (decide ((c - 1) * P < M)); [done|]. exfalso.
    assert (M ≤ (c - 1) * P) by lia.
    assert (((c - 1) * N + 1) * P ≤ T * P) by nia.
    assert (M * N ≤ (c - 1) * P * N) by nia.
    assert (2 * P ≤ N) by lia.
    assert (1 ≤ c - 1) by nia.
    assert ((c - 1) * (2 * P) ≤ (c - 1) * N) by nia.
    change (2 ^ 53) with (2 * 2 ^ 52) in HT. lia. }
  assert ((- M) `div` P = - c); [|lia].
  symmetry. apply (Z.div_unique_pos (- M) P (- c) (c * P - M)); lia.
Qed.

(** The slice size the constructor computes: exactly the ceiling of the
    quotient, for a capacity below [2^53]. *)
Lemma slice_size_exact T N :
  0 ≤ T < 2 ^ 53 → 0 < N < 2 ^ 31 →
  size_t_of_double (double_ceil (double_div (double_of_Z T) (double_of_Z N)))
  = Some ((T + N - 1) `div` N).
Proof.
  intros HT HN.
  destruct (double_of_Z_pos N) as (my & ey & -> & Hdy & Hey & Hmy); [lia|].
  destruct (decide (T = 0)) as [->|Hne].
  { rewrite Z.div_small by lia. done. }
  destruct (double_of_Z_pos T) as (mx & ex & -> & Hdx & Hex & Hmx); [lia|].
  destruct (double_div_nearest mx ex my ey Hdx Hdy) as (M & j & -> & HM & Hj & Hn);
    [lia|].
  set (E := ex - ey - 53 + j) in *.
  assert (E ≤ 0) as HE by (unfold E; lia).
  set (K := - E).
  assert (2 * Z.abs (Z.pos M * N - T * 2 ^ K) ≤ N) as Hnear.
  { rewrite Hmx, Hmy in Hn.
    set (P := 2 ^ (j - ey)).
    assert (0 < P) by (apply Z.pow_pos_nonneg; lia).
    assert (2 ^ j * (N * 2 ^ (- ey)) = P * N) as E1.
    { unfold P. replace (j - ey) with (j + - ey) by lia.
      rewrite Z.pow_add_r by lia. lia. }
    assert (T * 2 ^ (- ex) * 2 ^ 53 = P * (T * 2 ^ K)) as E2.
    { transitivity (T * 2 ^ (53 - ex)).
      - rewrite <-Z.mul_assoc, <-Z.pow_add_r by lia. f_equal. f_equal. lia.
      - replace (P * (T * 2 ^ K)) with (T * (2 ^ (j - ey) * 2 ^ K))
          by (unfold P; lia).
        rewrite <-Z.pow_add_r by (unfold K; lia).
        f_equal. f_equal. unfold K, E. lia. }
    assert (Z.pos M * 2 ^ j * (N * 2 ^ (- ey)) = P * (Z.pos M * N)) as E3.
    { rewrite <-Z.mul_assoc, E1. lia. }
    rewrite E1, E2, E3, <-Z.mul_sub_distr_l, Z.abs_mul in Hn.
    rewrite (Z.abs_eq P) in Hn by lia. nia. }
  pose proof (ceil_nearest (Z.pos M) K T N ltac:(unfold K; lia) ltac:(lia)
                ltac:(lia) ltac:(lia) Hnear) as Hceil.
  unfold double_ceil. case_decide as HE0.
  - assert (E = 0) as HE1 by lia. unfold K in Hceil. rewrite HE1 in Hceil |- *.
    change (2 ^ (- 0)) with 1 in Hceil. rewrite Z.div_1_r in Hceil.
    unfold size_t_of_double. destruct (decide (0 ≤ 0)); [|lia].
    change (2 ^ 0) with 1. rewrite Z.mul_1_r.
    rewrite decide_True by (unfold size_t_modulus; lia).
    f_equal. lia.
  - fold K. change (- Z.pos M) with (Z.neg M). rewrite <-Pos2Z.opp_pos.
    rewrite Hceil. apply size_t_of_double_of_Z.
    pose proof (Z.div_mod (T + N - 1) N ltac:(lia)).
    pose proof (Z.mod_pos_bound (T + N - 1) N ltac:(lia)). nia.
Qed.

Section ShardedConstruction.
Context {Key Value : Type} {Key_eq : EqDecision Key} {Key_countable : Countable Key}.
Context {Key_init : ValueInit Key} {Value_init : ValueInit Value}.
Context (hashFunc : Key → Z).

Lemma to_int_small z : INT_MIN ≤ z ≤ INT_MAX → to_int z = z.
Proof.
  unfold INT_MIN, INT_MAX, to_int. intros Hz.
  rewrite Z.mod_small; lia.
Qed.

Lemma to_unsigned_small z : 0 ≤ z ≤ INT_MAX → to_unsigned z = z.
Proof.
  unfold INT_MAX, to_unsigned. intros Hz. apply Z.mod_small. lia.
Qed.

Lemma sum_capacity_replicate n (sh : @KFifoCache Key Value _ _) :
  foldr Z.add 0 (capacity_ <$> replicate n sh) = Z.of_nat n * capacity_ sh.
Proof.
  induction n as [|n IH]; [done|].
  change (capacity_ <$> replicate (S n) sh)
    with (capacity_ sh :: (capacity_ <$> replicate n sh)).
  cbn [foldr]. rewrite IH. lia.
Qed.

(** A put of the sharded cache touches one shard only. *)
Lemma hash_put_frame (c c' : @KHashFifoCache Key Value _ _) (k : Key)
    (v : Value) :
  hash_put hashFunc k v c = Some c' →
  ∃ i, sliceIndex hashFunc k c = Some i
       ∧ ∀ i', i' ≠ i → fifoSliceCaches_ c' !! i' = fifoSliceCaches_ c !! i'.
Proof.
  unfold hash_put. intros Hp.
  destruct (sliceIndex hashFunc k c) as [i|]; [|done]. simpl in Hp.
  destruct (fifoSliceCaches_ c !! i) as [sh|]; [|done]. simpl in Hp.
  destruct (put k v sh) as [sh'|]; [|done]. injection Hp as <-.
  exists i. split; [done|]. intros i' Hne. simpl.
  by rewrite list_lookup_insert_ne.
Qed.

(** C9, as the code has it: for a total capacity [T] below [2^53] and a
    shard count [N > 0] with [ceil(T / N)] within [int], the constructor
    returns a cache of exactly [N] shards, each a new cache of capacity
    [ceil(T / N)], a put changing one shard only; the capacities add up to
    [N * ceil(T / N)], which is at least [T] and more than [T] exactly
    when [N] does not divide [T]; for [N <= 0] the constructor does what
    it does for the shard count the host reports, when that is between 1
    and [INT_MAX]; when the host reports 0 the conversion of the slice size
    is undefined. *)
Theorem C9_shard_capacity (T : Z) :
  0 ≤ T < 2 ^ 53 →
  (∀ N hw, 0 < N ≤ INT_MAX → (T + N - 1) `div` N ≤ INT_MAX →
     ∃ c : @KHashFifoCache Key Value _ _,
       KHashFifoCache_new T N hw = Some c
       ∧ hash_capacity_ c = T ∧ sliceNum_ c = N
       ∧ fifoSliceCaches_ c
         = replicate (Z.to_nat N) (KFifoCache_new ((T + N - 1) `div` N))
       ∧ Z.of_nat (length (fifoSliceCaches_ c)) = N
       ∧ Forall (λ sh, capacity_ sh = (T + N - 1) `div` N ∧ queue sh = [])
                (fifoSliceCaches_ c)
       ∧ (∀ k v c', hash_put hashFunc k v c = Some c' →
            ∃ i, sliceIndex hashFunc k c = Some i
                 ∧ ∀ i', i' ≠ i →
                     fifoSliceCaches_ c' !! i' = fifoSliceCaches_ c !! i')
       ∧ foldr Z.add 0 (capacity_ <$> fifoSliceCaches_ c)
         = N * ((T + N - 1) `div` N)
       ∧ ((T + N - 1) `div` N - 1) * N < T ≤ (T + N - 1) `div` N * N
       ∧ (T `mod` N ≠ 0 ↔ T < N * ((T + N - 1) `div` N)))
  ∧ (∀ N hw, N ≤ 0 → 0 < hw ≤ INT_MAX →
       KHashFifoCache_new (Key:=Key) (Value:=Value) T N hw
       = KHashFifoCache_new T hw hw)
  ∧ (∀ N, N ≤ 0 → KHashFifoCache_new (Key:=Key) (Value:=Value) T N 0 = None).
Proof.
  intros HT. split_and!.
  - intros N hw HN Hceil. set (cap := (T + N - 1) `div` N) in *.
    pose proof (Z.div_mod (T + N - 1) N ltac:(lia)) as Hdm.
    pose proof (Z.mod_pos_bound (T + N - 1) N ltac:(lia)) as Hr.
    fold cap in Hdm.
    assert (0 ≤ cap) by nia.
    unfold KHashFifoCache_new. rewrite decide_True by lia.
    rewrite to_unsigned_small, to_int_small by (unfold INT_MIN, INT_MAX in *; lia).
    rewrite slice_size_exact by (unfold INT_MAX in HN; lia).
    fold cap. cbn [mbind option_bind].
    rewrite (to_int_small cap) by (unfold INT_MIN; lia).
    eexists. split; [done|]. cbn [hash_capacity_ sliceNum_ fifoSliceCaches_].
    split_and!; try done.
    + rewrite length_replicate. lia.
    + apply Forall_forall. by intros sh [-> _]%elem_of_replicate.
    + intros k v c'. apply hash_put_frame.
    + rewrite sum_capacity_replicate. simpl. lia.
    + lia.
    + lia.
    + pose proof (Z.div_mod T N ltac:(lia)) as Hdm'.
      pose proof (Z.mod_pos_bound T N ltac:(lia)) as Hr'.
      split.
      * intros Hne. destruct (decide (T < N * cap)); [done|]. exfalso.
        assert (T = N * cap) as E by lia.
        apply Hne. rewrite E, Z.mul_comm. apply Z.mod_mul. lia.
      * intros Hlt E. assert (T = N * (T `div` N)) as E' by lia.
        set (d := T `div` N) in *.
        assert (N * (cap - d) < N * 1) by lia.
        assert (cap - d < 1) by (eapply Z.mul_lt_mono_pos_l; [|done]; lia).
        nia.
  - intros N hw HN Hhw. unfold KHashFifoCache_new.
    rewrite decide_False, decide_True by lia.
    by rewrite to_unsigned_small by lia.
  - intros N HN. unfold KHashFifoCache_new. rewrite decide_False by lia.
    change (double_of_Z (to_int 0)) with (S754_zero false).
    destruct (decide (T = 0)) as [->|Hne]; [done|].
    by destruct (double_of_Z_pos T) as (m & e & -> & _); [lia|].
Qed.

End ShardedConstruction.

(** * Further properties of the single cache *)

Section FifoMoreFacts.
Context {Key Value : Type} {Key_eq : EqDecision Key} {Key_countable : Countable Key}.
Context {Key_init : ValueInit Key} {Value_init : ValueInit Value}.

#[local] Set Warnings "-clear-no-such-hyp".

Local Abbreviation FifoNode := (@FifoNode Key Value) (only parsing).
Local Abbreviation KFifoCache := (@KFifoCache Key Value Key_eq Key_countable)
  (only parsing).
Local Abbreviation Op := (@Op Key Value) (only parsing).
Local Abbreviation KFifoCache_new :=
  (@KFifoCache_new Key Value Key_eq Key_countable Key_init Value_init)
  (only parsing).

Implicit Types (s : KFifoCache) (σ : gmap NodePtr FifoNode).
Implicit Types (k : Key) (v : Value) (ops : list Op) (o : Op).

(** ** The members no operation touches *)

Lemma same_frame_refl s : same_frame s s.
Proof. done. Qed.

Lemma same_frame_trans s1 s2 s3 :
  same_frame s1 s2 → same_frame s2 s3 → same_frame s1 s3.
Proof. unfold same_frame. intros (?&?&?) (?&?&?). split_and!; congruence. Qed.

Lemma release_fuel_frame fuel p s : same_frame s (release_fuel fuel p s).
Proof.
  revert p s. induction fuel as [|fuel IH]; intros p s; [done|]. simpl.
  destruct (has_owner p s); [done|].
  destruct (cells_ s !! p) as [n|]; [|done].
  destruct (next_ n) as [q|]; [|done].
  eapply same_frame_trans; [|apply IH]. done.
Qed.

Lemma removeNode_frame p s s' : removeNode p s = Some s' → same_frame s s'.
Proof.
  unfold removeNode. intros Hr.
  destruct (cells_ s !! p) as [n0|]; [|done]. cbn [mbind option_bind] in Hr.
  destruct (negb _ && _); [|by injection Hr as <-].
  repeat (match type of Hr with
          | (?m ≫= _) = Some _ =>
              destruct m; [cbn [mbind option_bind] in Hr|done]
          end).
  by injection Hr as <-.
Qed.

Lemma enqueueNode_frame p s s' : enqueueNode p s = Some s' → same_frame s s'.
Proof.
  unfold enqueueNode. cbv zeta. intros Hr.
  repeat (match type of Hr with
          | (?m ≫= _) = Some _ =>
              destruct m; [cbn [mbind option_bind] in Hr|done]
          end).
  by injection Hr as <-.
Qed.

Lemma evictOldest_frame s s' : evictOldest s = Some s' → same_frame s s'.
Proof.
  unfold evictOldest. intros Hr.
  destruct (cells_ s !! dummyHead_ s) as [h|]; [|done].
  cbn [mbind option_bind] in Hr.
  destruct (next_ h) as [o|]; [|done]. cbn [mbind option_bind] in Hr.
  destruct (removeNode o s) as [s1|] eqn:Hrm; [|done].
  cbn [mbind option_bind] in Hr.
  destruct (cells_ s1 !! o) as [on|]; [|done]. injection Hr as <-.
  eapply same_frame_trans; [by eapply removeNode_frame|].
  eapply same_frame_trans; [|apply release_fuel_frame]. done.
Qed.

Lemma put_frame k v s s' : put k v s = Some s' → same_frame s s'.
Proof.
  unfold put. case_decide; [by intros [= <-]|].
  destruct (nodeMap_ s !! k) as [p|].
  - unfold updateExistingNode. destruct (cells_ s !! p); [|done].
    by intros [= <-].
  - unfold addNewNode.
    destruct (if decide _ then evictOldest s else Some s) as [s1|] eqn:E1;
      [|done].
    cbn [mbind option_bind]. unfold make_shared.
    destruct (enqueueNode _ _) as [s3|] eqn:E3; [|done].
    intros [= <-]. apply enqueueNode_frame in E3.
    assert (same_frame s s1) as F1.
    { case_decide; [by apply evictOldest_frame|by injection E1 as <-]. }
    eapply same_frame_trans; [exact F1|].
    eapply same_frame_trans; [|eapply same_frame_trans; [exact E3|done]].
    done.
Qed.

Lemma remove_frame k s s' : remove k s = Some s' → same_frame s s'.
Proof.
  unfold remove. destruct (nodeMap_ s !! k) as [p|]; [|by intros [= <-]].
  destruct (removeNode p s) as [s1|] eqn:Hrm; [|done]. intros [= <-].
  eapply same_frame_trans; [by eapply removeNode_frame|].
  eapply same_frame_trans; [|apply release_fuel_frame]. done.
Qed.

Lemma get_frame k v s b x s' : get k v s = Some (b, x, s') → s' = s.
Proof.
  unfold get. destruct (nodeMap_ s !! k) as [p|]; [|by intros [= _ _ <-]].
  destruct (cells_ s !! p); [|done]. by intros [= _ _ <-].
Qed.

Lemma step_frame o s s' : step o s = Some s' → same_frame s s'.
Proof.
  destruct o as [k v|k v|k|k]; simpl.
  - apply put_frame.
  - destruct (get k v s) as [[[b x] s1]|] eqn:Hg; [|done].
    intros [= <-]. by rewrite (get_frame _ _ _ _ _ _ Hg).
  - unfold get_value.
    destruct (get k value_init s) as [[[b x] s1]|] eqn:Hg; [|done].
    intros [= <-]. by rewrite (get_frame _ _ _ _ _ _ Hg).
  - apply remove_frame.
Qed.

Lemma run_frame ops s s' : run ops s = Some s' → same_frame s s'.
Proof.
  revert s. induction ops as [|o ops IH]; intros s; [by intros [= <-]|].
  simpl. destruct (step o s) as [s1|] eqn:Hs; [|done].
  cbn [mbind option_bind]. intros Hr.
  eapply same_frame_trans; [by eapply step_frame|by apply IH].
Qed.

(** ** The live nodes and the back links *)

(** X1: in every state reached from construction the live nodes are the
    two sentinels and the nodes of the queue, nothing else: an evicted or
    removed node is destroyed, and there are two more live nodes than
    entries. *)
Theorem X1_live_nodes (C : Z) ops s :
  in_int C →
  run ops (KFifoCache_new C) = Some s →
  dom (cells_ s)
  = {[dummyHead_ s; dummyTail_ s]} ∪ list_to_set (queue_nodes s)
  ∧ size (cells_ s) = S (S (entry_count s))
  ∧ length (queue_nodes s) = entry_count s.
Proof.
  intros Hint Hrun.
  destruct (reachable_abs _ _ _ Hint Hrun) as [(l & Hinv & _) _].
  rewrite (inv_queue_nodes _ _ Hinv), (inv_dom _ _ Hinv).
  unfold entry_count. rewrite (inv_size_cells _ _ Hinv), (inv_size _ _ Hinv).
  split; [|done]. unfold chain.
  rewrite list_to_set_cons, list_to_set_app_L. set_solver.
Qed.

Lemma linked_pair σ prev (x : list NodePtr) a b y :
  linked σ prev (x ++ a :: b :: y) →
  ∃ an bn, σ !! a = Some an ∧ σ !! b = Some bn
           ∧ next_ an = Some b ∧ prev_ bn = Some a.
Proof.
  revert prev. induction x as [|z x IH]; intros prev.
  - intros (an & Ha & _ & Hn & bn & Hb & Hp & _). by exists an, bn.
  - intros (_ & _ & _ & _ & Hl). eauto.
Qed.

Lemma last_cons_default {A} (x : A) l : last (x :: l) = Some (default x (last l)).
Proof. rewrite last_cons. by destruct (last l). Qed.

Lemma walk_back_linked σ hd l tl :
  linked σ None (hd :: l ++ [tl]) → NoDup (hd :: l ++ [tl]) →
  ∀ l1 l2 fuel,
    l = l1 ++ l2 → (length l1 < fuel)%nat →
    walk_back fuel σ hd (Some (default hd (last l1))) = reverse l1.
Proof.
  intros Hl Hnd l1.
  induction l1 as [|a l1 IH] using rev_ind; intros l2 fuel El Hf.
  - destruct fuel; [simpl in Hf; lia|]. simpl.
    destruct Hl as (hn & Hh & _). unfold lock.
    rewrite decide_True by (by eexists). by rewrite decide_True.
  - destruct fuel; [rewrite length_app in Hf; simpl in Hf; lia|].
    rewrite last_snoc, reverse_snoc. simpl.
    assert (a ∈ hd :: l ++ [tl]) as Hin by (rewrite El; set_solver).
    destruct (linked_alive _ _ _ _ Hl Hin) as [an Ha].
    unfold lock. rewrite decide_True by (by eexists).
    pose proof Hnd as [Hhd _]%list.NoDup_cons.
    rewrite decide_False by (intros ->; apply Hhd; rewrite El; set_solver).
    rewrite Ha. f_equal.
    destruct (cons_as_snoc hd l1) as (x & pa & E).
    assert (pa = default hd (last l1)) as Hpa.
    { pose proof (last_cons_default hd l1) as E'. rewrite E, last_snoc in E'.
      by injection E'. }
    assert (hd :: l ++ [tl] = x ++ pa :: a :: (l2 ++ [tl])) as E2.
    { rewrite El, <-!app_assoc, app_comm_cons, E. by rewrite <-!app_assoc. }
    pose proof Hl as Hl'. rewrite E2 in Hl'.
    destruct (linked_pair _ _ _ _ _ _ Hl') as (pn & an' & _ & Ha' & _ & Hprev).
    rewrite Ha in Ha'. injection Ha' as <-. rewrite Hprev, Hpa.
    apply (IH (a :: l2)).
    + by rewrite El, <-app_assoc.
    + rewrite length_app in Hf. simpl in Hf. lia.
Qed.

(** X2: in every state reached from construction the weak back links are
    all alive and mirror the forward links: following [prev_.lock()] from
    the tail sentinel back to the head sentinel meets the nodes of the
    queue in reverse order. *)
Theorem X2_back_links_mirror_queue (C : Z) ops s :
  in_int C →
  run ops (KFifoCache_new C) = Some s →
  queue_nodes_back s = reverse (queue_nodes s).
Proof.
  intros Hint Hrun.
  destruct (reachable_abs _ _ _ Hint Hrun) as [(l & Hinv & _) _].
  rewrite (inv_queue_nodes _ _ Hinv). unfold queue_nodes_back.
  pose proof (inv_linked _ _ Hinv) as Hl. pose proof (inv_nodup _ _ Hinv) as Hnd.
  unfold chain in Hl, Hnd.
  destruct (cons_as_snoc (dummyHead_ s) l) as (x & pa & E).
  assert (pa = default (dummyHead_ s) (last l)) as Hpa.
  { pose proof (last_cons_default (dummyHead_ s) l) as E'.
    rewrite E, last_snoc in E'. by injection E'. }
  assert (dummyHead_ s :: l ++ [dummyTail_ s] = x ++ pa :: dummyTail_ s :: [])
    as E2 by (rewrite app_comm_cons, E; by rewrite <-app_assoc).
  pose proof Hl as Hl'. rewrite E2 in Hl'.
  destruct (linked_pair _ _ _ _ _ _ Hl') as (pn & tn & _ & Ht & _ & Hprev).
  rewrite Ht. cbn [mbind option_bind]. rewrite Hprev, Hpa.
  apply (walk_back_linked _ _ l (dummyTail_ s) Hl Hnd l []).
  - by rewrite app_nil_r.
  - rewrite (inv_size_cells _ _ Hinv). lia.
Qed.

(** ** The sentinels *)

(** X3: the two sentinels of a cache never change and never count as
    entries: in every state reached from construction they are the nodes
    the constructor made, they are not in the queue and no key maps to them;
    [removeNode] applied to either of them changes nothing, and
    [evictOldest] on an empty queue changes nothing. *)
Theorem X3_sentinels_stay (C : Z) ops s :
  in_int C →
  run ops (KFifoCache_new C) = Some s →
  same_frame (KFifoCache_new C) s
  ∧ (dummyHead_ s ∉ queue_nodes s) ∧ (dummyTail_ s ∉ queue_nodes s)
  ∧ (∀ k p, nodeMap_ s !! k = Some p → p ≠ dummyHead_ s ∧ p ≠ dummyTail_ s)
  ∧ removeNode (dummyHead_ s) s = Some s
  ∧ removeNode (dummyTail_ s) s = Some s
  ∧ (queue s = [] → evictOldest s = Some s).
Proof.
  intros Hint Hrun. pose proof (run_frame _ _ _ Hrun) as Hframe.
  destruct (reachable_abs _ _ _ Hint Hrun) as [Habs _].
  pose proof (abs_queue _ _ Habs) as Hq. pose proof (abs_length _ _ Habs) as Hlen.
  destruct Habs as (l & Hinv & Hf2).
  rewrite (inv_queue_nodes _ _ Hinv).
  pose proof (inv_nodup _ _ Hinv) as Hnd. unfold chain in Hnd.
  apply list.NoDup_cons in Hnd as [Hhd Hnd]. apply NoDup_app in Hnd as (_ & Htl & _).
  assert (dummyHead_ s ∉ l) as Hh by (intros ?; apply Hhd; set_solver).
  assert (dummyTail_ s ∉ l) as Ht by (intros Hin; apply (Htl _ Hin); set_solver).
  destruct (inv_linked _ _ Hinv) as (hn & Hhn & Hhp & Hhnext & _).
  destruct (cons_as_snoc (dummyHead_ s) l) as (x & pa & E).
  assert (linked (cells_ s) None (x ++ pa :: dummyTail_ s :: [])) as Hl'.
  { pose proof (inv_linked _ _ Hinv) as Hl. unfold chain in Hl.
    rewrite app_comm_cons, E, <-app_assoc in Hl. done. }
  destruct (linked_last _ _ _ _ _ Hl') as (pn & tn & Hpn & Htn & _ & Htp & Htnext).
  assert (removeNode (dummyTail_ s) s = Some s) as Hrt.
  { unfold removeNode. rewrite Htn. cbn [mbind option_bind].
    rewrite Htnext. rewrite bool_decide_false by (by intros [? ?]).
    by rewrite andb_false_r. }
  split_and!; [done|done|done| | |done|].
  - intros k p [Hp _]%(inv_index _ _ Hinv). split; by intros ->.
  - unfold removeNode. rewrite Hhn. cbn [mbind option_bind]. by rewrite Hhp.
  - intros Hempty. rewrite Hq in Hempty. rewrite Hempty in Hf2, Hlen.
    apply Forall2_nil_inv_r in Hf2 as ->.
    assert (nodeMap_ s = ∅) as Hm by (by apply map_size_empty_inv).
    unfold evictOldest. rewrite Hhn. cbn [mbind option_bind].
    rewrite Hhnext. cbn [head app mbind option_bind]. rewrite Hrt.
    cbn [mbind option_bind]. rewrite Htn. cbn [mbind option_bind].
    rewrite Hm, delete_empty.
    assert (with_nodeMap ∅ s = s) as -> by (destruct s; simpl in *; by subst).
    unfold release. destruct (size (cells_ s)); [done|]. simpl.
    unfold has_owner. rewrite (bool_decide_true (_ = dummyTail_ s)) by done.
    by rewrite orb_true_r.
Qed.

(** X4: in every state reached from construction the keys of the queue
    are pairwise distinct, and the queue has exactly as many entries as the
    index. *)
Theorem X4_keys_distinct (C : Z) ops s :
  in_int C →
  run ops (KFifoCache_new C) = Some s →
  NoDup (queue s).*1
  ∧ length (queue s) = entry_count s
  ∧ NoDup (queue_nodes s).
Proof.
  intros Hint Hrun.
  destruct (reachable_abs _ _ _ Hint Hrun) as [Habs _].
  rewrite (abs_queue _ _ Habs). split; [by eapply abs_NoDup|].
  split; [symmetry; by apply abs_length|].
  destruct Habs as (l & Hinv & _). rewrite (inv_queue_nodes _ _ Hinv).
  pose proof (inv_nodup _ _ Hinv) as Hnd. unfold chain in Hnd.
  apply list.NoDup_cons in Hnd as [_ Hnd]. by apply NoDup_app in Hnd as [? _].
Qed.

(** ** Put, get and remove together *)

Lemma aupdate_other (k k' : Key) (v x : Value) (q : list (Key * Value)) :
  k' ≠ k → (k', x) ∈ aupdate k v q ↔ (k', x) ∈ q.
Proof.
  intros Hne. unfold aupdate. rewrite list_elem_of_fmap. split.
  - intros ([k1 x1] & E & Hin). simpl in E. case_decide; simplify_eq; done.
  - intros Hin. exists (k', x). simpl. by rewrite decide_False.
Qed.

Lemma elem_of_tail {A} (a : A) (l : list A) : a ∈ tail l → a ∈ l.
Proof. destruct l; [done|]. simpl. intros. apply elem_of_cons. by right. Qed.

Lemma aput_keys C (k k' : Key) (v : Value) (q : list (Key * Value)) :
  k' ∈ (aput C k v q).*1 → k' = k ∨ k' ∈ q.*1.
Proof.
  unfold aput. repeat case_decide.
  - by right.
  - rewrite aupdate_keys. by right.
  - rewrite fmap_app. intros [Hin|Hin]%elem_of_app.
    + right. destruct q as [|kv q]; [done|]. simpl in *.
      apply elem_of_cons. by right.
    + left. by apply list_elem_of_singleton in Hin.
  - rewrite fmap_app. intros [Hin|Hin]%elem_of_app; [by right|].
    left. by apply list_elem_of_singleton in Hin.
Qed.

(** What a put does to the entries under other keys. *)
Lemma aput_other C (k k' : Key) (v x : Value) (q : list (Key * Value)) :
  k' ≠ k →
  ((k', x) ∈ aput C k v q → (k', x) ∈ q)
  ∧ ((k', x) ∈ q →
     (k', x) ∈ aput C k v q
     ∨ (head q = Some (k', x) ∧ (k ∉ q.*1) ∧ C ≤ Z.of_nat (length q))).
Proof.
  intros Hne. unfold aput. repeat case_decide.
  - split; [done|by left].
  - rewrite aupdate_other by done. split; [done|by left].
  - split.
    + intros [Hin|Hin]%elem_of_app; [by apply elem_of_tail|].
      apply list_elem_of_singleton in Hin. by simplify_eq.
    + destruct q as [|kv q]; [by intros ?%elem_of_nil|].
      intros [->|Hin]%elem_of_cons; [by right|].
      left. apply elem_of_app. by left.
  - split.
    + intros [Hin|Hin]%elem_of_app; [done|].
      apply list_elem_of_singleton in Hin. by simplify_eq.
    + intros Hin. left. apply elem_of_app. by left.
Qed.

(** Two well-formed objects holding the same entry, or none, under [k]
    answer a get of [k] alike. *)
Lemma get_agree s s' (q q' : list (Key * Value)) k v0 :
  abs s q → abs s' q' → (∀ x, (k, x) ∈ q ↔ (k, x) ∈ q') →
  fst <$> get k v0 s = fst <$> get k v0 s'.
Proof.
  intros Habs Habs' Hq.
  destruct (nodeMap_ s !! k) as [p|] eqn:Hm.
  - destruct (abs_contains_entry _ _ k Habs) as [x Hx]; [by eexists|].
    rewrite (get_present _ _ _ _ v0 Habs Hx).
    by rewrite (get_present _ _ _ _ v0 Habs' (proj1 (Hq x) Hx)).
  - rewrite (get_absent _ _ v0 Hm).
    destruct (nodeMap_ s' !! k) as [p|] eqn:Hm'; [|by rewrite (get_absent _ _ v0 Hm')].
    destruct (abs_contains_entry _ _ k Habs') as [x Hx]; [by eexists|].
    apply Hq in Hx.
    assert (is_Some (nodeMap_ s !! k)) as [? ?]; [|congruence].
    apply (abs_contains _ _ _ Habs). apply list_elem_of_fmap. by exists (k, x).
Qed.

(** X5: on a cache of capacity at least 1, a put of [(k, v)] is followed
    by a hit: both forms of get return [v] for [k] right after it. *)
Theorem X5_put_then_get (C : Z) ops s k v v0 :
  1 ≤ C ≤ INT_MAX →
  run ops (KFifoCache_new C) = Some s →
  ∃ s', put k v s = Some s'
        ∧ contains k s' = true
        ∧ get k v0 s' = Some (true, v, s')
        ∧ get_value k s' = Some (v, s').
Proof.
  intros HC Hrun. assert (in_int C) as Hint by (unfold in_int, INT_MIN; lia).
  destruct (reachable_abs _ _ _ Hint Hrun) as [Habs Hcap].
  destruct (put_abs _ _ k v Habs) as (s' & Hput & Habs' & _).
  assert ((k, v) ∈ aput (capacity_ s) k v (arun C ops [])) as Hin
    by (apply aput_elem; lia).
  exists s'. split_and!; [done| | |].
  - apply (contains_true _ _ _ Habs'). apply list_elem_of_fmap. by exists (k, v).
  - by eapply get_present.
  - eapply get_value_get. by eapply get_present.
Qed.

(** X6: a put of key [k] leaves the entries of the other keys as they
    are, except that a put of a new key into a full cache drops the entry
    at the head of the queue: no other entry appears, changes its value or
    disappears. *)
Theorem X6_put_other_keys (C : Z) ops s k v :
  in_int C →
  run ops (KFifoCache_new C) = Some s →
  ∃ s', put k v s = Some s'
        ∧ ∀ k' x, k' ≠ k →
            ((k', x) ∈ queue s' → (k', x) ∈ queue s)
            ∧ ((k', x) ∈ queue s →
               (k', x) ∈ queue s'
               ∨ (head (queue s) = Some (k', x) ∧ contains k s = false
                  ∧ C ≤ Z.of_nat (entry_count s))).
Proof.
  intros Hint Hrun.
  destruct (reachable_abs _ _ _ Hint Hrun) as [Habs Hcap].
  destruct (put_abs _ _ k v Habs) as (s' & Hput & Habs' & _).
  exists s'. split; [done|]. intros k' x Hne.
  rewrite (abs_queue _ _ Habs), (abs_queue _ _ Habs').
  unfold entry_count. rewrite (abs_length _ _ Habs), Hcap.
  destruct (aput_other C k k' v x (arun C ops []) Hne) as [H1 H2].
  split; [done|]. intros Hin. destruct (H2 Hin) as [?|(?&?&?)]; [by left|].
  right. split_and!; [done| |done]. by apply (contains_false _ _ _ Habs).
Qed.

(** X7: a remove of key [k] leaves every other key as it is: the same
    entries in the same order, and get of another key answers as before. *)
Theorem X7_remove_other_keys (C : Z) ops s k :
  in_int C →
  run ops (KFifoCache_new C) = Some s →
  ∃ s', remove k s = Some s'
        ∧ queue s' = filter (λ kv, kv.1 ≠ k) (queue s)
        ∧ ∀ k' v0, k' ≠ k →
            contains k' s' = contains k' s
            ∧ fst <$> get k' v0 s' = fst <$> get k' v0 s.
Proof.
  intros Hint Hrun.
  destruct (reachable_abs _ _ _ Hint Hrun) as [Habs Hcap].
  destruct (remove_abs _ _ k Habs) as (s' & Hrm & Habs' & _ & Hm).
  exists s'. split; [done|].
  rewrite (abs_queue _ _ Habs), (abs_queue _ _ Habs'). split; [done|].
  intros k' v0 Hne. split.
  - unfold contains. by rewrite Hm, lookup_delete_ne.
  - eapply get_agree; [done..|]. intros x. unfold aremove.
    rewrite list_elem_of_filter. simpl. naive_solver.
Qed.

Lemma drop_S_cons_app {A} (n : nat) (h : A) (t l : list A) :
  drop (S n) (h :: t ++ l) = drop n (t ++ l).
Proof. done. Qed.

Lemma arun_puts_window C (kvs q : list (Key * Value)) :
  0 < C → NoDup (q ++ kvs).*1 → Z.of_nat (length q) ≤ C →
  arun C (map (λ kv, OpPut kv.1 kv.2) kvs) q
  = drop (length (q ++ kvs) - Z.to_nat C) (q ++ kvs).
Proof.
  intros HC. revert q. induction kvs as [|[k v] kvs IH]; intros q Hnd Hlen.
  - simpl. rewrite app_nil_r.
    replace (length q - Z.to_nat C)%nat with 0%nat by lia. done.
  - simpl.
    assert (k ∉ q.*1) as Hk.
    { rewrite fmap_app, fmap_cons in Hnd.
      apply NoDup_app in Hnd as (_ & Hd & _). intros Hin.
      apply (Hd _ Hin). apply elem_of_cons. by left. }
    destruct (decide (C ≤ Z.of_nat (length q))) as [Hfull|Hroom].
    + rewrite aput_new_full by done.
      destruct q as [|h t]; [simpl in Hfull; lia|]. simpl in *.
      rewrite IH.
      * rewrite <-!app_assoc. simpl. rewrite !length_app. simpl.
        replace (S (length t + S (length kvs)) - Z.to_nat C)%nat
          with (S (length t + S (length kvs) - Z.to_nat C))%nat by lia.
        done.
      * rewrite <-app_assoc. simpl.
        by apply list.NoDup_cons in Hnd as [_ ?].
      * rewrite length_app. simpl. lia.
    + rewrite aput_new_room by (done || lia).
      rewrite IH.
      * by rewrite <-!app_assoc.
      * by rewrite <-app_assoc.
      * rewrite length_app. simpl. lia.
Qed.

Lemma put_all_new_window (C : Z) (kvs : list (Key * Value)) :
  1 ≤ C ≤ INT_MAX →
  NoDup kvs.*1 →
  ∃ s, put_all kvs (KFifoCache_new C) = Some s
       ∧ abs s (drop (length kvs - Z.to_nat C) kvs)
       ∧ capacity_ s = C.
Proof.
  intros HC Hnd. assert (in_int C) as Hint by (unfold in_int, INT_MIN; lia).
  destruct (run_new_abs C (map (λ kv, OpPut kv.1 kv.2) kvs) Hint)
    as (s & Hrun & Habs & Hcap).
  rewrite (arun_puts_window C kvs []) in Habs by (done || simpl; lia).
  by exists s.
Qed.

(** X8: after any number of puts of pairwise distinct keys into a new
    cache of capacity [C >= 1] the queue holds the last [C] of them (all of
    them when there are fewer), in the order they were put. *)
Theorem X8_fifo_window (C : Z) (kvs : list (Key * Value)) :
  1 ≤ C ≤ INT_MAX →
  NoDup kvs.*1 →
  ∃ s, put_all kvs (KFifoCache_new C) = Some s
       ∧ queue s = drop (length kvs - Z.to_nat C) kvs
       ∧ ∀ k, contains k s = true
              ↔ k ∈ (drop (length kvs - Z.to_nat C) kvs).*1.
Proof.
  intros HC Hnd.
  destruct (put_all_new_window C kvs HC Hnd) as (s & Hrun & Habs & _).
  exists s. split_and!; [done|by apply abs_queue|].
  intros k. apply (contains_true _ _ _ Habs).
Qed.

(** X9: put is idempotent: a second put of the same key and value right
    after the first returns the object unchanged. *)
Theorem X9_put_idempotent (C : Z) ops s k v :
  in_int C →
  run ops (KFifoCache_new C) = Some s →
  ∃ s', put k v s = Some s' ∧ put k v s' = Some s'.
Proof.
  intros Hint Hrun.
  destruct (reachable_abs _ _ _ Hint Hrun) as [Habs Hcap].
  destruct (put_abs _ _ k v Habs) as (s' & Hput & Habs' & Hcap').
  exists s'. split; [done|].
  destruct (decide (capacity_ s ≤ 0)) as [Hle|Hpos].
  { unfold put in *. rewrite decide_True in Hput by done.
    injection Hput as <-. by rewrite decide_True. }
  assert ((k, v) ∈ aput (capacity_ s) k v (arun C ops [])) as Hin
    by (apply aput_elem; lia).
  destruct Habs' as (l & Hinv & Hq).
  destruct (Forall2_entry_elem _ _ _ _ Hq Hin) as (p & Hp & He).
  assert (nodeMap_ s' !! k = Some p) as Hm.
  { apply (inv_index _ _ Hinv). split; [done|]. by apply entry_at_key in He. }
  unfold put. rewrite decide_False by lia. rewrite Hm.
  unfold updateExistingNode. unfold entry_at in He.
  destruct (cells_ s' !! p) as [n|] eqn:Hn; [|done].
  cbn [mbind option_bind]. f_equal.
  assert (setValue v n = n) as ->.
  { destruct n. simpl in He. unfold setValue. simpl. by simplify_eq. }
  rewrite insert_id by done. by destruct s'.
Qed.

Lemma astep_keys C o k (q : list (Key * Value)) :
  k ∈ (astep C o q).*1 → k ∈ q.*1 ∨ k ∈ put_keys [o].
Proof.
  destruct o as [k1 v1|k1 v1|k1|k1]; simpl; try by left.
  - intros [->|?]%aput_keys; [right|by left]. by apply list_elem_of_singleton.
  - intros ([k' x] & -> & Hin)%list_elem_of_fmap.
    apply list_elem_of_filter in Hin as [_ Hin]. left.
    apply list_elem_of_fmap. by exists (k', x).
Qed.

Lemma arun_keys C ops k (q : list (Key * Value)) :
  k ∈ (arun C ops q).*1 → k ∈ q.*1 ∨ k ∈ put_keys ops.
Proof.
  revert q. induction ops as [|o ops IH]; intros q; [by left|].
  change (arun C (o :: ops) q) with (arun C ops (astep C o q)).
  intros [Hin|Hin]%IH.
  - apply astep_keys in Hin as [?|Hin]; [by left|right].
    change (o :: ops) with ([o] ++ ops). unfold put_keys in *.
    rewrite omap_app. apply elem_of_app. by left.
  - right. change (o :: ops) with ([o] ++ ops). unfold put_keys in *.
    rewrite omap_app. apply elem_of_app. by right.
Qed.

(** X10: a key that no put of a run names is absent after the run: a get
    of it misses, however the other calls went. *)
Theorem X10_never_put_never_present (C : Z) ops s k v0 :
  in_int C →
  run ops (KFifoCache_new C) = Some s →
  k ∉ put_keys ops →
  contains k s = false
  ∧ get k v0 s = Some (false, v0, s)
  ∧ get_value k s = Some (value_init, s).
Proof.
  intros Hint Hrun Hk.
  destruct (reachable_abs _ _ _ Hint Hrun) as [Habs Hcap].
  assert (contains k s = false) as Hc.
  { apply (contains_false _ _ _ Habs). intros [Hin|Hin]%arun_keys; [|done].
    by apply elem_of_nil in Hin. }
  split; [done|]. apply contains_false_lookup in Hc.
  split; [by apply get_absent|]. eapply get_value_get. by apply get_absent.
Qed.

(** X11: how a put changes the entry count, for capacity [C >= 1]: not at
    all when the key is present, not at all when the key is new and the
    cache is full, and by one when the key is new and there is room. *)
Theorem X11_entry_count_after_put (C : Z) ops s k v :
  1 ≤ C ≤ INT_MAX →
  run ops (KFifoCache_new C) = Some s →
  ∃ s', put k v s = Some s'
        ∧ entry_count s'
          = (if contains k s then entry_count s
             else if decide (C ≤ Z.of_nat (entry_count s)) then entry_count s
             else S (entry_count s)).
Proof.
  intros HC Hrun. assert (in_int C) as Hint by (unfold in_int, INT_MIN; lia).
  destruct (reachable_abs _ _ _ Hint Hrun) as [Habs Hcap].
  destruct (put_abs _ _ k v Habs) as (s' & Hput & Habs' & _).
  exists s'. split; [done|]. unfold entry_count.
  rewrite (abs_length _ _ Habs), (abs_length _ _ Habs'), Hcap.
  pose proof (abs_bound _ _ Habs) as Hb. rewrite Hcap in Hb.
  destruct (contains k s) eqn:Hc.
  - apply (contains_true _ _ _ Habs) in Hc.
    rewrite aput_present by (done || lia). unfold aupdate. by rewrite length_fmap.
  - apply (contains_false _ _ _ Habs) in Hc. case_decide.
    + rewrite aput_new_full by (done || lia). rewrite length_app. simpl.
      destruct (arun C ops []); simpl in *; lia.
    + rewrite aput_new_room by (done || lia). rewrite length_app. simpl. lia.
Qed.

(** X12: a put of a new key followed by a remove of that key does not
    bring back what the put evicted: the queue is the old queue when there
    was room, and the old queue without its head when the cache was
    full. *)
Theorem X12_put_then_remove (C : Z) ops s k v :
  1 ≤ C ≤ INT_MAX →
  run ops (KFifoCache_new C) = Some s →
  contains k s = false →
  ∃ s' s'', put k v s = Some s' ∧ remove k s' = Some s''
            ∧ queue s'' = (if decide (C ≤ Z.of_nat (entry_count s))
                           then tail (queue s) else queue s)
            ∧ contains k s'' = false.
Proof.
  intros HC Hrun Hc. assert (in_int C) as Hint by (unfold in_int, INT_MIN; lia).
  destruct (reachable_abs _ _ _ Hint Hrun) as [Habs Hcap].
  apply (contains_false _ _ _ Habs) in Hc.
  destruct (put_absent_spec _ _ k v Habs) as (s' & Hput & Habs' & _); [lia|done|].
  destruct (remove_abs _ _ k Habs') as (s'' & Hrm & Habs'' & _ & Hm).
  exists s', s''. split_and!; [done|done| |].
  - rewrite (abs_queue _ _ Habs''), (abs_queue _ _ Habs). unfold entry_count.
    rewrite (abs_length _ _ Habs), Hcap.
    set (q1 := if decide _ then _ else _).
    assert (k ∉ q1.*1) as Hk1.
    { subst q1. destruct (decide (C ≤ _)); [|done]. intros Hin. apply Hc.
      destruct (arun C ops []); [by apply elem_of_nil in Hin|].
      simpl in *. apply elem_of_cons. by right. }
    unfold aremove. rewrite filter_app.
    rewrite filter_cons_False by (by intros ?). simpl.
    fold (aremove k q1). rewrite aremove_notin by done. by rewrite app_nil_r.
  - unfold contains. rewrite Hm, lookup_delete_eq.
    apply bool_decide_eq_false. by intros [? ?].
Qed.

End FifoMoreFacts.

(** * The sharded cache in every state it reaches *)

Section ShardedMoreFacts.
Context {Key Value : Type} {Key_eq : EqDecision Key} {Key_countable : Countable Key}.
Context {Key_init : ValueInit Key} {Value_init : ValueInit Value}.
Context (hashFunc : Key → Z).

#[local] Set Warnings "-clear-no-such-hyp".

Local Abbreviation KFifoCache := (@KFifoCache Key Value Key_eq Key_countable)
  (only parsing).
Local Abbreviation KHashFifoCache :=
  (@KHashFifoCache Key Value Key_eq Key_countable) (only parsing).
Local Abbreviation HashOp := (@HashOp Key Value) (only parsing).
Local Abbreviation KHashFifoCache_new :=
  (@KHashFifoCache_new Key Value Key_eq Key_countable Key_init Value_init)
  (only parsing).
Local Abbreviation Hash := (Hash hashFunc) (only parsing).
Local Abbreviation sliceIndex := (sliceIndex hashFunc) (only parsing).
Local Abbreviation hash_put := (hash_put hashFunc) (only parsing).
Local Abbreviation hash_get := (hash_get hashFunc) (only parsing).
Local Abbreviation hash_get_value := (hash_get_value hashFunc) (only parsing).
Local Abbreviation hash_step := (hash_step hashFunc) (only parsing).
Local Abbreviation hash_run := (hash_run hashFunc) (only parsing).
Local Abbreviation shard_wf := (shard_wf hashFunc) (only parsing).
Local Abbreviation hash_wf := (hash_wf hashFunc) (only parsing).

Implicit Types (c : KHashFifoCache) (sh : KFifoCache).
Implicit Types (k : Key) (v : Value) (ops : list HashOp) (o : HashOp).

(** A get on a well-formed object: found exactly when the key is in the
    index, and then with the entry's value. *)
Lemma get_total sh (q : list (Key * Value)) k :
  abs sh q →
  ∃ x, ∀ v, get k v sh
            = Some (contains k sh, if contains k sh then x else v, sh).
Proof.
  intros Habs. destruct (nodeMap_ sh !! k) as [p|] eqn:Hm.
  - destruct (abs_contains_entry _ _ k Habs) as [x Hx]; [by eexists|].
    assert (contains k sh = true) as ->.
    { unfold contains. apply bool_decide_eq_true. by eexists. }
    exists x. intros v. by eapply get_present.
  - assert (contains k sh = false) as ->.
    { unfold contains. apply bool_decide_eq_false. rewrite Hm. by intros [? ?]. }
    exists value_init. intros v. by apply get_absent.
Qed.

Lemma new_hash_wf capacity sliceNum hw c :
  KHashFifoCache_new capacity sliceNum hw = Some c →
  0 < sliceNum_ c →
  ∃ cap, in_int cap ∧ hash_wf cap c
         ∧ fifoSliceCaches_ c
           = replicate (Z.to_nat (sliceNum_ c)) (KFifoCache_new cap).
Proof.
  intros Hc Hn.
  destruct (KHashFifoCache_new_shape _ _ _ _ Hc) as (sz & E & En).
  pose proof (to_int_range (if decide (0 < sliceNum) then to_unsigned sliceNum
                            else hw)) as [_ Hmax].
  rewrite <-En in Hmax.
  assert (fifoSliceCaches_ c
          = replicate (Z.to_nat (sliceNum_ c)) (KFifoCache_new (to_int sz))) as El.
  { by rewrite E at 1. }
  exists (to_int sz). split; [apply to_int_range|]. split; [|done].
  split; [lia|]. rewrite El. split; [apply length_replicate|].
  intros i sh [-> _]%lookup_replicate. exists [].
  split_and!; [apply new_abs, to_int_range|done|].
  intros k Hk. by apply elem_of_nil in Hk.
Qed.

Lemma sliceIndex_wf cap c k :
  hash_wf cap c →
  ∃ sh, sliceIndex k c = Some (Z.to_nat (Hash k `mod` sliceNum_ c))
        ∧ fifoSliceCaches_ c !! Z.to_nat (Hash k `mod` sliceNum_ c) = Some sh
        ∧ shard_wf (sliceNum_ c) cap (Z.to_nat (Hash k `mod` sliceNum_ c)) sh.
Proof.
  intros (Hn & Hlen & Hall).
  assert (to_size_t (sliceNum_ c) = sliceNum_ c) as E.
  { unfold to_size_t, size_t_modulus. apply Z.mod_small.
    unfold INT_MAX in Hn. lia. }
  pose proof (Z.mod_pos_bound (Hash k) (sliceNum_ c)) as Hb.
  destruct (lookup_lt_is_Some_2 (fifoSliceCaches_ c)
              (Z.to_nat (Hash k `mod` sliceNum_ c))) as [sh Hsh]; [lia|].
  exists sh. unfold sliceIndex. rewrite E, decide_False by lia.
  split_and!; [done..|]. by apply Hall.
Qed.

Lemma hash_put_wf cap c k v :
  hash_wf cap c →
  ∃ sh sh',
    fifoSliceCaches_ c !! Z.to_nat (Hash k `mod` sliceNum_ c) = Some sh
    ∧ put k v sh = Some sh'
    ∧ hash_put k v c
      = Some (with_slice (Z.to_nat (Hash k `mod` sliceNum_ c)) sh' c)
    ∧ hash_wf cap (with_slice (Z.to_nat (Hash k `mod` sliceNum_ c)) sh' c).
Proof.
  intros Hwf.
  destruct (sliceIndex_wf cap c k Hwf) as (sh & Hi & Hsh & q & Habs & Hcap & Hroute).
  destruct (put_abs _ _ k v Habs) as (sh' & Hput & Habs' & Hcap').
  exists sh, sh'. split_and!; [done|done| |].
  - unfold hash_put. rewrite Hi. cbn [mbind option_bind]. rewrite Hsh.
    cbn [mbind option_bind]. by rewrite Hput.
  - destruct Hwf as (Hn & Hlen & Hall). unfold with_slice.
    split; [done|]. cbn [sliceNum_ fifoSliceCaches_].
    split; [by rewrite length_insert|].
    intros j shj Hj.
    destruct (decide (j = Z.to_nat (Hash k `mod` sliceNum_ c))) as [->|Hne].
    + rewrite list_lookup_insert_eq in Hj by (by eapply lookup_lt_Some).
      injection Hj as <-. exists (aput (capacity_ sh) k v q).
      split_and!; [done|congruence|].
      intros k' [->|Hin]%aput_keys; [done|by apply Hroute].
    + rewrite list_lookup_insert_ne in Hj by done. by apply Hall.
Qed.

Lemma hash_get_wf cap c k :
  hash_wf cap c →
  ∃ (b : bool) x, ∀ v, hash_get k v c = Some (b, if b then x else v, c).
Proof.
  intros Hwf.
  destruct (sliceIndex_wf cap c k Hwf) as (sh & Hi & Hsh & q & Habs & _).
  destruct (get_total sh q k Habs) as [x Hg].
  exists (contains k sh), x. intros v.
  unfold hash_get. rewrite Hi. cbn [mbind option_bind]. rewrite Hsh.
  cbn [mbind option_bind]. rewrite Hg. cbn [mbind option_bind].
  unfold with_slice. rewrite list_insert_id by done. by destruct c.
Qed.

Lemma hash_step_wf cap c o :
  hash_wf cap c →
  ∃ c', hash_step o c = Some c' ∧ hash_wf cap c' ∧ sliceNum_ c' = sliceNum_ c.
Proof.
  intros Hwf. destruct o as [k v|k v|k]; simpl.
  - destruct (hash_put_wf cap c k v Hwf) as (? & ? & _ & _ & -> & ?). eauto.
  - destruct (hash_get_wf cap c k Hwf) as (b & x & Hg). rewrite Hg. by exists c.
  - destruct (hash_get_wf cap c k Hwf) as (b & x & Hg).
    unfold hash_get_value. rewrite Hg. by exists c.
Qed.

Lemma hash_run_wf cap c ops :
  hash_wf cap c →
  ∃ c', hash_run ops c = Some c' ∧ hash_wf cap c' ∧ sliceNum_ c' = sliceNum_ c.
Proof.
  revert c. induction ops as [|o ops IH]; intros c Hwf; [by exists c|].
  destruct (hash_step_wf cap c o Hwf) as (c1 & Hs & Hwf1 & Hn1).
  destruct (IH c1 Hwf1) as (c' & Hr & Hwf' & Hn').
  exists c'. simpl. rewrite Hs. cbn [mbind option_bind].
  split_and!; [done..|congruence].
Qed.

Lemma reachable_hash_wf capacity sliceNum hw c0 c ops :
  KHashFifoCache_new capacity sliceNum hw = Some c0 →
  0 < sliceNum_ c0 →
  hash_run ops c0 = Some c →
  ∃ cap, in_int cap ∧ hash_wf cap c ∧ sliceNum_ c = sliceNum_ c0
         ∧ fifoSliceCaches_ c0
           = replicate (Z.to_nat (sliceNum_ c0)) (KFifoCache_new cap).
Proof.
  intros Hnew Hn Hrun.
  destruct (new_hash_wf _ _ _ _ Hnew Hn) as (cap & Hint & Hwf & El).
  destruct (hash_run_wf cap c0 ops Hwf) as (c' & Hr & Hwf' & Hn').
  rewrite Hrun in Hr. injection Hr as <-. by exists cap.
Qed.

(** C8: a sharded cache with at least one shard routes a key to shard
    [Hash(key) mod sliceNum_] in every state it reaches, whatever the
    capacity of the shards: put and get of [k] both go to that shard, and
    the put changes that shard only.  With shards of capacity at least 1, a
    get of [k] right after a put of [(k, v)] returns true and [v]. *)
Theorem C8_routing_consistent (capacity sliceNum hw : Z) (c0 c : KHashFifoCache)
    (ops : list HashOp) (k : Key) (v v0 : Value) :
  KHashFifoCache_new capacity sliceNum hw = Some c0 →
  0 < sliceNum_ c0 →
  hash_run ops c0 = Some c →
  let i := Z.to_nat (Hash k `mod` sliceNum_ c0) in
  sliceIndex k c0 = Some i
  ∧ sliceIndex k c = Some i
  ∧ ∃ sh sh',
      fifoSliceCaches_ c !! i = Some sh
      ∧ put k v sh = Some sh'
      ∧ hash_put k v c = Some (with_slice i sh' c)
      ∧ sliceIndex k (with_slice i sh' c) = Some i
      ∧ (∃ b x, get k v0 sh = Some (b, x, sh)
                ∧ hash_get k v0 c = Some (b, x, c))
      ∧ (Forall (λ sh, 1 ≤ capacity_ sh) (fifoSliceCaches_ c0) →
         get k v0 sh' = Some (true, v, sh')
         ∧ hash_get k v0 (with_slice i sh' c)
           = Some (true, v, with_slice i sh' c)).
Proof.
  intros Hnew Hn Hrun i.
  destruct (new_hash_wf _ _ _ _ Hnew Hn) as (cap & Hint & Hwf0 & El).
  destruct (hash_run_wf cap c0 ops Hwf0) as (c' & Hrun' & Hwf & Hnum).
  rewrite Hrun in Hrun'. injection Hrun' as <-.
  destruct (sliceIndex_wf cap c0 k Hwf0)
    as (sh0 & Hi0 & Hsh0 & q0 & _ & Hcap0 & _).
  destruct (sliceIndex_wf cap c k Hwf) as (sh & Hi & Hsh & q & Habs & Hcap & _).
  rewrite Hnum in Hi, Hsh. fold i in Hi0, Hsh0, Hi, Hsh.
  destruct (put_abs _ _ k v Habs) as (sh' & Hput & Habs' & _).
  assert (i < length (fifoSliceCaches_ c))%nat as Hlt by (by eapply lookup_lt_Some).
  assert (sliceIndex k (with_slice i sh' c) = Some i) as Hi' by exact Hi.
  split; [done|]. split; [done|]. exists sh, sh'.
  split_and!; [done|done| |done| |].
  - unfold hash_put. rewrite Hi. cbn [mbind option_bind]. rewrite Hsh.
    cbn [mbind option_bind]. by rewrite Hput.
  - destruct (get_total sh q k Habs) as [x Hg].
    exists (contains k sh), (if contains k sh then x else v0).
    split; [done|].
    unfold hash_get. rewrite Hi. cbn [mbind option_bind]. rewrite Hsh.
    cbn [mbind option_bind]. rewrite Hg. cbn [mbind option_bind].
    unfold with_slice. rewrite list_insert_id by done. by destruct c.
  - intros Hall.
    assert (1 ≤ cap) as Hpos.
    { rewrite Forall_forall in Hall. rewrite <-Hcap0. apply Hall.
      by eapply list_elem_of_lookup_2. }
    assert ((k, v) ∈ aput (capacity_ sh) k v q) as Hin
      by (apply aput_elem; lia).
    pose proof (get_present _ _ _ _ v0 Habs' Hin) as Hget.
    split; [done|].
    unfold hash_get. rewrite Hi'. cbn [mbind option_bind].
    assert (fifoSliceCaches_ (with_slice i sh' c) !! i = Some sh') as Hl.
    { simpl. by apply list_lookup_insert_eq. }
    rewrite Hl. cbn [mbind option_bind]. rewrite Hget.
    cbn [mbind option_bind]. unfold with_slice. simpl.
    by rewrite list_insert_insert_eq.
Qed.

(** X13: in every state a constructed sharded cache reaches, a shard holds
    only keys that are routed to it; so no key is held by two shards. *)
Theorem X13_key_in_its_shard (capacity sliceNum hw : Z) (c0 c : KHashFifoCache)
    (ops : list HashOp) :
  KHashFifoCache_new capacity sliceNum hw = Some c0 →
  0 < sliceNum_ c0 →
  hash_run ops c0 = Some c →
  (∀ i sh k, fifoSliceCaches_ c !! i = Some sh → contains k sh = true →
             sliceIndex k c = Some i)
  ∧ (∀ i j shi shj k,
       fifoSliceCaches_ c !! i = Some shi → fifoSliceCaches_ c !! j = Some shj →
       contains k shi = true → contains k shj = true → i = j).
Proof.
  intros Hnew Hn Hrun.
  destruct (reachable_hash_wf _ _ _ _ _ _ Hnew Hn Hrun) as (cap & _ & Hwf & _).
  assert (∀ i sh k, fifoSliceCaches_ c !! i = Some sh → contains k sh = true →
                    sliceIndex k c = Some i) as Hroute.
  { intros i sh k Hsh Hc.
    destruct (sliceIndex_wf cap c k Hwf) as (_ & -> & _).
    destruct Hwf as (_ & _ & Hall).
    destruct (Hall i sh Hsh) as (q & Habs & _ & Hq).
    f_equal. apply Hq. by apply (contains_true _ _ _ Habs). }
  split; [done|]. intros i j shi shj k Hi Hj Hci Hcj.
  pose proof (Hroute _ _ _ Hi Hci) as E1.
  pose proof (Hroute _ _ _ Hj Hcj) as E2. congruence.
Qed.

(** X14: a sharded cache constructed with at least one shard never runs
    into undefined behaviour, whatever the capacity of its shards: every
    sequence of puts and gets returns and keeps the number of shards;
    both forms of get leave the cache as it is, and the two-result form
    keeps the caller's value on a miss. *)
Theorem X14_sharded_calls_return (capacity sliceNum hw : Z) (c0 : KHashFifoCache)
    (ops : list HashOp) :
  KHashFifoCache_new capacity sliceNum hw = Some c0 →
  0 < sliceNum_ c0 →
  ∃ c, hash_run ops c0 = Some c
       ∧ sliceNum_ c = sliceNum_ c0
       ∧ length (fifoSliceCaches_ c) = Z.to_nat (sliceNum_ c0)
       ∧ ∀ k, ∃ (b : bool) x,
           (∀ v, hash_get k v c = Some (b, if b then x else v, c))
           ∧ hash_get_value k c = Some (if b then x else value_init, c).
Proof.
  intros Hnew Hn.
  destruct (new_hash_wf _ _ _ _ Hnew Hn) as (cap & Hint & Hwf & El).
  destruct (hash_run_wf cap c0 ops Hwf) as (c & Hr & Hwf' & Hn').
  exists c. split_and!; [done|done| |].
  - destruct Hwf' as (_ & -> & _). by rewrite Hn'.
  - intros k. destruct (hash_get_wf cap c k Hwf') as (b & x & Hg).
    exists b, x. split; [done|]. unfold hash_get_value. by rewrite Hg.
Qed.

(** X15: a sharded cache whose shards have capacity 0 or less (total
    capacity 0, or a slice size that wrapped to a negative int) stores
    nothing: every sequence of puts and gets returns the cache as
    constructed, and every get misses. *)
Theorem X15_inert_shards (capacity sliceNum hw : Z) (c0 : KHashFifoCache)
    (ops : list HashOp) :
  KHashFifoCache_new capacity sliceNum hw = Some c0 →
  0 < sliceNum_ c0 →
  Forall (λ sh, capacity_ sh ≤ 0) (fifoSliceCaches_ c0) →
  hash_run ops c0 = Some c0
  ∧ ∀ k v, hash_get k v c0 = Some (false, v, c0)
           ∧ hash_get_value k c0 = Some (value_init, c0).
Proof.
  intros Hnew Hn Hcap.
  destruct (new_hash_wf _ _ _ _ Hnew Hn) as (cap & Hint & Hwf & El).
  assert (∀ k, ∃ sh, sliceIndex k c0 = Some (Z.to_nat (Hash k `mod` sliceNum_ c0))
                     ∧ fifoSliceCaches_ c0 !! Z.to_nat (Hash k `mod` sliceNum_ c0)
                       = Some sh
                     ∧ sh = KFifoCache_new cap ∧ capacity_ sh ≤ 0) as Hsh.
  { intros k. destruct (sliceIndex_wf cap c0 k Hwf) as (sh & Hi & Hsh & _).
    exists sh. split_and!; [done|done| |].
    - rewrite El in Hsh. by apply lookup_replicate in Hsh as [-> _].
    - rewrite Forall_forall in Hcap. apply Hcap. by eapply list_elem_of_lookup_2. }
  assert (∀ k v, hash_get k v c0 = Some (false, v, c0)) as Hget.
  { intros k v. destruct (Hsh k) as (sh & Hi & Hl & E & _).
    unfold hash_get. rewrite Hi. cbn [mbind option_bind]. rewrite Hl.
    cbn [mbind option_bind]. rewrite get_absent by (by rewrite E).
    cbn [mbind option_bind]. unfold with_slice.
    rewrite list_insert_id by done. by destruct c0. }
  assert (∀ o, hash_step o c0 = Some c0) as Hstep.
  { intros [k v|k v|k]; simpl.
    - destruct (Hsh k) as (sh & Hi & Hl & _ & Hle).
      unfold hash_put. rewrite Hi. cbn [mbind option_bind]. rewrite Hl.
      cbn [mbind option_bind]. unfold put. rewrite decide_True by done.
      cbn [mbind option_bind]. unfold with_slice.
      rewrite list_insert_id by done. by destruct c0.
    - by rewrite Hget.
    - unfold hash_get_value. by rewrite Hget. }
  split.
  - induction ops as [|o ops IH]; [done|]. simpl. rewrite Hstep. done.
  - intros k v. split; [done|]. unfold hash_get_value. by rewrite Hget.
Qed.

Lemma sum_entry_count_bound (b : Z) (shs : list KFifoCache) :
  Forall (λ sh, Z.of_nat (entry_count sh) ≤ b) shs →
  Z.of_nat (sum_list (entry_count <$> shs)) ≤ Z.of_nat (length shs) * b.
Proof.
  induction 1 as [|sh shs Hsh _ IH]; [simpl; lia|].
  rewrite fmap_cons. simpl in *. unfold id in *. lia.
Qed.

(** X16: construction gives all shards one capacity [cap], and they keep
    it: in every state the cache reaches, each shard has capacity [cap] and
    holds at most [max 0 cap] entries (none when [cap] is negative), so the
    cache as a whole holds at most [sliceNum_ * max 0 cap].  For a total
    capacity [T < 2^53] and [N] shards with [ceil(T / N) <= INT_MAX], [cap]
    is [ceil(T / N)]. *)
Theorem X16_total_entries_bounded (capacity sliceNum hw : Z)
    (c0 : KHashFifoCache) :
  KHashFifoCache_new capacity sliceNum hw = Some c0 →
  0 < sliceNum_ c0 →
  ∃ cap,
    Forall (λ sh, capacity_ sh = cap) (fifoSliceCaches_ c0)
    ∧ (0 ≤ capacity < 2 ^ 53 → 0 < sliceNum ≤ INT_MAX →
       (capacity + sliceNum - 1) `div` sliceNum ≤ INT_MAX →
       cap = (capacity + sliceNum - 1) `div` sliceNum)
    ∧ ∀ ops c, hash_run ops c0 = Some c →
        Forall (λ sh, capacity_ sh = cap
                      ∧ Z.of_nat (entry_count sh) ≤ Z.max 0 cap)
          (fifoSliceCaches_ c)
        ∧ Z.of_nat (hash_entry_count c) ≤ sliceNum_ c0 * Z.max 0 cap.
Proof.
  intros Hnew Hn.
  destruct (new_hash_wf _ _ _ _ Hnew Hn) as (cap & _ & Hwf0 & El).
  exists cap. split_and!.
  - rewrite El. apply Forall_forall. by intros sh [-> _]%elem_of_replicate.
  - intros HT HN Hceil.
    assert (0 ≤ (capacity + sliceNum - 1) `div` sliceNum) as Hge
      by (apply Z.div_pos; lia).
    unfold KHashFifoCache_new in Hnew.
    rewrite decide_True, to_unsigned_small, to_int_small in Hnew
      by (unfold INT_MIN, INT_MAX in *; lia).
    rewrite slice_size_exact in Hnew by (unfold INT_MAX in *; lia).
    cbn [mbind option_bind] in Hnew. injection Hnew as <-.
    cbn [fifoSliceCaches_ sliceNum_] in El.
    rewrite to_int_small in El by (unfold INT_MIN, INT_MAX in *; lia).
    assert (0 < Z.to_nat sliceNum)%nat as Hpos by lia.
    destruct (Z.to_nat sliceNum) as [|n]; [lia|].
    simpl in El. injection El as El _. by symmetry.
  - intros ops c Hrun.
    destruct (hash_run_wf cap c0 ops Hwf0) as (c' & Hr & Hwf & Hn').
    rewrite Hrun in Hr. injection Hr as <-.
    assert (Forall (λ sh, capacity_ sh = cap
                          ∧ Z.of_nat (entry_count sh) ≤ Z.max 0 cap)
              (fifoSliceCaches_ c)) as Hall.
    { apply Forall_lookup. intros i sh Hsh. destruct Hwf as (_ & _ & Hall).
      destruct (Hall i sh Hsh) as (q & Habs & Hcap & _). split; [done|].
      unfold entry_count. rewrite (abs_length _ _ Habs), <-Hcap.
      by apply abs_bound. }
    split; [done|]. unfold hash_entry_count.
    assert (sliceNum_ c0 = Z.of_nat (length (fifoSliceCaches_ c))) as ->.
    { destruct Hwf as (? & -> & _). lia. }
    apply sum_entry_count_bound. eapply Forall_impl; [exact Hall|].
    by intros sh [_ ?].
Qed.

(** X17: a put changes one shard only: every other shard is the same
    object afterwards, and a get of a key that is routed to another shard
    answers as it did before the put. *)
Theorem X17_put_leaves_other_shards (capacity sliceNum hw : Z)
    (c0 c : KHashFifoCache) (ops : list HashOp) (k : Key) (v : Value) :
  KHashFifoCache_new capacity sliceNum hw = Some c0 →
  0 < sliceNum_ c0 →
  hash_run ops c0 = Some c →
  ∃ c', hash_put k v c = Some c'
        ∧ (∀ j, sliceIndex k c ≠ Some j →
                fifoSliceCaches_ c' !! j = fifoSliceCaches_ c !! j)
        ∧ ∀ k' v0, sliceIndex k' c ≠ sliceIndex k c →
            fst <$> hash_get k' v0 c' = fst <$> hash_get k' v0 c.
Proof.
  intros Hnew Hn Hrun.
  destruct (reachable_hash_wf _ _ _ _ _ _ Hnew Hn Hrun) as (cap & _ & Hwf & _).
  destruct (hash_put_wf cap c k v Hwf) as (sh & sh' & Hsh & Hput & Hp & Hwf').
  destruct (sliceIndex_wf cap c k Hwf) as (_ & Hi & _).
  eexists. split; [exact Hp|]. rewrite Hi. split.
  - intros j Hj. simpl. apply list_lookup_insert_ne. congruence.
  - intros k' v0 Hne.
    destruct (sliceIndex_wf cap c k' Hwf) as (sh1 & Hi' & Hsh1 & q1 & Habs1 & _).
    destruct (get_total sh1 q1 k' Habs1) as [x Hg].
    rewrite Hi' in Hne.
    unfold hash_get.
    change (sliceIndex k' (with_slice _ sh' c)) with (sliceIndex k' c).
    rewrite Hi'. cbn [mbind option_bind].
    unfold with_slice. cbn [fifoSliceCaches_ sliceNum_ hash_capacity_].
    rewrite list_lookup_insert_ne by congruence.
    rewrite Hsh1. cbn [mbind option_bind]. rewrite Hg. done.
Qed.

Lemma hash_run_puts_one_shard (kvs : list (Key * Value)) c (i : nat) sh sh' :
  (∀ kv, kv ∈ kvs → sliceIndex kv.1 c = Some i) →
  fifoSliceCaches_ c !! i = Some sh →
  put_all kvs sh = Some sh' →
  hash_run (map (λ kv, HashPut kv.1 kv.2) kvs) c = Some (with_slice i sh' c).
Proof.
  revert c sh. induction kvs as [|[k v] kvs IH]; intros c sh Hroute Hsh Hput.
  - injection Hput as <-. simpl. unfold with_slice.
    rewrite list_insert_id by done. by destruct c.
  - unfold put_all in Hput. simpl in Hput.
    destruct (put k v sh) as [sh1|] eqn:Hp; [|done].
    cbn [mbind option_bind] in Hput.
    assert (hash_put k v c = Some (with_slice i sh1 c)) as Hhp.
    { assert (sliceIndex k c = Some i) as Hk
        by (apply (Hroute (k, v)), elem_of_cons; by left).
      unfold hash_put. rewrite Hk. cbn [mbind option_bind]. rewrite Hsh. cbn [mbind option_bind].
      by rewrite Hp. }
    simpl. rewrite Hhp.
    cbn [mbind option_bind].
    rewrite (IH (with_slice i sh1 c) sh1).
    + f_equal. unfold with_slice. simpl. by rewrite list_insert_insert_eq.
    + intros kv Hin.
      change (sliceIndex kv.1 (with_slice i sh1 c)) with (sliceIndex kv.1 c).
      apply Hroute. apply elem_of_cons. by right.
    + simpl. apply list_lookup_insert_eq. by eapply lookup_lt_Some.
    + done.
Qed.

(** X18: keys that are all routed to one shard share the capacity of that
    shard alone: after puts of pairwise distinct such keys into a new
    sharded cache, that shard holds the last [cap] of them, [cap] its
    capacity, and every other shard is as constructed, however many shards
    there are. *)
Theorem X18_colliding_keys_one_shard (capacity sliceNum hw : Z)
    (c0 : KHashFifoCache) (kvs : list (Key * Value)) (i : nat) :
  KHashFifoCache_new capacity sliceNum hw = Some c0 →
  0 < sliceNum_ c0 →
  Forall (λ sh, 1 ≤ capacity_ sh) (fifoSliceCaches_ c0) →
  (i < Z.to_nat (sliceNum_ c0))%nat →
  NoDup kvs.*1 →
  (∀ kv, kv ∈ kvs → sliceIndex kv.1 c0 = Some i) →
  ∃ c sh,
    hash_run (map (λ kv, HashPut kv.1 kv.2) kvs) c0 = Some c
    ∧ fifoSliceCaches_ c !! i = Some sh
    ∧ queue sh = drop (length kvs - Z.to_nat (capacity_ sh)) kvs
    ∧ (∀ j, j ≠ i → fifoSliceCaches_ c !! j = fifoSliceCaches_ c0 !! j)
    ∧ hash_entry_count c = (length kvs `min` Z.to_nat (capacity_ sh))%nat.
Proof.
  intros Hnew Hn Hcap Hi Hnd Hroute.
  destruct (new_hash_wf _ _ _ _ Hnew Hn) as (cap & Hint & Hwf & El).
  assert (fifoSliceCaches_ c0 !! i = Some (KFifoCache_new cap)) as Hsh.
  { rewrite El. by apply lookup_replicate_2. }
  assert (1 ≤ cap ≤ INT_MAX) as HC.
  { rewrite Forall_forall in Hcap.
    pose proof (Hcap _ (list_elem_of_lookup_2 _ _ _ Hsh)) as H1. simpl in H1.
    destruct Hint. lia. }
  destruct (put_all_new_window cap kvs HC Hnd) as (sh' & Hput & Habs & Hcap').
  exists (with_slice i sh' c0), sh'.
  assert (i < length (fifoSliceCaches_ c0))%nat as Hlt by (by eapply lookup_lt_Some).
  split_and!.
  - by eapply hash_run_puts_one_shard.
  - simpl. by apply list_lookup_insert_eq.
  - rewrite Hcap'. by apply abs_queue.
  - intros j Hne. simpl. by apply list_lookup_insert_ne.
  - unfold hash_entry_count, with_slice. cbn [fifoSliceCaches_].
    rewrite El. rewrite Hcap'.
    assert (entry_count sh' = (length kvs `min` Z.to_nat cap)%nat) as Hec.
    { unfold entry_count. rewrite (abs_length _ _ Habs), length_drop. lia. }
    rewrite <-Hec, insert_replicate_lt by done.
    rewrite fmap_app, fmap_cons, !fmap_replicate, sum_list_with_app.
    cbn [sum_list_with]. rewrite !sum_list_replicate.
    change (entry_count (KFifoCache_new cap)) with 0%nat. unfold id. lia.
Qed.

End ShardedMoreFacts.

(** * Concrete runs *)

Import Examples.


Lemma C1_put_new_evicts_head_witness :
  1 ≤ 2 ≤ INT_MAX
  ∧ ∃ s : cache,
      put_all [(1%nat, 10); (2%nat, 20); (3%nat, 30)] (KFifoCache_new 2) = Some s
      ∧ queue s = [(2%nat, 20); (3%nat, 30)]
      ∧ contains 1%nat s = false
      ∧ ∀ k, k ∈ [(2%nat, 20); (3%nat, 30)].*1 → contains k s = true.
Proof.
  assert (1 ≤ 2 ≤ INT_MAX) as HC by (unfold INT_MAX; lia).
  split; [exact HC|].
  destruct (C1_put_new_evicts_head (Key:=nat) (Value:=Z) 2 HC) as [_ H].
  apply (H (1%nat, 10) [(2%nat, 20); (3%nat, 30)]).
  - reflexivity.
  - apply (bool_decide_unpack _). vm_compute. exact I.
Defined.

Lemma C2_entry_count_bounded_witness :
  1 ≤ 2 ≤ INT_MAX
  ∧ ∃ s : cache,
      run [OpPut 1%nat 10; OpPut 2%nat 20; OpPut 3%nat 30] (KFifoCache_new 2)
        = Some s
      ∧ Z.of_nat (entry_count s) ≤ 2
      ∧ ∀ k v, ∃ s',
          put k v s = Some s'
          ∧ Z.of_nat (entry_count s') ≤ 2
          ∧ (size (dom (nodeMap_ s) ∖ dom (nodeMap_ s')) ≤ 1)%nat.
Proof.
  assert (1 ≤ 2 ≤ INT_MAX) as HC by (unfold INT_MAX; lia).
  split; [exact HC|].
  exact (C2_entry_count_bounded (Key:=nat) (Value:=Z) 2
           [OpPut 1%nat 10; OpPut 2%nat 20; OpPut 3%nat 30] HC).
Defined.

(** C3 as stated fails: with capacity 2 and keys 1, 2 inserted, a put of
    key 1 with a new value followed by a put of key 3 evicts key 1, not
    key 2, and get of key 1 misses. *)
Lemma C3_counterexample :
  run (fill2 ++ [OpPut 1%nat 11; OpPut 3%nat 30]) (KFifoCache_new 2)
    = Some (after 2 (fill2 ++ [OpPut 1%nat 11; OpPut 3%nat 30]))
  ∧ queue (after 2 (fill2 ++ [OpPut 1%nat 11; OpPut 3%nat 30]))
    = [(2%nat, 20); (3%nat, 30)]
  ∧ contains 1%nat (after 2 (fill2 ++ [OpPut 1%nat 11; OpPut 3%nat 30])) = false
  ∧ contains 2%nat (after 2 (fill2 ++ [OpPut 1%nat 11; OpPut 3%nat 30])) = true
  ∧ (fst <$> get 1%nat 0 (after 2 (fill2 ++ [OpPut 1%nat 11; OpPut 3%nat 30])))
    = Some (false, 0)
  ∧ ¬ (contains 2%nat (after 2 (fill2 ++ [OpPut 1%nat 11; OpPut 3%nat 30])) = false
       ∧ (fst <$> get 1%nat 0 (after 2 (fill2 ++ [OpPut 1%nat 11; OpPut 3%nat 30])))
         = Some (true, 11)).
Proof.
  split_and!; try (vm_compute; reflexivity).
  intros [Hc _]. vm_compute in Hc. discriminate Hc.
Qed.

Lemma C3_update_keeps_position_witness :
  1 ≤ 2 ≤ INT_MAX
  ∧ run fill2 (KFifoCache_new 2) = Some full2
  ∧ ∃ s1 s2 : cache,
      put 1%nat 11 full2 = Some s1
      ∧ queue s1 = [(1%nat, 11); (2%nat, 20)]
      ∧ put 3%nat 30 s1 = Some s2
      ∧ queue s2 = [(2%nat, 20); (3%nat, 30)]
      ∧ contains 1%nat s2 = false
      ∧ (∀ v0, get 1%nat v0 s2 = Some (false, v0, s2))
      ∧ ∀ k, k ∈ [(2%nat, 20)].*1 → contains k s2 = true.
Proof.
  assert (1 ≤ 2 ≤ INT_MAX) as HC by (unfold INT_MAX; lia).
  assert (run fill2 (KFifoCache_new 2) = Some full2) as Hrun
    by (vm_compute; reflexivity).
  split; [exact HC|]. split; [exact Hrun|].
  destruct (C3_update_keeps_position 2 fill2 full2 HC Hrun) as [_ H].
  apply (H 1%nat 10 [(2%nat, 20)] 11 3%nat 30); vm_compute; reflexivity.
Defined.

Lemma C4_index_queue_agree_witness :
  in_int 2
  ∧ run fill2 (KFifoCache_new 2) = Some full2
  ∧ index_agrees full2
  ∧ ∀ k, contains k full2 = true ↔ k ∈ (queue full2).*1.
Proof.
  assert (in_int 2) as HC by (unfold in_int, INT_MIN, INT_MAX; lia).
  assert (run fill2 (KFifoCache_new 2) = Some full2) as Hrun
    by (vm_compute; reflexivity).
  split; [exact HC|]. split; [exact Hrun|].
  destruct (C4_index_queue_agree 2 fill2 full2 HC Hrun) as (H1 & H2 & _).
  split; [exact H1|exact H2].
Defined.

(** C5 as stated fails for the two-result get: on a miss it hands back
    the caller's value 5, not the value-initialised 0. *)
Lemma C5_counterexample :
  contains 1%nat (KFifoCache_new 2 : cache) = false
  ∧ get 1%nat 5 (KFifoCache_new 2 : cache) = Some (false, 5, KFifoCache_new 2)
  ∧ ¬ (get 1%nat 5 (KFifoCache_new 2 : cache)
       = Some (false, value_init, KFifoCache_new 2)).
Proof. split_and!; [reflexivity|reflexivity|discriminate]. Qed.

Lemma C5_get_read_only_witness :
  in_int 2
  ∧ run fill2 (KFifoCache_new 2) = Some full2
  ∧ (get 2%nat 5 full2 = Some (true, 20, full2)
     ∧ get_value 2%nat full2 = Some (20, full2))
  ∧ (get 3%nat 5 full2 = Some (false, 5, full2)
     ∧ get_value 3%nat full2 = Some (value_init, full2)).
Proof.
  assert (in_int 2) as HC by (unfold in_int, INT_MIN, INT_MAX; lia).
  assert (run fill2 (KFifoCache_new 2) = Some full2) as Hrun
    by (vm_compute; reflexivity).
  split; [exact HC|]. split; [exact Hrun|]. split.
  - destruct (C5_get_read_only 2 fill2 full2 2%nat 5 HC Hrun) as (H & _ & _).
    apply H. apply (bool_decide_unpack _). vm_compute. exact I.
  - destruct (C5_get_read_only 2 fill2 full2 3%nat 5 HC Hrun) as (_ & _ & H).
    apply H. vm_compute. reflexivity.
Defined.

Lemma C6_remove_then_reinsert_witness :
  in_int 2
  ∧ run fill2 (KFifoCache_new 2) = Some full2
  ∧ (∃ s' : cache,
       remove 1%nat full2 = Some s'
       ∧ queue s' = aremove 1%nat (queue full2)
       ∧ nodeMap_ s' = delete 1%nat (nodeMap_ full2)
       ∧ (∀ v0, get 1%nat v0 s' = Some (false, v0, s'))
       ∧ ∀ v, ∃ s'', put 1%nat v s' = Some s''
                     ∧ queue s'' = aremove 1%nat (queue full2) ++ [(1%nat, v)]
                     ∧ contains 1%nat s'' = true)
  ∧ remove 3%nat full2 = Some full2.
Proof.
  assert (in_int 2) as HC by (unfold in_int, INT_MIN, INT_MAX; lia).
  assert (run fill2 (KFifoCache_new 2) = Some full2) as Hrun
    by (vm_compute; reflexivity).
  split; [exact HC|]. split; [exact Hrun|]. split.
  - destruct (C6_remove_then_reinsert 2 fill2 full2 1%nat HC Hrun) as (H & _ & _).
    apply H. vm_compute. reflexivity.
  - destruct (C6_remove_then_reinsert 2 fill2 full2 3%nat HC Hrun) as (_ & H & _).
    apply H. vm_compute. reflexivity.
Defined.

Lemma C7_nonpositive_capacity_inert_witness :
  0 ≤ 0
  ∧ run [OpPut 1%nat 10; OpGet 1%nat 0; OpRemove 1%nat; OpPut 2%nat 20]
        (KFifoCache_new 0 : cache)
    = Some (KFifoCache_new 0)
  ∧ queue (KFifoCache_new 0 : cache) = []
  ∧ put 1%nat 10 (KFifoCache_new 0 : cache) = Some (KFifoCache_new 0)
  ∧ get 1%nat 7 (KFifoCache_new 0 : cache) = Some (false, 7, KFifoCache_new 0).
Proof.
  assert (0 ≤ 0) as HC by lia. split; [exact HC|].
  destruct (C7_nonpositive_capacity_inert (Key:=nat) (Value:=Z) 0
              [OpPut 1%nat 10; OpGet 1%nat 0; OpRemove 1%nat; OpPut 2%nat 20] HC)
    as (H1 & H2 & _ & H4).
  destruct (H4 1%nat 10) as (Hp & _ & _ & _).
  destruct (H4 1%nat 7) as (_ & _ & Hg & _).
  split; [exact H1|]. split; [exact H2|]. split; [exact Hp|exact Hg].
Defined.

Lemma C8_routing_consistent_witness :
  KHashFifoCache_new 10 3 8 = Some sharded_10_3
  ∧ 0 < sliceNum_ sharded_10_3
  ∧ Forall (λ sh, 1 ≤ capacity_ sh) (fifoSliceCaches_ sharded_10_3)
  ∧ hash_run hash_nat [HashPut 4%nat 40; HashGet 5%nat 0] sharded_10_3
    = Some (default sharded_10_3
              (hash_run hash_nat [HashPut 4%nat 40; HashGet 5%nat 0] sharded_10_3))
  ∧ sliceIndex hash_nat 7%nat sharded_10_3 = Some 1%nat
  ∧ sliceIndex hash_nat 7%nat
      (default sharded_10_3
         (hash_run hash_nat [HashPut 4%nat 40; HashGet 5%nat 0] sharded_10_3))
    = Some 1%nat
  ∧ ∃ sh sh' c',
      put 7%nat 70 sh = Some sh'
      ∧ hash_put hash_nat 7%nat 70
          (default sharded_10_3
             (hash_run hash_nat [HashPut 4%nat 40; HashGet 5%nat 0] sharded_10_3))
        = Some c'
      ∧ hash_get hash_nat 7%nat 0 c' = Some (true, 70, c')
      ∧ KHashFifoCache_new 0 3 8 = Some sharded_0_3
      ∧ sliceIndex hash_nat 7%nat sharded_0_3 = Some 1%nat
      ∧ ∃ b x, hash_get hash_nat 7%nat 0 sharded_0_3 = Some (b, x, sharded_0_3).
Proof.
  assert (KHashFifoCache_new 10 3 8 = Some sharded_10_3) as Hnew
    by (vm_compute; reflexivity).
  assert (0 < sliceNum_ sharded_10_3) as Hn by (vm_compute; reflexivity).
  assert (Forall (λ sh : cache, 1 ≤ capacity_ sh) (fifoSliceCaches_ sharded_10_3))
    as Hcap by (repeat constructor; vm_compute; discriminate).
  set (c := default sharded_10_3
              (hash_run hash_nat [HashPut 4%nat 40; HashGet 5%nat 0] sharded_10_3)).
  assert (hash_run hash_nat [HashPut 4%nat 40; HashGet 5%nat 0] sharded_10_3
          = Some c) as Hrun by (vm_compute; reflexivity).
  split; [exact Hnew|]. split; [exact Hn|]. split; [exact Hcap|].
  split; [exact Hrun|].
  destruct (C8_routing_consistent hash_nat 10 3 8 sharded_10_3 c
              [HashPut 4%nat 40; HashGet 5%nat 0] 7%nat 70 0 Hnew Hn Hrun)
    as (H1 & H2 & sh & sh' & _ & Hput & Hhp & _ & _ & Hhit).
  destruct (Hhit Hcap) as [_ Hhg].
  split; [exact H1|]. split; [exact H2|].
  exists sh, sh', (with_slice 1 sh' c). split; [exact Hput|].
  split; [exact Hhp|]. split; [exact Hhg|].
  assert (KHashFifoCache_new 0 3 8 = Some sharded_0_3) as Hnew0
    by (vm_compute; reflexivity).
  assert (0 < sliceNum_ sharded_0_3) as Hn0 by (vm_compute; reflexivity).
  destruct (C8_routing_consistent hash_nat 0 3 8 sharded_0_3 sharded_0_3
              [] 7%nat 70 0 Hnew0 Hn0 eq_refl)
    as (H1' & _ & _ & _ & _ & _ & _ & _ & (b & x & _ & Hg) & _).
  split; [exact Hnew0|]. split; [exact H1'|]. exists b, x. exact Hg.
Defined.

(** C9 as stated fails: for a total capacity of [2^31] and one shard the
    shard capacity is [ceil(2^31 / 1) = 2^31] converted to [int], that is
    [-2^31], and the shard is inert; and for a total capacity of [2^53 + 1]
    over [2^23] shards the quotient computed in [double] is [2^30], one
    less than [ceil((2^53 + 1) / 2^23)]. *)
Lemma C9_counterexample :
  ((map capacity_ ∘ fifoSliceCaches_) <$>
     (KHashFifoCache_new (2 ^ 31) 1 8 : option sharded)
   = Some [-2147483648]
   ∧ (2 ^ 31 + 1 - 1) `div` 1 = 2147483648
   ∧ ¬ ((map capacity_ ∘ fifoSliceCaches_) <$>
          (KHashFifoCache_new (2 ^ 31) 1 8 : option sharded)
        = Some [(2 ^ 31 + 1 - 1) `div` 1]))
  ∧ (size_t_of_double
       (double_ceil (double_div (double_of_Z (2 ^ 53 + 1)) (double_of_Z (2 ^ 23))))
     = Some 1073741824
     ∧ (2 ^ 53 + 1 + 2 ^ 23 - 1) `div` 2 ^ 23 = 1073741825).
Proof.
  split; split_and!; try (vm_compute; reflexivity).
  intros H. vm_compute in H. discriminate H.
Qed.

Lemma C9_shard_capacity_witness :
  0 ≤ 10 < 2 ^ 53
  ∧ ∃ c : sharded,
      KHashFifoCache_new 10 3 8 = Some c
      ∧ sliceNum_ c = 3
      ∧ Z.of_nat (length (fifoSliceCaches_ c)) = 3
      ∧ Forall (λ sh, capacity_ sh = 4 ∧ queue sh = []) (fifoSliceCaches_ c)
      ∧ foldr Z.add 0 (capacity_ <$> fifoSliceCaches_ c) = 12.
Proof.
  assert (0 ≤ 10 < 2 ^ 53) as HT by lia. split; [exact HT|].
  destruct (C9_shard_capacity (Key:=nat) (Value:=Z) hash_nat 10 HT) as [H _].
  destruct (H 3 8) as (c & Hc & _ & Hn & _ & Hlen & Hall & _ & Hsum & _).
  - unfold INT_MAX. lia.
  - vm_compute. discriminate.
  - exists c. split; [exact Hc|]. split; [exact Hn|]. split; [exact Hlen|].
    split; [exact Hall|exact Hsum].
Defined.

Lemma C10_get_miss_keeps_value_witness :
  contains 3%nat full2 = false
  ∧ get 3%nat 5 full2 = Some (false, 5, full2)
  ∧ get_value 3%nat full2 = Some (value_init, full2).
Proof.
  assert (contains 3%nat full2 = false) as Hk by (vm_compute; reflexivity).
  split; [exact Hk|]. exact (C10_get_miss_keeps_value full2 3%nat 5 Hk).
Defined.

(** ** Concrete runs for the further properties *)

Lemma X1_live_nodes_witness :
  in_int 2
  ∧ run fill2 (KFifoCache_new 2) = Some full2
  ∧ dom (cells_ full2)
    = {[dummyHead_ full2; dummyTail_ full2]} ∪ list_to_set (queue_nodes full2)
  ∧ size (cells_ full2) = S (S (entry_count full2))
  ∧ length (queue_nodes full2) = entry_count full2.
Proof.
  assert (in_int 2) as HC by (unfold in_int, INT_MIN, INT_MAX; lia).
  assert (run fill2 (KFifoCache_new 2) = Some full2) as Hrun
    by (vm_compute; reflexivity).
  split; [exact HC|]. split; [exact Hrun|].
  exact (X1_live_nodes 2 fill2 full2 HC Hrun).
Defined.

Lemma X2_back_links_mirror_queue_witness :
  in_int 2
  ∧ run fill2 (KFifoCache_new 2) = Some full2
  ∧ queue_nodes_back full2 = reverse (queue_nodes full2).
Proof.
  assert (in_int 2) as HC by (unfold in_int, INT_MIN, INT_MAX; lia).
  assert (run fill2 (KFifoCache_new 2) = Some full2) as Hrun
    by (vm_compute; reflexivity).
  split; [exact HC|]. split; [exact Hrun|].
  exact (X2_back_links_mirror_queue 2 fill2 full2 HC Hrun).
Defined.

Lemma X3_sentinels_stay_witness :
  in_int 2
  ∧ run fill2 (KFifoCache_new 2) = Some full2
  ∧ same_frame (KFifoCache_new 2) full2
  ∧ (dummyHead_ full2 ∉ queue_nodes full2)
  ∧ (dummyTail_ full2 ∉ queue_nodes full2)
  ∧ removeNode (dummyHead_ full2) full2 = Some full2
  ∧ removeNode (dummyTail_ full2) full2 = Some full2.
Proof.
  assert (in_int 2) as HC by (unfold in_int, INT_MIN, INT_MAX; lia).
  assert (run fill2 (KFifoCache_new 2) = Some full2) as Hrun
    by (vm_compute; reflexivity).
  split; [exact HC|]. split; [exact Hrun|].
  destruct (X3_sentinels_stay 2 fill2 full2 HC Hrun)
    as (H1 & H2 & H3 & _ & H5 & H6 & _).
  split; [exact H1|]. split; [exact H2|]. split; [exact H3|].
  split; [exact H5|exact H6].
Defined.

Lemma X4_keys_distinct_witness :
  in_int 2
  ∧ run fill2 (KFifoCache_new 2) = Some full2
  ∧ NoDup (queue full2).*1
  ∧ length (queue full2) = entry_count full2
  ∧ NoDup (queue_nodes full2).
Proof.
  assert (in_int 2) as HC by (unfold in_int, INT_MIN, INT_MAX; lia).
  assert (run fill2 (KFifoCache_new 2) = Some full2) as Hrun
    by (vm_compute; reflexivity).
  split; [exact HC|]. split; [exact Hrun|].
  exact (X4_keys_distinct 2 fill2 full2 HC Hrun).
Defined.

Lemma X5_put_then_get_witness :
  1 ≤ 2 ≤ INT_MAX
  ∧ run fill2 (KFifoCache_new 2) = Some full2
  ∧ ∃ s', put 3%nat 30 full2 = Some s'
          ∧ contains 3%nat s' = true
          ∧ get 3%nat 0 s' = Some (true, 30, s')
          ∧ get_value 3%nat s' = Some (30, s').
Proof.
  assert (1 ≤ 2 ≤ INT_MAX) as HC by (unfold INT_MAX; lia).
  assert (run fill2 (KFifoCache_new 2) = Some full2) as Hrun
    by (vm_compute; reflexivity).
  split; [exact HC|]. split; [exact Hrun|].
  exact (X5_put_then_get 2 fill2 full2 3%nat 30 0 HC Hrun).
Defined.

Lemma X6_put_other_keys_witness :
  in_int 2
  ∧ run fill2 (KFifoCache_new 2) = Some full2
  ∧ ∃ s', put 3%nat 30 full2 = Some s'
          ∧ ∀ k' x, k' ≠ 3%nat →
              ((k', x) ∈ queue s' → (k', x) ∈ queue full2)
              ∧ ((k', x) ∈ queue full2 →
                 (k', x) ∈ queue s'
                 ∨ (head (queue full2) = Some (k', x)
                    ∧ contains 3%nat full2 = false
                    ∧ 2 ≤ Z.of_nat (entry_count full2))).
Proof.
  assert (in_int 2) as HC by (unfold in_int, INT_MIN, INT_MAX; lia).
  assert (run fill2 (KFifoCache_new 2) = Some full2) as Hrun
    by (vm_compute; reflexivity).
  split; [exact HC|]. split; [exact Hrun|].
  exact (X6_put_other_keys 2 fill2 full2 3%nat 30 HC Hrun).
Defined.

Lemma X7_remove_other_keys_witness :
  in_int 2
  ∧ run fill2 (KFifoCache_new 2) = Some full2
  ∧ ∃ s', remove 1%nat full2 = Some s'
          ∧ queue s' = filter (λ kv, kv.1 ≠ 1%nat) (queue full2)
          ∧ ∀ k' v0, k' ≠ 1%nat →
              contains k' s' = contains k' full2
              ∧ fst <$> get k' v0 s' = fst <$> get k' v0 full2.
Proof.
  assert (in_int 2) as HC by (unfold in_int, INT_MIN, INT_MAX; lia).
  assert (run fill2 (KFifoCache_new 2) = Some full2) as Hrun
    by (vm_compute; reflexivity).
  split; [exact HC|]. split; [exact Hrun|].
  exact (X7_remove_other_keys 2 fill2 full2 1%nat HC Hrun).
Defined.

Lemma X8_fifo_window_witness :
  1 ≤ 2 ≤ INT_MAX
  ∧ NoDup three_pairs.*1
  ∧ ∃ s : cache,
      put_all three_pairs (KFifoCache_new 2) = Some s
      ∧ queue s = drop (length three_pairs - Z.to_nat 2) three_pairs
      ∧ ∀ k, contains k s = true
             ↔ k ∈ (drop (length three_pairs - Z.to_nat 2) three_pairs).*1.
Proof.
  assert (1 ≤ 2 ≤ INT_MAX) as HC by (unfold INT_MAX; lia).
  assert (NoDup three_pairs.*1) as Hnd
    by (apply (bool_decide_unpack _); vm_compute; exact I).
  split; [exact HC|]. split; [exact Hnd|].
  exact (X8_fifo_window 2 three_pairs HC Hnd).
Defined.

Lemma X9_put_idempotent_witness :
  in_int 2
  ∧ run fill2 (KFifoCache_new 2) = Some full2
  ∧ ∃ s', put 3%nat 30 full2 = Some s' ∧ put 3%nat 30 s' = Some s'.
Proof.
  assert (in_int 2) as HC by (unfold in_int, INT_MIN, INT_MAX; lia).
  assert (run fill2 (KFifoCache_new 2) = Some full2) as Hrun
    by (vm_compute; reflexivity).
  split; [exact HC|]. split; [exact Hrun|].
  exact (X9_put_idempotent 2 fill2 full2 3%nat 30 HC Hrun).
Defined.

Lemma X10_never_put_never_present_witness :
  in_int 2
  ∧ run fill2 (KFifoCache_new 2) = Some full2
  ∧ (3%nat ∉ put_keys fill2)
  ∧ contains 3%nat full2 = false
  ∧ get 3%nat 5 full2 = Some (false, 5, full2)
  ∧ get_value 3%nat full2 = Some (value_init, full2).
Proof.
  assert (in_int 2) as HC by (unfold in_int, INT_MIN, INT_MAX; lia).
  assert (run fill2 (KFifoCache_new 2) = Some full2) as Hrun
    by (vm_compute; reflexivity).
  assert (3%nat ∉ put_keys fill2) as Hk
    by (apply (bool_decide_unpack _); vm_compute; exact I).
  split; [exact HC|]. split; [exact Hrun|]. split; [exact Hk|].
  exact (X10_never_put_never_present 2 fill2 full2 3%nat 5 HC Hrun Hk).
Defined.

Lemma X11_entry_count_after_put_witness :
  1 ≤ 2 ≤ INT_MAX
  ∧ run fill2 (KFifoCache_new 2) = Some full2
  ∧ ∃ s', put 3%nat 30 full2 = Some s'
          ∧ entry_count s'
            = (if contains 3%nat full2 then entry_count full2
               else if decide (2 ≤ Z.of_nat (entry_count full2))
                    then entry_count full2
                    else S (entry_count full2)).
Proof.
  assert (1 ≤ 2 ≤ INT_MAX) as HC by (unfold INT_MAX; lia).
  assert (run fill2 (KFifoCache_new 2) = Some full2) as Hrun
    by (vm_compute; reflexivity).
  split; [exact HC|]. split; [exact Hrun|].
  exact (X11_entry_count_after_put 2 fill2 full2 3%nat 30 HC Hrun).
Defined.

Lemma X12_put_then_remove_witness :
  1 ≤ 2 ≤ INT_MAX
  ∧ run fill2 (KFifoCache_new 2) = Some full2
  ∧ contains 3%nat full2 = false
  ∧ ∃ s' s'', put 3%nat 30 full2 = Some s' ∧ remove 3%nat s' = Some s''
              ∧ queue s'' = (if decide (2 ≤ Z.of_nat (entry_count full2))
                             then tail (queue full2) else queue full2)
              ∧ contains 3%nat s'' = false.
Proof.
  assert (1 ≤ 2 ≤ INT_MAX) as HC by (unfold INT_MAX; lia).
  assert (run fill2 (KFifoCache_new 2) = Some full2) as Hrun
    by (vm_compute; reflexivity).
  assert (contains 3%nat full2 = false) as Hk by (vm_compute; reflexivity).
  split; [exact HC|]. split; [exact Hrun|]. split; [exact Hk|].
  exact (X12_put_then_remove 2 fill2 full2 3%nat 30 HC Hrun Hk).
Defined.

Lemma X13_key_in_its_shard_witness :
  KHashFifoCache_new 10 3 8 = Some sharded_10_3
  ∧ 0 < sliceNum_ sharded_10_3
  ∧ hash_run hash_nat hash_ops sharded_10_3 = Some sharded_after
  ∧ (∀ i sh k, fifoSliceCaches_ sharded_after !! i = Some sh →
               contains k sh = true →
               sliceIndex hash_nat k sharded_after = Some i)
  ∧ (∀ i j shi shj k,
       fifoSliceCaches_ sharded_after !! i = Some shi →
       fifoSliceCaches_ sharded_after !! j = Some shj →
       contains k shi = true → contains k shj = true → i = j).
Proof.
  assert (KHashFifoCache_new 10 3 8 = Some sharded_10_3) as Hnew
    by (vm_compute; reflexivity).
  assert (0 < sliceNum_ sharded_10_3) as Hn by (vm_compute; reflexivity).
  assert (hash_run hash_nat hash_ops sharded_10_3 = Some sharded_after) as Hrun
    by (vm_compute; reflexivity).
  split; [exact Hnew|]. split; [exact Hn|]. split; [exact Hrun|].
  exact (X13_key_in_its_shard hash_nat 10 3 8 sharded_10_3 sharded_after
           hash_ops Hnew Hn Hrun).
Defined.

Lemma X14_sharded_calls_return_witness :
  KHashFifoCache_new 10 3 8 = Some sharded_10_3
  ∧ 0 < sliceNum_ sharded_10_3
  ∧ ∃ c, hash_run hash_nat hash_ops sharded_10_3 = Some c
         ∧ sliceNum_ c = sliceNum_ sharded_10_3
         ∧ length (fifoSliceCaches_ c) = Z.to_nat (sliceNum_ sharded_10_3)
         ∧ ∀ k, ∃ (b : bool) x,
             (∀ v, hash_get hash_nat k v c = Some (b, if b then x else v, c))
             ∧ hash_get_value hash_nat k c
               = Some (if b then x else value_init, c).
Proof.
  assert (KHashFifoCache_new 10 3 8 = Some sharded_10_3) as Hnew
    by (vm_compute; reflexivity).
  assert (0 < sliceNum_ sharded_10_3) as Hn by (vm_compute; reflexivity).
  split; [exact Hnew|]. split; [exact Hn|].
  exact (X14_sharded_calls_return hash_nat 10 3 8 sharded_10_3 hash_ops Hnew Hn).
Defined.

Lemma X15_inert_shards_witness :
  KHashFifoCache_new 0 3 8 = Some sharded_0_3
  ∧ 0 < sliceNum_ sharded_0_3
  ∧ Forall (λ sh, capacity_ sh ≤ 0) (fifoSliceCaches_ sharded_0_3)
  ∧ hash_run hash_nat hash_ops sharded_0_3 = Some sharded_0_3
  ∧ ∀ k v, hash_get hash_nat k v sharded_0_3 = Some (false, v, sharded_0_3)
           ∧ hash_get_value hash_nat k sharded_0_3
             = Some (value_init, sharded_0_3).
Proof.
  assert (KHashFifoCache_new 0 3 8 = Some sharded_0_3) as Hnew
    by (vm_compute; reflexivity).
  assert (0 < sliceNum_ sharded_0_3) as Hn by (vm_compute; reflexivity).
  assert (Forall (λ sh : cache, capacity_ sh ≤ 0) (fifoSliceCaches_ sharded_0_3))
    as Hcap by (repeat constructor; vm_compute; discriminate).
  split; [exact Hnew|]. split; [exact Hn|]. split; [exact Hcap|].
  exact (X15_inert_shards hash_nat 0 3 8 sharded_0_3 hash_ops Hnew Hn Hcap).
Defined.

Lemma X16_total_entries_bounded_witness :
  KHashFifoCache_new 10 3 8 = Some sharded_10_3
  ∧ 0 < sliceNum_ sharded_10_3
  ∧ ∃ cap,
      Forall (λ sh, capacity_ sh = cap) (fifoSliceCaches_ sharded_10_3)
      ∧ (0 ≤ 10 < 2 ^ 53 → 0 < 3 ≤ INT_MAX → (10 + 3 - 1) `div` 3 ≤ INT_MAX →
         cap = (10 + 3 - 1) `div` 3)
      ∧ ∀ ops c, hash_run hash_nat ops sharded_10_3 = Some c →
          Forall (λ sh, capacity_ sh = cap
                        ∧ Z.of_nat (entry_count sh) ≤ Z.max 0 cap)
            (fifoSliceCaches_ c)
          ∧ Z.of_nat (hash_entry_count c)
            ≤ sliceNum_ sharded_10_3 * Z.max 0 cap.
Proof.
  assert (KHashFifoCache_new 10 3 8 = Some sharded_10_3) as Hnew
    by (vm_compute; reflexivity).
  assert (0 < sliceNum_ sharded_10_3) as Hn by (vm_compute; reflexivity).
  split; [exact Hnew|]. split; [exact Hn|].
  exact (X16_total_entries_bounded hash_nat 10 3 8 sharded_10_3 Hnew Hn).
Defined.

Lemma X17_put_leaves_other_shards_witness :
  KHashFifoCache_new 10 3 8 = Some sharded_10_3
  ∧ 0 < sliceNum_ sharded_10_3
  ∧ hash_run hash_nat hash_ops sharded_10_3 = Some sharded_after
  ∧ ∃ c', hash_put hash_nat 5%nat 50 sharded_after = Some c'
          ∧ (∀ j, sliceIndex hash_nat 5%nat sharded_after ≠ Some j →
                  fifoSliceCaches_ c' !! j = fifoSliceCaches_ sharded_after !! j)
          ∧ ∀ k' v0,
              sliceIndex hash_nat k' sharded_after
              ≠ sliceIndex hash_nat 5%nat sharded_after →
              fst <$> hash_get hash_nat k' v0 c'
              = fst <$> hash_get hash_nat k' v0 sharded_after.
Proof.
  assert (KHashFifoCache_new 10 3 8 = Some sharded_10_3) as Hnew
    by (vm_compute; reflexivity).
  assert (0 < sliceNum_ sharded_10_3) as Hn by (vm_compute; reflexivity).
  assert (hash_run hash_nat hash_ops sharded_10_3 = Some sharded_after) as Hrun
    by (vm_compute; reflexivity).
  split; [exact Hnew|]. split; [exact Hn|]. split; [exact Hrun|].
  exact (X17_put_leaves_other_shards hash_nat 10 3 8 sharded_10_3 sharded_after
           hash_ops 5%nat 50 Hnew Hn Hrun).
Defined.

Lemma X18_colliding_keys_one_shard_witness :
  KHashFifoCache_new 10 3 8 = Some sharded_10_3
  ∧ 0 < sliceNum_ sharded_10_3
  ∧ Forall (λ sh, 1 ≤ capacity_ sh) (fifoSliceCaches_ sharded_10_3)
  ∧ (1 < Z.to_nat (sliceNum_ sharded_10_3))%nat
  ∧ NoDup colliding.*1
  ∧ (∀ kv, kv ∈ colliding → sliceIndex hash_nat kv.1 sharded_10_3 = Some 1%nat)
  ∧ ∃ c sh,
      hash_run hash_nat (map (λ kv, HashPut kv.1 kv.2) colliding) sharded_10_3
      = Some c
      ∧ fifoSliceCaches_ c !! 1%nat = Some sh
      ∧ queue sh = drop (length colliding - Z.to_nat (capacity_ sh)) colliding
      ∧ (∀ j, j ≠ 1%nat →
              fifoSliceCaches_ c !! j = fifoSliceCaches_ sharded_10_3 !! j)
      ∧ hash_entry_count c
        = (length colliding `min` Z.to_nat (capacity_ sh))%nat.
Proof.
  assert (KHashFifoCache_new 10 3 8 = Some sharded_10_3) as Hnew
    by (vm_compute; reflexivity).
  assert (0 < sliceNum_ sharded_10_3) as Hn by (vm_compute; reflexivity).
  assert (Forall (λ sh : cache, 1 ≤ capacity_ sh) (fifoSliceCaches_ sharded_10_3))
    as Hcap by (repeat constructor; vm_compute; discriminate).
  assert (1 < Z.to_nat (sliceNum_ sharded_10_3))%nat as Hi
    by (apply (bool_decide_unpack _); vm_compute; exact I).
  assert (NoDup colliding.*1) as Hnd
    by (apply (bool_decide_unpack _); vm_compute; exact I).
  assert (∀ kv, kv ∈ colliding
                → sliceIndex hash_nat kv.1 sharded_10_3 = Some 1%nat) as Hroute.
  { apply Forall_forall.
    repeat (constructor; [vm_compute; reflexivity|]). constructor. }
  split; [exact Hnew|]. split; [exact Hn|]. split; [exact Hcap|].
  split; [exact Hi|]. split; [exact Hnd|]. split; [exact Hroute|].
  exact (X18_colliding_keys_one_shard hash_nat 10 3 8 sharded_10_3 colliding 1%nat
           Hnew Hn Hcap Hi Hnd Hroute).
Defined.
